(** * WAFleet: session exclusivity and lifecycle layer

    A shallow embedding of the TypeScript sources

      - [src/services/locks.ts]       (lease lock over Redis)
      - [src/services/waAuthRedis.ts] (credential store)
      - [src/services/waSessions.ts]  (session registry, backoff, restore)
      - the base62 [genToken] of the token store

    Every exported [async] function is embedded as one state transformer
    over a [World]: the shared Redis store, the process-local registry of
    session objects, the connector sockets with their listeners and the
    pending timers.  A call runs to completion before the next event is
    taken (operations on one session never overlap); events of the outside
    world (socket callbacks, timers firing, other processes writing to the
    store, the store becoming unreachable) are separate steps. *)

From Stdlib Require Import ZArith List String Ascii Bool Lia.
From stdpp Require Import base option list strings gmap pretty.

Local Open Scope string_scope.
Local Open Scope Z_scope.

(** ** Strings: prefixes, suffixes and character classes *)

Fixpoint strip_prefix (p s : string) : option string :=
  match p, s with
  | EmptyString, _ => Some s
  | String a p', String b s' => if Ascii.eqb a b then strip_prefix p' s' else None
  | String _ _, EmptyString => None
  end.

Fixpoint str_rev_onto (s acc : string) : string :=
  match s with
  | EmptyString => acc
  | String c s' => str_rev_onto s' (String c acc)
  end.

Definition str_rev (s : string) : string := str_rev_onto s EmptyString.

Definition strip_suffix (p s : string) : option string :=
  str_rev <$> strip_prefix (str_rev p) (str_rev s).

Fixpoint str_forall (f : ascii -> bool) (s : string) : bool :=
  match s with
  | EmptyString => true
  | String c s' => f c && str_forall f s'
  end.

Definition str_nonempty (s : string) : bool :=
  match s with EmptyString => false | String _ _ => true end.

(** A [string] holds the UTF-8 bytes of a JavaScript string or of a Redis
    key.  JavaScript's [.] (no [s] flag) matches every character except the
    line terminators LF, CR, U+2028 and U+2029; the last two are the byte
    sequences E2 80 A8 and E2 80 A9. *)
Definition is_line_terminator (c : ascii) : bool :=
  Ascii.eqb c "010"%char || Ascii.eqb c "013"%char.

Definition starts_with_separator (s : string) : bool :=
  match s with
  | String a (String b (String c _)) =>
      Ascii.eqb a "226"%char && Ascii.eqb b "128"%char &&
      (Ascii.eqb c "168"%char || Ascii.eqb c "169"%char)
  | _ => false
  end.

(** Every character of [s] is matched by [.]. *)
Fixpoint dot_string (s : string) : bool :=
  match s with
  | EmptyString => true
  | String c s' =>
      negb (is_line_terminator c) && negb (starts_with_separator s) && dot_string s'
  end.

Definition not_colon (c : ascii) : bool := negb (Ascii.eqb c ":"%char).

(** ** Redis glob patterns (SCAN ... MATCH), after [stringmatchlen] *)

Fixpoint skip_stars (p : string) : string :=
  match p with
  | String "*"%char p' => skip_stars p'
  | _ => p
  end.

Definition str_empty (s : string) : bool := negb (str_nonempty s).

(** The body of a bracket class, read up to its closing bracket: whether
    [c] is in the class so far, and the pattern after the bracket (empty
    for an unterminated class). *)
Fixpoint glob_class (p : string) (c : ascii) (m : bool) : bool * string :=
  match p with
  | EmptyString => (m, EmptyString)
  | String "\"%char (String x p') => glob_class p' c (m || Ascii.eqb x c)
  | String "]"%char p' => (m, p')
  | String a (String "-"%char (String b p')) =>
      let lo := N.min (N_of_ascii a) (N_of_ascii b) in
      let hi := N.max (N_of_ascii a) (N_of_ascii b) in
      glob_class p' c (m || (N.leb lo (N_of_ascii c) && N.leb (N_of_ascii c) hi))
  | String a p' => glob_class p' c (m || Ascii.eqb a c)
  end.

Fixpoint glob_star (f : string -> bool) (s : string) : bool :=
  match s with
  | EmptyString => false
  | String _ s' => f s || glob_star f s'
  end.

(** The matching loop on a non-empty subject; [n] bounds the pattern
    length, which every recursive call decreases. *)
Fixpoint glob_loop (n : nat) (p s : string) : bool :=
  match n with
  | O => false
  | S n' =>
    match s with
    | EmptyString => false
    | String c s' =>
      let next p' :=
        match s' with
        | EmptyString => str_empty (skip_stars p')
        | String _ _ => glob_loop n' p' s'
        end in
      match p with
      | EmptyString => false
      | String "*"%char p1 =>
          match skip_stars p1 with
          | EmptyString => true
          | p2 => glob_star (glob_loop n' p2) s
          end
      | String "?"%char p' => next p'
      | String "["%char p1 =>
          let '(neg, p2) :=
            match p1 with
            | String "^"%char q => (true, q)
            | _ => (false, p1)
            end in
          let '(m, p3) := glob_class p2 c false in
          if xorb neg m then next p3 else false
      | String "\"%char (String x p') => if Ascii.eqb x c then next p' else false
      | String a p' => if Ascii.eqb a c then next p' else false
      end
    end
  end.

Definition glob (p s : string) : bool :=
  match s with
  | EmptyString => str_empty p
  | String _ _ => glob_loop (String.length p) p s
  end.

(** ** Key namespaces *)

Definition lockKey (sessionId : string) : string := "lock:wa:" +:+ sessionId.
Definition baileysBase (sessionId : string) : string := "baileys:" +:+ sessionId +:+ ":".
Definition kCreds (sessionId : string) : string := baileysBase sessionId +:+ "creds".
Definition keyOf (sessionId type id : string) : string :=
  baileysBase sessionId +:+ type +:+ ":" +:+ id.
Definition baileysPattern (sessionId : string) : string := baileysBase sessionId +:+ "*".
Definition sessSetKey (sessionId : string) : string := "sess:" +:+ sessionId +:+ ":tokens".
Definition tokenKey (t : string) : string := "token:" +:+ t.

(** ** The three anchored regular expressions of [extractIdFromKey]

    [^sess:([^:]+):tokens$], [^baileys:(.+):creds$] and [^lock:wa:(.+)$]:
    fixed prefix, fixed suffix, and one non-empty group in between that
    [cls] accepts; the group is therefore the whole middle part. *)
Definition match_between (pre suf : string) (cls : string -> bool) (k : string)
  : option string :=
  match strip_prefix pre k with
  | None => None
  | Some r =>
    match strip_suffix suf r with
    | None => None
    | Some g => if str_nonempty g && cls g then Some g else None
    end
  end.

Definition re_sess_tokens : string -> option string :=
  match_between "sess:" ":tokens" (str_forall not_colon).
Definition re_baileys_creds : string -> option string :=
  match_between "baileys:" ":creds" dot_string.
Definition re_lock : string -> option string :=
  match_between "lock:wa:" "" dot_string.

Definition extractIdFromKey (k : string) : option string :=
  match re_sess_tokens k with
  | Some id => Some id
  | None =>
    match re_baileys_creds k with
    | Some id => Some id
    | None => re_lock k
    end
  end.

(** ** The shared store: a Redis keyspace *)

Inductive RVal :=
| VStr (s : string)
| VSet (m : gset string).

(** A key holds a value and, when it was written with PX or touched by
    PEXPIRE, its time to live in milliseconds.  Passive expiry is a step
    of the outside world (it removes the key). *)
Record Entry := mkEntry { e_val : RVal; e_ttl : option Z }.

(** One DEL of a pipeline, with the keys it was given. *)
Definition PipeOp : Type := list string.

(** What the client sent to the server, oldest first. *)
Inductive Cmd :=
| CSetNxPx (key value : string) (ttl : Z)
| CSet (key value : string)
| CGet (key : string)
| CEvalRenew (key token : string) (ttl : Z)
| CEvalRelease (key token : string)
| CSmembers (key : string)
| CScan (pattern : string)
| CExec (ops : list PipeOp).

(** ** Errors and log lines *)

Inductive JsError :=
| ErrLocked (sessionId : string)
| ErrRedis (message : string).

(** [(err as any).code]: only the locked error carries 423. *)
Definition err_code (e : JsError) : option Z :=
  match e with
  | ErrLocked _ => Some 423
  | ErrRedis _ => None
  end.

Inductive Level := LInfo | LWarn | LError.

Record LogLine := mkLog { l_level : Level; l_msg : string; l_id : string }.

(** ** Process-local objects *)

Inductive SessionStatus := connecting | open | close.

Record SessionLock := mkLock {
  lk_key : string;
  lk_token : string;
  lk_renewTimer : nat
}.

(** A [SessionEntry] object.  [reconnecting] is read only for its truth
    value, so [undefined] and [false] are both [false]; [backoffTimer] is
    read only for its truth value and passed to [clearTimeout], so
    [undefined] and [null] are both [None]. *)
Record SessionEntry := mkEntryObj {
  sock : option nat;
  status : SessionStatus;
  lastQr : option string;
  userJid : option string;
  reconnecting : bool;
  backoffMs : option Z;
  backoffTimer : option nat;
  lock : option SessionLock
}.

(** A connector socket made by [makeWASocket], with what its two handlers
    close over and whether they are still attached. *)
Record Sock := mkSock {
  sk_sessionId : string;
  sk_entry : nat;
  sk_on_connection : bool;
  sk_on_creds : bool;
  sk_logged_out : bool
}.

Inductive Timer :=
| RenewTimer (key token : string)
| BackoffTimer (sessionId : string) (s : nat) (delay : Z).

Record World := mkWorld {
  (** [None]: the store answers every command; [Some n]: it answers [n]
      more commands and the client rejects the ones after that. *)
  redis_budget : option nat;
  db : gmap string Entry;
  cmds : list Cmd;
  sessions : gmap string nat;
  heap : gmap nat SessionEntry;
  socks : gmap nat Sock;
  timers : gmap nat Timer;
  fresh : nat;
  entropy : nat;
  logs : list LogLine
}.

Definition set_redis_budget (b : option nat) (w : World) : World :=
  mkWorld b (db w) (cmds w) (sessions w) (heap w) (socks w) (timers w) (fresh w) (entropy w) (logs w).
Definition set_db (f : gmap string Entry -> gmap string Entry) (w : World) : World :=
  mkWorld (redis_budget w) (f (db w)) (cmds w) (sessions w) (heap w) (socks w) (timers w) (fresh w) (entropy w) (logs w).
Definition add_cmd (c : Cmd) (w : World) : World :=
  mkWorld (redis_budget w) (db w) (cmds w ++ [c])%list (sessions w) (heap w) (socks w) (timers w) (fresh w) (entropy w) (logs w).
Definition set_sessions (f : gmap string nat -> gmap string nat) (w : World) : World :=
  mkWorld (redis_budget w) (db w) (cmds w) (f (sessions w)) (heap w) (socks w) (timers w) (fresh w) (entropy w) (logs w).
Definition set_heap (f : gmap nat SessionEntry -> gmap nat SessionEntry) (w : World) : World :=
  mkWorld (redis_budget w) (db w) (cmds w) (sessions w) (f (heap w)) (socks w) (timers w) (fresh w) (entropy w) (logs w).
Definition set_socks (f : gmap nat Sock -> gmap nat Sock) (w : World) : World :=
  mkWorld (redis_budget w) (db w) (cmds w) (sessions w) (heap w) (f (socks w)) (timers w) (fresh w) (entropy w) (logs w).
Definition set_timers (f : gmap nat Timer -> gmap nat Timer) (w : World) : World :=
  mkWorld (redis_budget w) (db w) (cmds w) (sessions w) (heap w) (socks w) (f (timers w)) (fresh w) (entropy w) (logs w).
Definition bump_fresh (w : World) : World :=
  mkWorld (redis_budget w) (db w) (cmds w) (sessions w) (heap w) (socks w) (timers w) (S (fresh w)) (entropy w) (logs w).
Definition bump_entropy (w : World) : World :=
  mkWorld (redis_budget w) (db w) (cmds w) (sessions w) (heap w) (socks w) (timers w) (fresh w) (S (entropy w)) (logs w).
Definition add_log (l : LogLine) (w : World) : World :=
  mkWorld (redis_budget w) (db w) (cmds w) (sessions w) (heap w) (socks w) (timers w) (fresh w) (entropy w) (logs w ++ [l])%list.

Definition empty_world : World :=
  mkWorld None ∅ [] ∅ ∅ ∅ ∅ O O [].

(** Field updates of a [SessionEntry] object. *)
Definition with_sock (x : option nat) (e : SessionEntry) : SessionEntry :=
  mkEntryObj x (status e) (lastQr e) (userJid e) (reconnecting e) (backoffMs e) (backoffTimer e) (lock e).
Definition with_status (x : SessionStatus) (e : SessionEntry) : SessionEntry :=
  mkEntryObj (sock e) x (lastQr e) (userJid e) (reconnecting e) (backoffMs e) (backoffTimer e) (lock e).
Definition with_lastQr (x : option string) (e : SessionEntry) : SessionEntry :=
  mkEntryObj (sock e) (status e) x (userJid e) (reconnecting e) (backoffMs e) (backoffTimer e) (lock e).
Definition with_userJid (x : option string) (e : SessionEntry) : SessionEntry :=
  mkEntryObj (sock e) (status e) (lastQr e) x (reconnecting e) (backoffMs e) (backoffTimer e) (lock e).
Definition with_reconnecting (x : bool) (e : SessionEntry) : SessionEntry :=
  mkEntryObj (sock e) (status e) (lastQr e) (userJid e) x (backoffMs e) (backoffTimer e) (lock e).
Definition with_backoffMs (x : option Z) (e : SessionEntry) : SessionEntry :=
  mkEntryObj (sock e) (status e) (lastQr e) (userJid e) (reconnecting e) x (backoffTimer e) (lock e).
Definition with_backoffTimer (x : option nat) (e : SessionEntry) : SessionEntry :=
  mkEntryObj (sock e) (status e) (lastQr e) (userJid e) (reconnecting e) (backoffMs e) x (lock e).
Definition with_lock (x : option SessionLock) (e : SessionEntry) : SessionEntry :=
  mkEntryObj (sock e) (status e) (lastQr e) (userJid e) (reconnecting e) (backoffMs e) (backoffTimer e) x.

(** The object literal [{}] read as a [SessionEntry]: every field
    [undefined]. Its [status] is overwritten wherever it is used. *)
Definition empty_object : SessionEntry :=
  mkEntryObj None connecting None None false None None None.

(** [s.field = ...]: an in-place write to the object [s]. *)
Definition upd (s : nat) (f : SessionEntry -> SessionEntry) (w : World) : World :=
  set_heap (alter f s) w.

(** A new object, socket or timer gets the next free identity. *)
Definition alloc_obj (e : SessionEntry) (w : World) : nat * World :=
  (fresh w, bump_fresh (set_heap <[fresh w := e]> w)).
Definition alloc_sock (k : Sock) (w : World) : nat * World :=
  (fresh w, bump_fresh (set_socks <[fresh w := k]> w)).
Definition alloc_timer (t : Timer) (w : World) : nat * World :=
  (fresh w, bump_fresh (set_timers <[fresh w := t]> w)).

(** [clearTimeout] / [clearInterval]. *)
Definition clearTimer (t : nat) (w : World) : World := set_timers (delete t) w.

(** [sock.ev.removeAllListeners(...)] for both events. *)
Definition detach (k : Sock) : Sock :=
  mkSock (sk_sessionId k) (sk_entry k) false false (sk_logged_out k).
Definition removeAllListeners (k : nat) (w : World) : World :=
  set_socks (alter detach k) w.
Definition sock_logout (k : nat) (w : World) : World :=
  set_socks (alter (fun x => mkSock (sk_sessionId x) (sk_entry x) (sk_on_connection x)
                                    (sk_on_creds x) true) k) w.

(** ** Configuration and platform *)

(** The validated environment ([config/env.ts]); the fallbacks after [??]
    never apply because the schema gives every key a default. *)
Class Env := {
  LOCK_TTL_MS : Z;
  RECONNECT_MIN : Z;
  RECONNECT_MAX : Z;
  RETRIES : Z
}.

(** What the runtime and the connector library provide. *)
Class Platform := {
  Creds : Type;
  (** [JSON.parse(text, BufferJSON.reviver)]; [None] when it throws. *)
  JSON_parse : string -> option Creds;
  (** [initAuthCreds()] on the n-th draw of the random source. *)
  initAuthCreds : nat -> Creds;
  (** [randomUUID()] on the n-th draw of the random source. *)
  randomUUID : nat -> string
}.

(** [DisconnectReason] of the connector library. *)
Definition loggedOut : Z := 401.
Definition connectionReplaced : Z := 440.

(** ** Computations that may throw *)

Definition M (A : Type) : Type := World -> (JsError + A) * World.

Definition ret {A} (a : A) : M A := fun w => (inr a, w).
Definition throw {A} (e : JsError) : M A := fun w => (inl e, w).
Definition bind {A B} (m : M A) (k : A -> M B) : M B :=
  fun w => match m w with
           | (inl e, w') => (inl e, w')
           | (inr a, w') => k a w'
           end.
Definition try_catch {A} (m : M A) (h : JsError -> M A) : M A :=
  fun w => match m w with
           | (inl e, w') => h e w'
           | (inr a, w') => (inr a, w')
           end.
Definition lift (f : World -> World) : M unit := fun w => (inr tt, f w).
Definition lift_val {A} (f : World -> A * World) : M A := fun w => let '(a, w') := f w in (inr a, w').
Definition gets {A} (f : World -> A) : M A := fun w => (inr (f w), w).
(** [try { await m } catch {}] *)
Definition swallow (m : M unit) : World -> World :=
  fun w => (m w).2.

Notation "'do' x <- m ; k" := (bind m (fun x => k))
  (at level 10, x name, m at level 100, k at level 200).
Notation "'do_' m ; k" := (bind m (fun _ => k))
  (at level 10, m at level 100, k at level 200).

Global Instance SessionStatus_eq_dec : EqDecision SessionStatus.
Proof. solve_decision. Defined.

(** JavaScript truthiness of a string and of a number. *)
Definition truthy_str (s : option string) : bool :=
  match s with Some x => str_nonempty x | None => false end.
Definition truthy_num (n : option Z) : bool :=
  match n with Some x => negb (x =? 0) | None => false end.

(** ** Redis commands, as the client sees them *)

Definition connection_lost : JsError := ErrRedis "Connection is closed.".
Definition wrongtype : JsError :=
  ErrRedis "WRONGTYPE Operation against a key holding the wrong kind of value".

(** A command reaches the store unless the connection has failed. *)
Definition send (c : Cmd) : M unit :=
  fun w => match redis_budget w with
           | None => (inr tt, add_cmd c w)
           | Some (S n) => (inr tt, add_cmd c (set_redis_budget (Some n) w))
           | Some O => (inl connection_lost, w)
           end.

(** GET *)
Definition redis_get (k : string) : M (option string) :=
  do_ send (CGet k);
  do e <- gets (fun w => db w !! k);
  match e with
  | None => ret None
  | Some (mkEntry (VStr s) _) => ret (Some s)
  | Some (mkEntry (VSet _) _) => throw wrongtype
  end.

(** SET key value *)
Definition redis_set (k v : string) : M unit :=
  do_ send (CSet k v);
  lift (set_db <[k := mkEntry (VStr v) None]>).

(** SET key value PX ttl NX; [true] stands for the reply ['OK']. *)
Definition redis_set_px_nx (k v : string) (ttl : Z) : M bool :=
  do_ send (CSetNxPx k v ttl);
  do e <- gets (fun w => db w !! k);
  match e with
  | Some _ => ret false
  | None => do_ lift (set_db <[k := mkEntry (VStr v) (Some ttl)]>); ret true
  end.

(** RENEW_LUA: PEXPIRE only if the stored value equals the token. *)
Definition redis_eval_renew (k token : string) (ttl : Z) : M Z :=
  do_ send (CEvalRenew k token ttl);
  do e <- gets (fun w => db w !! k);
  match e with
  | None => ret 0
  | Some (mkEntry (VSet _) _) => throw wrongtype
  | Some (mkEntry (VStr v) _) =>
      if String.eqb v token
      then do_ lift (set_db <[k := mkEntry (VStr v) (Some ttl)]>); ret 1
      else ret 0
  end.

(** RELEASE_LUA: DEL only if the stored value equals the token. *)
Definition redis_eval_release (k token : string) : M Z :=
  do_ send (CEvalRelease k token);
  do e <- gets (fun w => db w !! k);
  match e with
  | None => ret 0
  | Some (mkEntry (VSet _) _) => throw wrongtype
  | Some (mkEntry (VStr v) _) =>
      if String.eqb v token
      then do_ lift (set_db (delete k)); ret 1
      else ret 0
  end.

(** SMEMBERS *)
Definition redis_smembers (k : string) : M (list string) :=
  do_ send (CSmembers k);
  do e <- gets (fun w => db w !! k);
  match e with
  | None => ret []
  | Some (mkEntry (VSet m) _) => ret (elements m)
  | Some (mkEntry (VStr _) _) => throw wrongtype
  end.

Definition keys_matching (pattern : string) (d : gmap string Entry) : list string :=
  List.filter (glob pattern) (map_to_list d).*1.

(** A complete SCAN iteration with MATCH: the cursor loop
    [do { [next, keys] = scan(cursor, ...) } while (cursor !== '0')]
    returns, page after page, every key that matches.  The callers depend
    neither on the order of the keys nor on a key being reported once. *)
Definition redis_scan_all (pattern : string) : M (list string) :=
  do_ send (CScan pattern);
  gets (fun w => keys_matching pattern (db w)).

Definition del_keys (keys : list string) (d : gmap string Entry) : gmap string Entry :=
  foldr delete d keys.

(** [p.exec()] of a pipeline of DELs. *)
Definition pipeline_exec (ops : list PipeOp) : M unit :=
  do_ send (CExec ops);
  lift (set_db (fun d => foldl (fun d keys => del_keys keys d) d ops)).

Section Program.
Context `{Env} `{Platform}.

(** ** locks.ts *)

Definition draw_uuid : M string :=
  fun w => (inr (randomUUID (entropy w)), bump_entropy w).

(** The interval callback [renew]. *)
Definition renew (key token : string) (renewTimer : nat) : World -> World :=
  swallow (do res <- redis_eval_renew key token LOCK_TTL_MS;
           if res =? 0 then lift (clearTimer renewTimer) else ret tt).

(** [lock.release()] *)
Definition release (l : SessionLock) : World -> World :=
  fun w => swallow (do_ redis_eval_release (lk_key l) (lk_token l); ret tt)
                   (clearTimer (lk_renewTimer l) w).

Definition acquireSessionLock (sessionId : string) : M (option SessionLock) :=
  let key := lockKey sessionId in
  do token <- draw_uuid;
  do ok <- redis_set_px_nx key token LOCK_TTL_MS;
  if negb ok then ret None else
  do renewTimer <- lift_val (alloc_timer (RenewTimer key token));
  ret (Some (mkLock key token renewTimer)).

(** ** waAuthRedis.ts *)

Definition init_creds : M Creds :=
  fun w => (inr (initAuthCreds (entropy w)), bump_entropy w).

(** The load part of [useRedisAuth]; [logger] tells whether one was passed. *)
Definition useRedisAuth (sessionId : string) (logger : bool) : M Creds :=
  do savedCreds <- redis_get (kCreds sessionId);
  if truthy_str savedCreds then
    match JSON_parse (default "" savedCreds) with
    | Some creds => ret creds
    | None =>
        do_ lift (if logger
                  then add_log (mkLog LWarn "Failed to parse creds JSON; reinitializing creds" sessionId)
                  else id);
        init_creds
    end
  else init_creds.

(** [saveCreds()], given the serialised credentials object. *)
Definition saveCreds (sessionId blob : string) : M unit :=
  redis_set (kCreds sessionId) blob.

Definition deleteRedisAuth (sessionId : string) : M unit :=
  do tokens <- redis_smembers (sessSetKey sessionId);
  let p1 := match tokens with [] => [] | _ :: _ => [map tokenKey tokens] end in
  let p2 := (p1 ++ [[sessSetKey sessionId]])%list in
  do keys <- redis_scan_all (baileysPattern sessionId);
  let p3 := (p2 ++ match keys with [] => [] | _ :: _ => [keys] end)%list in
  pipeline_exec p3.

(** ** waSessions.ts *)

(** The registry [sessions] is a plain object used as a map.  The map
    [sessions w] holds its own properties, which is what [sessions[id]]
    reads for an identifier that names no member of [Object.prototype].
    For the names below JavaScript does otherwise: a read finds the
    inherited member when there is no own property, and an assignment to
    [__proto__] replaces the prototype instead of adding a property.  The
    embedding follows the code on runs that use ordinary identifiers only
    ([ordinary_run], below). *)
Definition OBJECT_PROTOTYPE : list string :=
  ["constructor"; "__defineGetter__"; "__defineSetter__"; "hasOwnProperty";
   "__lookupGetter__"; "__lookupSetter__"; "isPrototypeOf"; "propertyIsEnumerable";
   "toString"; "valueOf"; "__proto__"; "toLocaleString"].

Definition ordinary_id (id : string) : bool :=
  negb (existsb (String.eqb id) OBJECT_PROTOTYPE).

Definition lookup_entry (sessionId : string) (w : World) : option (nat * SessionEntry) :=
  r ← sessions w !! sessionId; e ← heap w !! r; Some (r, e).

Definition resetBackoff (s : nat) (w : World) : World :=
  let w1 := upd s (with_backoffMs (Some RECONNECT_MIN)) w in
  let w2 := match heap w1 !! s ≫= backoffTimer with
            | Some t => upd s (with_backoffTimer None) (clearTimer t w1)
            | None => w1
            end in
  upd s (with_reconnecting false) w2.

Definition next_backoff (b : option Z) : Z :=
  Z.min (if truthy_num b then default 0 b * 2 else RECONNECT_MIN) RECONNECT_MAX.

Definition scheduleReconnect (sessionId reason : string) (w : World) : World :=
  match lookup_entry sessionId w with
  | None => w
  | Some (s, e) =>
    if reconnecting e then w else
    let delay := next_backoff (backoffMs e) in
    let w1 := upd s (fun x => with_backoffMs (Some delay) (with_reconnecting true x)) w in
    let w2 := add_log (mkLog LWarn "scheduleReconnect" sessionId) w1 in
    let '(t, w3) := alloc_timer (BackoffTimer sessionId s delay) w2 in
    upd s (with_backoffTimer (Some t)) w3
  end.

Definition returns_existing (ex : option (nat * SessionEntry)) (force : bool) : option nat :=
  match ex with
  | Some (r, e) =>
      if bool_decide (is_Some (sock e)) && bool_decide (status e ≠ close) && negb force
      then Some r else None
  | None => None
  end.

(** Lines 105-116: take the distributed lock unless the existing object
    already carries one, and register an object that carries it. *)
Definition ensure_lock (sessionId : string) (existing : option (nat * SessionEntry))
  : M unit :=
  match existing ≫= (fun x => lock x.2) with
  | Some _ => ret tt
  | None =>
      do l <- acquireSessionLock sessionId;
      match l with
      | None => throw (ErrLocked sessionId)
      | Some lk =>
          let obj := match existing with
                     | Some (_, e) => with_lock (Some lk) e
                     | None => mkEntryObj None connecting None None false None None (Some lk)
                     end in
          do r <- lift_val (alloc_obj obj);
          lift (set_sessions <[sessionId := r]>)
      end
  end.

(** Lines 118-126: on [force], detach the old socket's listeners and
    clear the [sock] field of the registered object. *)
Definition detach_old (sessionId : string) (force : bool)
    (existing : option (nat * SessionEntry)) : M unit :=
  match force, existing ≫= (fun x => sock x.2) with
  | true, Some k =>
      do_ lift (removeAllListeners k);
      lift (fun w => match sessions w !! sessionId with
                     | Some r => upd r (with_sock None) w
                     | None => w
                     end)
  | _, _ => ret tt
  end.

(** Lines 134-208: make the socket, store the new entry object (a copy
    of the registered one, or of [{}] when there is none) and attach the
    two listeners, which close over the new object. *)
Definition install_socket (sessionId : string) : M nat :=
  do k <- lift_val (alloc_sock (mkSock sessionId O false false false));
  do cur <- gets (fun w => default empty_object (snd <$> lookup_entry sessionId w));
  do entry <- lift_val (alloc_obj (with_status connecting (with_sock (Some k) cur)));
  do_ lift (set_sessions <[sessionId := entry]>);
  do_ lift (set_socks (alter (fun x => mkSock sessionId entry true true (sk_logged_out x)) k));
  ret entry.

Definition createSession (sessionId : string) (force : bool) : M nat :=
  do existing <- gets (lookup_entry sessionId);
  match returns_existing existing force with
  | Some r => ret r
  | None =>
    do_ ensure_lock sessionId existing;
    do_ detach_old sessionId force existing;
    do _creds <- useRedisAuth sessionId true;
    install_socket sessionId
  end.

Definition getSession (sessionId : string) (w : World) : option nat * World :=
  match sessions w !! sessionId with
  | Some s => (Some s, w)
  | None =>
    match createSession sessionId false w with
    | (inr r, w') => (Some r, w')
    | (inl _, w') => (None, add_log (mkLog LError "lazy restore failed" sessionId) w')
    end
  end.

(** Lines 232-256 of [logoutSession], for the object [s] it found. *)
Definition teardown (sessionId : string) (s : nat) (w : World) : World :=
  let e := default empty_object (heap w !! s) in
  let w1 := match backoffTimer e with Some t => clearTimer t w | None => w end in
  let w2 := upd s (with_reconnecting false) w1 in
  let w3 := match sock e with Some k => removeAllListeners k w2 | None => w2 end in
  let w4 := match sock e with Some k => sock_logout k w3 | None => w3 end in
  let w5 := match lock e with Some l => release l w4 | None => w4 end in
  set_sessions (delete sessionId) w5.

Definition logoutSession (sessionId : string) : M unit :=
  do s <- lift_val (getSession sessionId);
  match s with
  | None => deleteRedisAuth sessionId
  | Some s =>
    do_ lift (teardown sessionId s);
    deleteRedisAuth sessionId
  end.

(** One [connection.update] event, as far as the handler reads it; the
    status code is [boom?.output?.statusCode ?? boom?.code] and [u_user] is
    [sock.user?.id] at that moment. *)
Record Update := mkUpdate {
  u_connection : option SessionStatus;
  u_code : option Z;
  u_msg : option string;
  u_qr : option string;
  u_user : option string
}.

Definition is_terminal_code (code : option Z) : bool :=
  match code with
  | Some c => (c =? loggedOut) || (c =? connectionReplaced)
  | None => false
  end.

(** The handler calls [void logoutSession(sessionId)]: nothing awaits or
    catches that promise.  When it is rejected (the store failed inside
    [deleteRedisAuth]), the rejection is unhandled and ends the Node process;
    the program installs no handler for it.  Of a process that has ended
    nothing is left but what it wrote: the store, the log and the counters.
    An event that follows is an event of the process started anew, with an
    empty registry and no socket or timer. *)
Definition process_exit (w : World) : World :=
  set_timers (fun _ => ∅)
    (set_socks (fun _ => ∅) (set_heap (fun _ => ∅) (set_sessions (fun _ => ∅) w))).

(** The [connection.update] handler of the socket made for [sessionId],
    closing over the object [entry]. *)
Definition on_connection_update (sessionId : string) (entry : nat) (u : Update)
    (w : World) : World :=
  let e := default empty_object (heap w !! entry) in
  let w1 := if truthy_str (u_qr u) && bool_decide (status e ≠ open)
               && bool_decide (lastQr e ≠ u_qr u)
            then upd entry (with_lastQr (u_qr u)) w else w in
  match u_connection u with
  | Some open =>
      let w2 := upd entry (fun x => with_lastQr None (with_userJid (u_user u) (with_status open x))) w1 in
      add_log (mkLog LInfo "connected" sessionId) (resetBackoff entry w2)
  | Some close =>
      let w2 := upd entry (fun x => with_lastQr None (with_status close x)) w1 in
      let w3 := add_log (mkLog LWarn "connection closed" sessionId) w2 in
      if is_terminal_code (u_code u)
      then match logoutSession sessionId w3 with
           | (inr _, w4) => w4
           | (inl _, w4) => process_exit w4
           end
      else scheduleReconnect sessionId
             (if truthy_str (u_msg u) then default "" (u_msg u) else "code") w3
  | _ => w1
  end.

(** The [creds.update] handler. *)
Definition on_creds_update (sessionId blob : string) (w : World) : World :=
  match saveCreds sessionId blob w with
  | (inr _, w') => w'
  | (inl _, w') => add_log (mkLog LError "saveCreds error" sessionId) w'
  end.

(** The one-shot timer armed by [scheduleReconnect]. *)
Definition backoff_callback (sessionId : string) (s : nat) (w : World) : World :=
  let w1 := upd s (with_backoffTimer None) w in
  match createSession sessionId true w1 with
  | (inr _, w2) => w2
  | (inl _, w2) =>
      scheduleReconnect sessionId "retry-failed"
        (add_log (mkLog LError "reconnect failed" sessionId)
           (upd s (with_reconnecting false) w2))
  end.

(** [scanKeys] *)
Definition scanKeys (pattern : string) : M (list string) := redis_scan_all pattern.

(** [ids.add(id)] on a [Set], which iterates in insertion order. *)
Definition set_add (id : string) (ids : list string) : list string :=
  if bool_decide (id ∈ ids) then ids else (ids ++ [id])%list.

Definition collect_ids (keys ids : list string) : list string :=
  foldl (fun acc k => match extractIdFromKey k with
                      | Some id => set_add id acc
                      | None => acc
                      end) ids keys.

Definition collect_locked (keys : list string) : list string :=
  foldl (fun acc k => match re_lock k with
                      | Some id => set_add id acc
                      | None => acc
                      end) [] keys.

(** The attempt loop for one candidate, entered with [attempt] and with
    [n] iterations left before [attempt <= RETRIES] fails. *)
Fixpoint attempts (id : string) (n : nat) (attempt : Z) (w : World) : bool * World :=
  match n with
  | O => (false, w)
  | S n' =>
    match createSession id false w with
    | (inr _, w') => (true, w')
    | (inl e, w') =>
        if bool_decide (err_code e = Some 423) then
          if attempt <? RETRIES then attempts id n' (attempt + 1) w'
          else (false, add_log (mkLog LWarn "auto-restore: locked, skipped after retries" id) w')
        else (false, add_log (mkLog LError "auto-restore failed" id) w')
    end
  end.

(** The body of [for (const id of ids)]. *)
Definition restore_one (locked : list string) (id : string)
    (st : list string * World) : list string * World :=
  let '(restored, w) := st in
  if bool_decide (id ∈ locked)
  then (restored, add_log (mkLog LWarn "auto-restore: skip karena locked" id) w)
  else
    match attempts id (Z.to_nat (RETRIES + 1)) 0 w with
    | (true, w') => ((restored ++ [id])%list, w')
    | (false, w') => (restored, add_log (mkLog LInfo "auto-restore: not restored" id) w')
    end.

Definition restoreAllSessionsFromRedis : M (list string) :=
  do keys1 <- scanKeys "sess:*:tokens";
  do keys2 <- scanKeys "baileys:*:creds";
  let ids := collect_ids keys2 (collect_ids keys1 []) in
  do lockedKeys <- scanKeys "lock:wa:*";
  let locked := collect_locked lockedKeys in
  do restored <- lift_val (fun w => foldl (fun st id => restore_one locked id st) ([], w) ids);
  do_ lift (add_log (mkLog LInfo "auto-restore complete" ""));
  ret restored.

(** ** Events *)

Inductive Event :=
| CallCreateSession (sessionId : string) (force : bool)
| CallGetSession (sessionId : string)
| CallLogoutSession (sessionId : string)
| CallRestoreAll
| ConnectionUpdate (k : nat) (u : Update)
| CredsUpdate (k : nat) (blob : string)
| TimerFires (t : nat)
| StoreChanges (d : gmap string Entry)
| RedisAvailable (budget : option nat).

Definition step (ev : Event) (w : World) : World :=
  match ev with
  | CallCreateSession sessionId force => (createSession sessionId force w).2
  | CallGetSession sessionId => (getSession sessionId w).2
  | CallLogoutSession sessionId => (logoutSession sessionId w).2
  | CallRestoreAll => (restoreAllSessionsFromRedis w).2
  | ConnectionUpdate k u =>
      match socks w !! k with
      | Some x => if sk_on_connection x
                  then on_connection_update (sk_sessionId x) (sk_entry x) u w else w
      | None => w
      end
  | CredsUpdate k blob =>
      match socks w !! k with
      | Some x => if sk_on_creds x then on_creds_update (sk_sessionId x) blob w else w
      | None => w
      end
  | TimerFires t =>
      match timers w !! t with
      | Some (RenewTimer key token) => renew key token t w
      | Some (BackoffTimer sessionId s _) => backoff_callback sessionId s (clearTimer t w)
      | None => w
      end
  | StoreChanges d => set_db (fun _ => d) w
  | RedisAvailable budget => set_redis_budget budget w
  end.

Definition run (evs : list Event) (w : World) : World :=
  foldl (fun w ev => step ev w) w evs.

(** The identifiers that an event brings to the registry are ordinary: the
    one a caller passes, and the ones the restore scanner reads from the
    keys of the store.  Sockets and timers carry identifiers of earlier
    events. *)
Definition ordinary_event (ev : Event) (w : World) : bool :=
  match ev with
  | CallCreateSession sessionId _ => ordinary_id sessionId
  | CallGetSession sessionId => ordinary_id sessionId
  | CallLogoutSession sessionId => ordinary_id sessionId
  | CallRestoreAll =>
      forallb ordinary_id
        (collect_ids (keys_matching "baileys:*:creds" (db w))
           (collect_ids (keys_matching "sess:*:tokens" (db w)) []))
  | _ => true
  end.

Fixpoint ordinary_run (evs : list Event) (w : World) : bool :=
  match evs with
  | [] => true
  | ev :: evs' => ordinary_event ev w && ordinary_run evs' (step ev w)
  end.

End Program.

(** ** The base62 token generator *)

Definition ALPHABET62 : string :=
  "ABCDEFGHIJKLMNOPQRSTUVWXYZabcdefghijklmnopqrstuvwxyz0123456789".
Definition MASK_6BITS : N := 63.

(** [ALPHABET62[v]]; an index past the end reads [undefined]. *)
Definition alphabet_at (v : N) : string :=
  match String.get (N.to_nat v) ALPHABET62 with
  | Some c => String c ""
  | None => "undefined"
  end.

(** [Math.ceil(need * 1.6)].  The double [1.6] exceeds 8/5 by the factor
    1 + 2^-54, which is below half an ulp of any multiple of 8, so the
    product rounds to 8k when [need = 5k] and lies strictly between two
    integers otherwise: the ceiling is that of 8*need/5. *)
Definition buf_len (need : nat) : nat := ((need * 8 + 4) / 5)%nat.

(** [randomBytes(n)] when [pos] bytes of the source were drawn before. *)
Definition randomBytes (rnd : nat -> N) (pos n : nat) : list N :=
  map rnd (seq pos n).

(** The inner [for] loop over one buffer. *)
Fixpoint fill (buf : list N) (out : string) (length : nat) : string :=
  match buf with
  | [] => out
  | b :: buf' =>
    if (String.length out <? length)%nat then
      let v := N.land b MASK_6BITS in
      fill buf' (if (v <? 62)%N then out +:+ alphabet_at v else out) length
    else out
  end.

(** The outer [while] loop, cut off after [fuel] rounds. *)
Fixpoint genToken_from (fuel : nat) (rnd : nat -> N) (pos : nat) (out : string)
    (length : nat) : option string :=
  match fuel with
  | O => if (String.length out <? length)%nat then None else Some out
  | S fuel' =>
    if (String.length out <? length)%nat then
      let n := buf_len (length - String.length out) in
      genToken_from fuel' rnd (pos + n) (fill (randomBytes rnd pos n) out length) length
    else Some out
  end.

Definition genToken (fuel : nat) (rnd : nat -> N) (length : nat) : option string :=
  genToken_from fuel rnd 0 "" length.

Definition is_base62 (c : ascii) : bool :=
  let n := N_of_ascii c in
  ((65 <=? n) && (n <=? 90) || (97 <=? n) && (n <=? 122) || (48 <=? n) && (n <=? 57))%N.

Definition accepted (b : N) : bool := (N.land b MASK_6BITS <? 62)%N.

(** A random source that does not produce rejected bytes for ever. *)
Definition eventually_accepts (rnd : nat -> N) : Prop :=
  forall pos : nat, exists i : nat, (pos <= i)%nat /\ accepted (rnd i) = true.

(** * Predicates of the specification *)

(** ** Tokens *)

Definition alphabet_ok (n : nat) : bool :=
  match String.get n ALPHABET62 with
  | Some c => is_base62 c
  | None => false
  end.

Definition tok_ok (length : nat) (out : string) : Prop :=
  (String.length out <= length)%nat /\ str_forall is_base62 out = true.

(** ** The registry invariant *)

(** Every registered object carries a lock; object identities are below
    [fresh]; a pending reconnect timer is recorded, with the reconnecting
    flag set, both in the registered object of its session and in the
    object its callback closes over. *)
Record Inv (w : World) : Prop := mkInv {
  inv_lock : forall sid r, sessions w !! sid = Some r ->
    exists e, heap w !! r = Some e /\ is_Some (lock e);
  inv_fresh : forall r, is_Some (heap w !! r) -> (r < fresh w)%nat;
  inv_timer : forall t sid s d, timers w !! t = Some (BackoffTimer sid s d) ->
    (exists r e, sessions w !! sid = Some r /\ heap w !! r = Some e /\
                 backoffTimer e = Some t /\ reconnecting e = true) /\
    (exists e, heap w !! s = Some e /\ backoffTimer e = Some t /\ reconnecting e = true)
}.

(** No pending reconnect timer is recorded in object [s]. *)
Definition quiet (s : nat) (w : World) : Prop :=
  forall e t sid s' d, heap w !! s = Some e -> backoffTimer e = Some t ->
    reconnecting e = true -> timers w !! t <> Some (BackoffTimer sid s' d).

Definition same_core (w w' : World) : Prop :=
  sessions w' = sessions w /\ heap w' = heap w /\ timers w' = timers w /\ fresh w' = fresh w.

(** A write that leaves the timer record and the lock of the object alone. *)
Definition neutral (f : SessionEntry -> SessionEntry) : Prop :=
  forall e, backoffTimer (f e) = backoffTimer e /\ reconnecting (f e) = reconnecting e /\
            lock (f e) = lock e.

(** Objects are never dropped from the heap and keep their timer record. *)
Definition stable (w w' : World) : Prop :=
  forall s e, heap w !! s = Some e ->
    exists e', heap w' !! s = Some e' /\ backoffTimer e' = backoffTimer e.

Definition has_locked (sid : string) (w : World) : Prop :=
  exists r e, lookup_entry sid w = Some (r, e) /\ is_Some (lock e).

Definition torn_down (x : Sock) : Prop :=
  sk_on_connection x = false /\ sk_on_creds x = false /\ sk_logged_out x = true.

(** ** The restore scanner *)

(** Candidate and locked identifiers, as [restoreAllSessionsFromRedis]
    computes them from the store. *)
Definition candidates (d : gmap string Entry) : list string :=
  collect_ids (keys_matching "baileys:*:creds" d)
    (collect_ids (keys_matching "sess:*:tokens" d) []).










(** ** Glob patterns *)

(** A character that a Redis glob pattern reads as itself. *)
Definition glob_literal (c : ascii) : bool :=
  negb (Ascii.eqb c "*" || Ascii.eqb c "?" || Ascii.eqb c "[" || Ascii.eqb c "\").

(** The delays of the reconnect timers that are pending. *)
Definition pending_delays (w : World) : list Z :=
  omap (fun '(_, t) => match t with
                       | BackoffTimer _ _ d => Some d
                       | RenewTimer _ _ => None
                       end) (map_to_list (timers w)).

(** ** A concrete deployment: the defaults of [config/env.ts] *)

Definition demo_env : Env :=
  {| LOCK_TTL_MS := 10000; RECONNECT_MIN := 2000; RECONNECT_MAX := 30000; RETRIES := 2 |}.

(** Credentials are kept as their serialised text; a blob parses when it
    starts with a brace. *)
Definition demo_platform : Platform :=
  {| Creds := string;
     JSON_parse s := match s with String "{" _ => Some s | _ => None end;
     initAuthCreds n := "{}";
     randomUUID n := "uuid-" +:+ pretty n |}.

Definition timed_out : Update :=
  mkUpdate (Some close) (Some 408) (Some "Request Time-out") None None.
Definition opened : Update :=
  mkUpdate (Some open) None None None (Some "628123@s.whatsapp.net").
Definition logged_out : Update :=
  mkUpdate (Some close) (Some 401) (Some "Stream Errored (conflict)") None None.

Section Demo.
#[local] Existing Instance demo_env.
#[local] Existing Instance demo_platform.

(** One session created on an empty store: its socket is 2, its record 3. *)
Definition demo_created : World := run [CallCreateSession "s" false] empty_world.

(** Creation that lost the store between SET NX and GET. *)
Definition demo_half_created : World :=
  run [RedisAvailable (Some 1%nat); CallCreateSession "s" false; RedisAvailable None]
      empty_world.



Definition demo_glob_id : string := "a[b".
Definition demo_glob_store : World :=
  set_db (fun _ => {[ kCreds demo_glob_id := mkEntry (VStr "{paired}") None ]}) empty_world.

End Demo.

(** * The token store, the bearer middleware and the HTTP routes *)

(** ** More of the string library *)

Fixpoint str_filter (f : ascii -> bool) (s : string) : string :=
  match s with
  | EmptyString => EmptyString
  | String c s' => if f c then String c (str_filter f s') else str_filter f s'
  end.

Fixpoint str_map (f : ascii -> ascii) (s : string) : string :=
  match s with
  | EmptyString => EmptyString
  | String c s' => String (f c) (str_map f s')
  end.

Fixpoint str_exists (f : ascii -> bool) (s : string) : bool :=
  match s with
  | EmptyString => false
  | String c s' => f c || str_exists f s'
  end.

Fixpoint str_drop_while (f : ascii -> bool) (s : string) : string :=
  match s with
  | EmptyString => EmptyString
  | String c s' => if f c then str_drop_while f s' else s
  end.

(** [s.slice(n)] *)
Fixpoint str_drop (n : nat) (s : string) : string :=
  match n, s with
  | O, _ => s
  | S n', String _ s' => str_drop n' s'
  | S _, EmptyString => EmptyString
  end.

(** [s.startsWith(p)] *)
Definition starts_with (p s : string) : bool :=
  match strip_prefix p s with Some _ => true | None => false end.

Definition is_digit (c : ascii) : bool :=
  let n := N_of_ascii c in ((48 <=? n) && (n <=? 57))%N.

(** [/^\d+$/.test(s)] *)
Definition all_digits (s : string) : bool := str_nonempty s && str_forall is_digit s.

(** The value of an HTTP header reaches the program as a string of one
    character per byte (Latin-1).  Of the characters that [trim] removes,
    these are in that range: TAB, LF, VT, FF, CR, SP and NBSP. *)
Definition is_space_latin1 (c : ascii) : bool :=
  let n := N_of_ascii c in
  ((9 <=? n) && (n <=? 13) || (n =? 32) || (n =? 160))%N.

(** [s.trim()] on such a string. *)
Definition trim_latin1 (s : string) : string :=
  str_rev (str_drop_while is_space_latin1 (str_rev (str_drop_while is_space_latin1 s))).

(** The bytes that the Redis client sends for such a string: its UTF-8
    encoding. *)
Definition utf8_of_char (c : ascii) : string :=
  let n := N_of_ascii c in
  if (n <? 128)%N then String c EmptyString
  else String (ascii_of_N (192 + n / 64)) (String (ascii_of_N (128 + n mod 64)) EmptyString).

Fixpoint utf8_of_latin1 (s : string) : string :=
  match s with
  | EmptyString => EmptyString
  | String c s' => utf8_of_char c +:+ utf8_of_latin1 s'
  end.

(** ** Base64, as [Buffer.toString('base64')] *)

Definition BASE64 : string :=
  "ABCDEFGHIJKLMNOPQRSTUVWXYZabcdefghijklmnopqrstuvwxyz0123456789+/".

Definition base64_digit (v : N) : ascii :=
  match String.get (N.to_nat v) BASE64 with
  | Some c => c
  | None => "="%char
  end.

Fixpoint base64 (bytes : list N) : string :=
  match bytes with
  | [] => EmptyString
  | [a] =>
      String (base64_digit (N.shiftr a 2))
        (String (base64_digit (N.shiftl (N.land a 3) 4)) "==")
  | [a; b] =>
      String (base64_digit (N.shiftr a 2))
        (String (base64_digit (N.lor (N.shiftl (N.land a 3) 4) (N.shiftr b 4)))
           (String (base64_digit (N.shiftl (N.land b 15) 2)) "="))
  | a :: b :: c :: rest =>
      String (base64_digit (N.shiftr a 2))
        (String (base64_digit (N.lor (N.shiftl (N.land a 3) 4) (N.shiftr b 4)))
           (String (base64_digit (N.lor (N.shiftl (N.land b 15) 2) (N.shiftr c 6)))
              (String (base64_digit (N.land c 63)) (base64 rest))))
  end.

(** ** More Redis commands *)

(** A command of the token store reaches the server unless the connection
    has failed.  The history [cmds] is kept for the commands of the session
    layer; these commands are not entered in it. *)
Definition contact : M unit :=
  fun w => match redis_budget w with
           | None => (inr tt, w)
           | Some (S n) => (inr tt, set_redis_budget (Some n) w)
           | Some O => (inl connection_lost, w)
           end.

(** SADD key member; the reply is the number of members added. *)
Definition redis_sadd (k member : string) : M Z :=
  do_ contact;
  do e <- gets (fun w => db w !! k);
  match e with
  | None => do_ lift (set_db <[k := mkEntry (VSet {[ member ]}) None]>); ret 1
  | Some (mkEntry (VSet m) ttl) =>
      do_ lift (set_db <[k := mkEntry (VSet ({[ member ]} ∪ m)) ttl]>);
      ret (if bool_decide (member ∈ m) then 0 else 1)
  | Some (mkEntry (VStr _) _) => throw wrongtype
  end.

(** ** services/tokenStore.ts *)

(** The random source of [node:crypto]: its [i]-th byte. *)
Class Entropy := { random_byte : nat -> N }.

Section TokenStore.
Context `{Env} `{Platform} `{Entropy}.

(** [randomBytes(n)] *)
Definition draw_bytes (n : nat) : M (list N) :=
  fun w => (inr (map (fun i => N.land (random_byte (entropy w + i)) 255) (seq 0 n)),
            Nat.iter n bump_entropy w).

(** The three [replace] calls of [genToken]. *)
Definition base64url (bytes : list N) : string :=
  let b64 := base64 bytes in
  let minus := str_map (fun c => if Ascii.eqb c "+" then "-"%char else c) b64 in
  let under := str_map (fun c => if Ascii.eqb c "/" then "_"%char else c) minus in
  str_rev (str_drop_while (Ascii.eqb "=") (str_rev under)).

Definition genToken64 (bytes : nat) : M string :=
  do buf <- draw_bytes bytes;
  ret (base64url buf).

Definition createSessionTokenPair (sessionId : option string) : M (string * string) :=
  do id <- match sessionId with
           | Some id => ret id
           | None => draw_uuid
           end;
  do token <- genToken64 32;
  do_ redis_set (tokenKey token) id;
  do _added <- redis_sadd (sessSetKey id) token;
  ret (id, token).

Definition getSessionIdByToken (token : string) : M (option string) :=
  redis_get (tokenKey token).

End TokenStore.

(** ** utils/requireAuthToken.ts *)

(** [env.AUTH_TOKEN_LEN]; a length is compared with it, so only its
    integer part matters. *)
Class AuthConfig := { AUTH_TOKEN_LEN : nat }.

Inductive AuthError :=
| InputTooLong
| StoreFailed (e : JsError).

(** What [parseBearer] does: it throws, returns [null] or returns a token. *)
Inductive Bearer :=
| BearerThrows
| BearerNull
| BearerToken (token : string).

(** What the middleware does with a request: it answers it, hands it on
    with [req.sessionId] and [req.token] set, or its promise is rejected. *)
Inductive AuthOutcome :=
| AuthRespond (status : Z) (error : string)
| AuthNext (sessionId token : string)
| AuthRejects (e : AuthError).

Section Auth.
Context `{Env} `{Platform} `{AuthConfig}.

Definition parseBearer (auth : option string) : Bearer :=
  match auth with
  | None => BearerNull
  | Some a =>
    if negb (str_nonempty a) then BearerNull
    else if (AUTH_TOKEN_LEN <? String.length a)%nat then BearerThrows
    else if negb (starts_with "Bearer " a) then BearerNull
    else
      let token := trim_latin1 (str_drop 7 a) in
      if str_nonempty token then BearerToken token else BearerNull
  end.

(** [z.string().min(10).max(512)] *)
Definition TokenSchema (token : string) : bool :=
  (10 <=? String.length token)%nat && (String.length token <=? 512)%nat.

Definition requireAuthToken (auth : option string) (w : World) : AuthOutcome * World :=
  match parseBearer auth with
  | BearerThrows => (AuthRejects InputTooLong, w)
  | BearerNull => (AuthRespond 401 "Authorization: Bearer <token> wajib", w)
  | BearerToken token =>
    if negb (TokenSchema token) then (AuthRespond 400 "Token tidak valid", w)
    else
      match getSessionIdByToken (utf8_of_latin1 token) w with
      | (inl e, w') => (AuthRejects (StoreFailed e), w')
      | (inr sessionId, w') =>
        if truthy_str sessionId
        then (AuthNext (default "" sessionId) token, w')
        else (AuthRespond 401 "Token tidak dikenali", w')
      end
  end.

End Auth.

(** ** utils/sendHelpers.ts *)

Definition sanitizeNumber (raw : string) (countryCode : option string) : string :=
  let s := str_filter is_digit raw in
  if starts_with "0" s && truthy_str countryCode && all_digits (default "" countryCode)
  then default "" countryCode +:+ str_drop 1 s
  else s.

Definition toJid (num : string) : string :=
  if str_exists (Ascii.eqb "@") num then num else num +:+ "@s.whatsapp.net".

(** ** services/waSessions.ts: the cached QR *)

Definition getLastQR (sessionId : string) (w : World) : option string :=
  lookup_entry sessionId w ≫= (fun x => lastQr x.2).

(** ** services/waAuthRedis.ts: the signal key store *)

(** MGET: the value of each key, [nil] for a key that is absent or does
    not hold a string. *)
Definition redis_mget (keys : list string) : M (list (option string)) :=
  do_ contact;
  gets (fun w => map (fun k => match db w !! k with
                               | Some (mkEntry (VStr s) _) => Some s
                               | _ => None
                               end) keys).

(** The commands queued on a MULTI. *)
Inductive MultiOp :=
| MDel (k : string)
| MSet (k v : string).

Definition apply_op (d : gmap string Entry) (op : MultiOp) : gmap string Entry :=
  match op with
  | MDel k => delete k d
  | MSet k v => <[k := mkEntry (VStr v) None]> d
  end.

(** [multi.exec()]: the queued commands run in order, as one. *)
Definition redis_multi_exec (ops : list MultiOp) : M unit :=
  do_ contact;
  lift (set_db (fun d => foldl apply_op d ops)).

(** [JSON.parse(_, BufferJSON.reviver)] and
    [JSON.stringify(_, BufferJSON.replacer)] on signal data. *)
Class SignalCodec := {
  SigVal : Type;
  sig_parse : string -> option SigVal;
  sig_stringify : SigVal -> string
}.

Section KeyStore.
Context `{SignalCodec}.

(** [out[id] = value] on an object literal: the name [__proto__] is not
    stored as a property. *)
Definition obj_set (out : gmap string SigVal) (id : string) (v : SigVal)
  : gmap string SigVal :=
  if String.eqb id "__proto__" then out else <[id := v]> out.

(** The body of [ids.forEach((id, i) => ...)]. *)
Definition collect_value (out : gmap string SigVal) (p : string * option string)
  : gmap string SigVal :=
  if truthy_str p.2 then
    match sig_parse (default "" p.2) with
    | Some x => obj_set out p.1 x
    | None => out
    end
  else out.

(** [rawKeyStore.get(type, ids)] of the session [sessionId]. *)
Definition keys_get (sessionId type : string) (ids : list string)
  : M (gmap string SigVal) :=
  match ids with
  | [] => ret ∅
  | _ :: _ =>
    do vals <- redis_mget (map (keyOf sessionId type) ids);
    ret (foldl collect_value ∅ (zip ids vals))
  end.

(** The commands that [rawKeyStore.set(data)] queues: [data] is given as
    [Object.keys] enumerates it, a type with [None] being one whose entry
    is [undefined] or [null]. *)
Definition queue_type (sessionId : string)
    (entry : string * option (list (string * option SigVal))) : list MultiOp :=
  match entry.2 with
  | None => []
  | Some byId =>
      map (fun p => match p.2 with
                    | None => MDel (keyOf sessionId entry.1 p.1)
                    | Some v => MSet (keyOf sessionId entry.1 p.1) (sig_stringify v)
                    end) byId
  end.

Definition keys_set (sessionId : string)
    (data : list (string * option (list (string * option SigVal)))) : M unit :=
  redis_multi_exec (concat (map (queue_type sessionId) data)).

End KeyStore.

(** ** server.ts: the routes of the session life cycle *)

(** [err.message] *)
Definition err_message (e : JsError) : string :=
  match e with
  | ErrLocked sessionId => "Session " +:+ sessionId +:+ " is locked by another instance"
  | ErrRedis m => m
  end.

Inductive Body :=
| BodyError (error : string)
| BodyOk
| BodyCreated (id token : string)
| BodySession (id : string) (status : SessionStatus) (userJid : option string)
| BodyLogout.

(** A request is answered with a status and a JSON body, unless the
    promise of the middleware was rejected; what becomes of that request is
    up to Express. *)
Inductive Reply :=
| Replies (status : Z) (body : Body)
| MiddlewareRejected (e : AuthError).

Section Routes.
Context `{Env} `{Platform} `{Entropy} `{AuthConfig}.

(** The last [app.use]: the error handler. *)
Definition error_handler (e : JsError) (w : World) : Reply * World :=
  (Replies (default 500 (err_code e))
           (BodyError (if str_nonempty (err_message e) then err_message e
                       else "Internal Server Error")),
   add_log (mkLog LError "unhandled error" "") w).

(** A route behind [requireAuthToken]. *)
Definition with_auth (auth : option string)
    (handler : string -> World -> Reply * World) (w : World) : Reply * World :=
  match requireAuthToken auth w with
  | (AuthRespond status error, w') => (Replies status (BodyError error), w')
  | (AuthRejects e, w') => (MiddlewareRejected e, w')
  | (AuthNext sessionId _, w') => handler sessionId w'
  end.

(** GET /health *)
Definition route_health (auth : option string) : World -> Reply * World :=
  with_auth auth (fun _ w => (Replies 200 BodyOk, w)).

(** POST /session *)
Definition route_post_session (w : World) : Reply * World :=
  match (do p <- createSessionTokenPair None;
         do_ createSession p.1 false;
         do_ redis_set (tokenKey p.2) p.1;
         ret p) w with
  | (inr p, w') => (Replies 200 (BodyCreated p.1 p.2), w')
  | (inl e, w') => error_handler e w'
  end.

(** GET /session *)
Definition route_get_session (auth : option string) : World -> Reply * World :=
  with_auth auth (fun id w =>
    match getSession id w with
    | (None, w') => (Replies 404 (BodyError "Session tidak ditemukan"), w')
    | (Some s, w') =>
        let e := default empty_object (heap w' !! s) in
        (Replies 200 (BodySession id (status e) (userJid e)), w')
    end).

(** POST /logout *)
Definition route_logout (auth : option string) : World -> Reply * World :=
  with_auth auth (fun id w =>
    match logoutSession id w with
    | (inr _, w') => (Replies 200 BodyLogout, w')
    | (inl e, w') => error_handler e w'
    end).

End Routes.

(** * More predicates of the specification *)

(** ** Token alphabets *)

(** The characters of a base64url token. *)
Definition is_base64url (c : ascii) : bool :=
  is_base62 c || Ascii.eqb c "-" || Ascii.eqb c "_".

(** A character of the standard base64 alphabet. *)
Definition is_base64 (c : ascii) : bool :=
  is_base62 c || Ascii.eqb c "+" || Ascii.eqb c "/".

Definition digit_ok (v : N) : bool := is_base64 (base64_digit v).

Definition is_pad (c : ascii) : bool := Ascii.eqb "=" c.

(** The reading of a base64url text (RFC 4648, section 5, without
    padding), against which the generator is compared: the value of a
    character of the alphabet [A-Z a-z 0-9 - _], and the bytes that a text
    stands for, six bits a character, most significant first. *)
Definition url_value (c : ascii) : N :=
  let n := N_of_ascii c in
  (if (65 <=? n) && (n <=? 90) then n - 65
   else if (97 <=? n) && (n <=? 122) then n - 71
   else if (48 <=? n) && (n <=? 57) then n + 4
   else if n =? 45 then 62 else 63)%N.

Fixpoint base64url_decode (t : string) : list N :=
  match t with
  | String c1 (String c2 (String c3 (String c4 rest))) =>
      let '(s1, s2, s3, s4) := (url_value c1, url_value c2, url_value c3, url_value c4) in
      (s1 * 4 + s2 / 16) :: ((s2 mod 16) * 16 + s3 / 4) :: ((s3 mod 4) * 64 + s4)
        :: base64url_decode rest
  | String c1 (String c2 (String c3 EmptyString)) =>
      let '(s1, s2, s3) := (url_value c1, url_value c2, url_value c3) in
      [s1 * 4 + s2 / 16; (s2 mod 16) * 16 + s3 / 4]
  | String c1 (String c2 EmptyString) =>
      let '(s1, s2) := (url_value c1, url_value c2) in
      [s1 * 4 + s2 / 16]
  | _ => []
  end%N.

(** The two [replace] calls that map the alphabet. *)
Definition url_char (c : ascii) : ascii :=
  (fun c => if Ascii.eqb c "/" then "_"%char else c)
    ((fun c => if Ascii.eqb c "+" then "-"%char else c) c).

(** ** Store footprints *)

(** The store after an operation that at most took the lock of [sid]:
    it is as before, or the lock key was free and now holds a token with
    the configured time to live. *)
Definition took_lock `{Env} (sid : string) (d d' : gmap string Entry) : Prop :=
  d' = d \/
  (d !! lockKey sid = None /\
   exists token, d' = <[lockKey sid := mkEntry (VStr token) (Some LOCK_TTL_MS)]> d).

(** The store [d'] extends [d] by locks of sessions in [ids] only. *)
Definition only_locks_added `{Env} (ids : list string) (d d' : gmap string Entry) : Prop :=
  (forall k e, d !! k = Some e -> d' !! k = Some e) /\
  (forall k e, d !! k = None -> d' !! k = Some e ->
     exists id token, id ∈ ids /\ k = lockKey id /\
                      e = mkEntry (VStr token) (Some LOCK_TTL_MS)).

(** A key outside the lock namespace. *)
Definition not_a_lock (k : string) : Prop := forall x, k <> lockKey x.

(** ** What holds of every session object and timer *)

(** A configuration whose backoff bounds are in order. *)
Definition sane_backoff `{Env} : Prop := 0 < RECONNECT_MIN <= RECONNECT_MAX.

(** What holds of every session object: an open session has no cached QR,
    its backoff lies within the configured bounds, and its lock is on a key
    of the lock namespace. *)
Definition obj_ok `{Env} (e : SessionEntry) : Prop :=
  (status e = open -> lastQr e = None) /\
  (sane_backoff -> forall b, backoffMs e = Some b -> RECONNECT_MIN <= b <= RECONNECT_MAX) /\
  (forall l, lock e = Some l -> exists sid, lk_key l = lockKey sid).

Definition timer_ok `{Env} (t : Timer) : Prop :=
  match t with
  | BackoffTimer _ _ d => sane_backoff -> RECONNECT_MIN <= d <= RECONNECT_MAX
  | RenewTimer key _ => exists sid, key = lockKey sid
  end.

Record Tidy `{Env} (w : World) : Prop := mkTidy {
  tidy_heap : forall r e, heap w !! r = Some e -> obj_ok e;
  tidy_timers : forall t x, timers w !! t = Some x -> timer_ok x
}.

(** A write that leaves status, QR, backoff and lock of the object alone. *)
Definition plain (f : SessionEntry -> SessionEntry) : Prop :=
  forall e, status (f e) = status e /\ lastQr (f e) = lastQr e /\
            backoffMs (f e) = backoffMs e /\ lock (f e) = lock e.

(** ** The signal key store *)

(** The key that a queued command writes. *)
Definition op_key (op : MultiOp) : string :=
  match op with MDel k => k | MSet k _ => k end.

(** What a reader finds at a key after the command. *)
Definition op_entry (op : MultiOp) : option Entry :=
  match op with MDel _ => None | MSet _ v => Some (mkEntry (VStr v) None) end.

(** What [rawKeyStore.get] makes of the entry of a key. *)
Definition decode `{SignalCodec} (e : option Entry) : option SigVal :=
  match e with
  | Some (mkEntry (VStr s) _) => if str_nonempty s then sig_parse s else None
  | _ => None
  end.

(** What [redis.mget] returns for a key, read as [get] reads it. *)
Definition read_val `{SignalCodec} (v : option string) : option SigVal :=
  if truthy_str v then sig_parse (default "" v) else None.

(** ** More concrete instances *)

(** Bytes of a fixed sequence stand for the random source. *)
Definition demo_entropy : Entropy := {| random_byte i := N.of_nat (i * 37 + 11) |}.

Definition demo_auth : AuthConfig := {| AUTH_TOKEN_LEN := 100 |}.

(** Signal data kept as its serialised text; a text parses when it starts
    with a brace. *)
Definition demo_codec : SignalCodec :=
  {| SigVal := string;
     sig_parse s := match s with String "{" _ => Some s | _ => None end;
     sig_stringify v := v |}.

Definition demo_token : string := "MFV6n8TpDjNYfaLH7BE2W4Clyu8UOV6DqM3yFzxhhqs".

(** A store in which [demo_token] is a token of session ["s"]. *)
Definition demo_token_store : gmap string Entry :=
  {[ tokenKey demo_token := mkEntry (VStr "s") None;
     sessSetKey "s" := mkEntry (VSet {[ demo_token ]}) None;
     kCreds "t" := mkEntry (VStr "{t}") None ]}.

(** A store in which [demo_token] is a token of session ["s"] and the lock
    of that session is held by another process. *)
Definition demo_locked_store : gmap string Entry :=
  {[ tokenKey demo_token := mkEntry (VStr "s") None;
     lockKey "s" := mkEntry (VStr "other") (Some 10000) ]}.

Definition qr_shown : Update := mkUpdate None None None (Some "2@qr") None.

(** * Properties *)

Ltac munfold :=
  unfold bind, ret, throw, lift, lift_val, gets, try_catch, swallow in *.

(** ** The base62 generator *)

Lemma str_length_app (a b : string) :
  String.length (a +:+ b) = (String.length a + String.length b)%nat.
Proof. induction a as [|c a IH]; simpl; [done | by rewrite IH]. Qed.

Lemma str_forall_app (f : ascii -> bool) (a b : string) :
  str_forall f (a +:+ b) = str_forall f a && str_forall f b.
Proof. induction a as [|c a IH]; simpl; [done | by rewrite IH, andb_assoc]. Qed.

Lemma alphabet_checked : forallb alphabet_ok (seq 0 62) = true.
Proof. vm_compute. reflexivity. Qed.

Lemma alphabet_at_spec (v : N) :
  (v < 62)%N ->
  String.length (alphabet_at v) = 1%nat /\ str_forall is_base62 (alphabet_at v) = true.
Proof.
  intros Hv.
  assert (Hin : In (N.to_nat v) (seq 0 62)) by (apply in_seq; lia).
  pose proof (proj1 (forallb_forall _ _) alphabet_checked _ Hin) as Hok.
  unfold alphabet_ok in Hok. unfold alphabet_at.
  destruct (String.get (N.to_nat v) ALPHABET62) as [c|]; [|done].
  simpl. by rewrite Hok.
Qed.

Section Fill.
Variable length : nat.

Lemma fill_ok (buf : list N) (out : string) : tok_ok length out -> tok_ok length (fill buf out length).
Proof.
  revert out. induction buf as [|b buf IH]; intros out [Hlen Hcs]; simpl; [done|].
  destruct (Nat.ltb_spec (String.length out) length) as [Hlt|Hge]; [|done].
  apply IH. destruct (N.ltb_spec (N.land b MASK_6BITS) 62) as [Hv|Hv]; [|done].
  destruct (alphabet_at_spec _ Hv) as [H1 Hc].
  split; [rewrite str_length_app; lia | by rewrite str_forall_app, Hcs, Hc].
Qed.

Lemma fill_grows (buf : list N) (out : string) :
  (String.length out <= String.length (fill buf out length))%nat.
Proof.
  revert out. induction buf as [|b buf IH]; intros out; simpl; [done|].
  destruct (Nat.ltb_spec (String.length out) length) as [Hlt|Hge]; [|done].
  etransitivity; [|apply IH].
  destruct (N.ltb (N.land b MASK_6BITS) 62); [rewrite str_length_app|]; lia.
Qed.

Lemma fill_progress (buf : list N) (out : string) :
  (String.length out < length)%nat ->
  Exists (fun b => accepted b = true) buf ->
  (String.length out < String.length (fill buf out length))%nat.
Proof.
  revert out. induction buf as [|b buf IH]; intros out Hlt Hex; [by inversion Hex|].
  simpl. destruct (Nat.ltb_spec (String.length out) length) as [_|Hge]; [|lia].
  destruct (N.ltb_spec (N.land b MASK_6BITS) 62) as [Hv|Hv].
  - destruct (alphabet_at_spec _ Hv) as [H1 _].
    eapply Nat.lt_le_trans; [|apply fill_grows]. rewrite str_length_app. lia.
  - inversion Hex as [? ? Hb|? ? Hrest]; subst.
    + unfold accepted in Hb. apply N.ltb_lt in Hb. lia.
    + by apply IH.
Qed.

Lemma gen_partial (rnd : nat -> N) (fuel pos : nat) (out r : string) :
  tok_ok length out -> genToken_from fuel rnd pos out length = Some r ->
  String.length r = length /\ str_forall is_base62 r = true.
Proof.
  revert pos out. induction fuel as [|fuel IH]; intros pos out Hok; simpl;
    destruct (Nat.ltb_spec (String.length out) length) as [Hlt|Hge]; try done.
  - intros [= <-]. destruct Hok. split; [lia|done].
  - intros Hr. eapply IH; [|exact Hr]. by apply fill_ok.
  - intros [= <-]. destruct Hok. split; [lia|done].
Qed.

Lemma buf_len_pos (need : nat) : (0 < need)%nat -> (0 < buf_len need)%nat.
Proof.
  intros Hn. unfold buf_len. apply Nat.div_str_pos. lia.
Qed.

Lemma randomBytes_has (rnd : nat -> N) (pos n i : nat) :
  (pos <= i < pos + n)%nat -> accepted (rnd i) = true ->
  Exists (fun b => accepted b = true) (randomBytes rnd pos n).
Proof.
  intros Hi Hacc. apply Exists_exists. exists (rnd i). split; [|done].
  unfold randomBytes. apply list_elem_of_In, in_map, in_seq. lia.
Qed.

Lemma gen_total (rnd : nat -> N) :
  eventually_accepts rnd ->
  forall need pos out, (length - String.length out)%nat = need ->
  exists fuel r, genToken_from fuel rnd pos out length = Some r.
Proof.
  intros Hfair need. induction need as [need IHneed] using lt_wf_ind.
  assert (Hgap : forall d pos out i, (i - pos)%nat = d -> (pos <= i)%nat ->
            accepted (rnd i) = true ->
            (length - String.length out)%nat = need ->
            exists fuel r, genToken_from fuel rnd pos out length = Some r).
  { intros d. induction d as [d IHd] using lt_wf_ind.
    intros pos out i Hd Hle Hacc Hneed.
    destruct (Nat.ltb_spec (String.length out) length) as [Hlt|Hge].
    2:{ exists 0%nat, out. simpl. destruct (Nat.ltb_spec (String.length out) length); [lia|done]. }
    set (n := buf_len (length - String.length out)%nat).
    set (out' := fill (randomBytes rnd pos n) out length).
    assert (Hn : (0 < n)%nat) by (apply buf_len_pos; lia).
    assert (Hnext : exists fuel r, genToken_from fuel rnd (pos + n) out' length = Some r).
    { destruct (Nat.lt_ge_cases i (pos + n)) as [Hin|Hout].
      - assert (String.length out < String.length out')%nat
          by (apply fill_progress; [done | by apply (randomBytes_has rnd pos n i)]).
        apply (IHneed (length - String.length out')%nat); [lia | done].
      - pose proof (fill_grows (randomBytes rnd pos n) out) as Hg. fold out' in Hg.
        destruct (Nat.eq_dec (length - String.length out')%nat need) as [Heq|Hne].
        + apply (IHd (i - (pos + n))%nat) with (i := i); [lia | done | done | done | done].
        + apply (IHneed (length - String.length out')%nat); [lia | done]. }
    destruct Hnext as (fuel & r & Hr). exists (S fuel), r. simpl.
    destruct (Nat.ltb_spec (String.length out) length); [done | lia]. }
  intros pos out Hneed. destruct (Hfair pos) as (i & Hle & Hacc).
  by apply (Hgap (i - pos)%nat pos out i).
Qed.

End Fill.

(** C10.  [genToken] returns exactly [length] characters of [A-Za-z0-9].
    The loop ends, with a result, as soon as the random source stops
    producing rejected bytes (6-bit values 62 and 63), which a source that
    accepts infinitely often guarantees; and whatever number of rounds it
    took, the result has exactly the requested length and consists of
    base62 characters only. *)
Theorem genToken_base62 (rnd : nat -> N) (length : nat) :
  eventually_accepts rnd ->
  (exists fuel out, genToken fuel rnd length = Some out) /\
  (forall fuel out, genToken fuel rnd length = Some out ->
     String.length out = length /\ str_forall is_base62 out = true).
Proof.
  intros Hfair. split.
  - by apply (gen_total length rnd Hfair (length - 0)%nat 0%nat "").
  - intros fuel out Hout. eapply gen_partial; [|exact Hout].
    split; simpl; [lia | done].
Qed.

(** ** Locks and credential load *)

Section Properties.
Context `{Env} `{Platform}.

Lemma acquire_held (sessionId : string) (w : World) :
  redis_budget w = None -> is_Some (db w !! lockKey sessionId) ->
  acquireSessionLock sessionId w =
    (inr None,
     add_cmd (CSetNxPx (lockKey sessionId) (randomUUID (entropy w)) LOCK_TTL_MS)
       (bump_entropy w)).
Proof.
  intros Hup [e He]. unfold acquireSessionLock, draw_uuid, redis_set_px_nx, send.
  munfold. simpl. rewrite Hup. simpl. by rewrite He.
Qed.

Lemma acquire_free (sessionId : string) (w : World) :
  redis_budget w = None -> db w !! lockKey sessionId = None ->
  acquireSessionLock sessionId w =
    (inr (Some (mkLock (lockKey sessionId) (randomUUID (entropy w)) (fresh w))),
     bump_fresh
       (set_timers <[fresh w := RenewTimer (lockKey sessionId) (randomUUID (entropy w))]>
          (set_db <[lockKey sessionId :=
                     mkEntry (VStr (randomUUID (entropy w))) (Some LOCK_TTL_MS)]>
             (add_cmd (CSetNxPx (lockKey sessionId) (randomUUID (entropy w)) LOCK_TTL_MS)
                (bump_entropy w))))).
Proof.
  intros Hup He. unfold acquireSessionLock, draw_uuid, redis_set_px_nx, send, alloc_timer.
  munfold. simpl. rewrite Hup. simpl. by rewrite He.
Qed.


(** C2.  Renewal and release are check-and-act.  If the value stored at
    the lock key is not the caller's token (another holder's token, a value
    of another type, or no value at all), then neither the renewal callback
    nor [release] changes the store: no TTL is extended and no key is
    deleted.  This holds whether or not the store is reachable. *)
Theorem stale_token_noop (key token : string) (renewTimer : nat) (w : World) :
  (forall e, db w !! key = Some e -> e_val e <> VStr token) ->
  db (renew key token renewTimer w) = db w /\
  db (release (mkLock key token renewTimer) w) = db w.
Proof.
  intros Hstale.
  assert (Hne : forall v ttl, db w !! key = Some (mkEntry (VStr v) ttl) -> String.eqb v token = false).
  { intros v ttl Hv. apply String.eqb_neq. intros ->. by apply (Hstale _ Hv). }
  split.
  - unfold renew, redis_eval_renew, send. munfold. simpl.
    destruct (redis_budget w) as [[|n]|]; simpl; try done;
      destruct (db w !! key) as [[[v|m] ttl]|] eqn:He; simpl; try done;
      rewrite (Hne _ _ eq_refl); done.
  - unfold release, redis_eval_release, send. munfold. simpl.
    destruct (redis_budget w) as [[|n]|]; simpl; try done;
      destruct (db w !! key) as [[[v|m] ttl]|] eqn:He; simpl; try done;
      rewrite (Hne _ _ eq_refl); done.
Qed.

(** C6, amended.  Credential load never propagates corruption.  When the
    store answers and the credential blob is absent, or present but rejected
    by [JSON.parse], [useRedisAuth] returns (it does not raise) freshly
    initialised credentials and leaves the store as it was.  When a
    non-empty blob failed to parse and a logger was passed, exactly one
    warning is logged; when the blob is absent or empty, or no logger was
    passed, nothing is logged. *)
Theorem load_falls_back (sessionId : string) (logger : bool) (w : World) :
  redis_budget w = None ->
  (db w !! kCreds sessionId = None \/
   exists blob ttl, db w !! kCreds sessionId = Some (mkEntry (VStr blob) ttl) /\
                    JSON_parse blob = None) ->
  let r := useRedisAuth sessionId logger w in
  r.1 = inr (initAuthCreds (entropy w)) /\
  db r.2 = db w /\
  (forall blob ttl, db w !! kCreds sessionId = Some (mkEntry (VStr blob) ttl) ->
     blob <> "" -> logger = true ->
     logs r.2 = (logs w ++ [mkLog LWarn "Failed to parse creds JSON; reinitializing creds" sessionId])%list) /\
  ((db w !! kCreds sessionId = None \/
    (exists ttl, db w !! kCreds sessionId = Some (mkEntry (VStr "") ttl)) \/
    logger = false) ->
   logs r.2 = logs w).
Proof.
  intros Hup Hcase r. subst r.
  unfold useRedisAuth, redis_get, send, init_creds. munfold. simpl. rewrite Hup. simpl.
  destruct Hcase as [Habs | (blob & ttl & Hblob & Hbad)].
  - rewrite Habs. simpl. split_and!; done.
  - rewrite Hblob. simpl. destruct blob as [|c blob]; simpl.
    + split_and!; try done. by intros ? ? [= <- <-].
    + rewrite Hbad. simpl. destruct logger; (split_and!; [done | done | try done |]).
      * intros [?|[[? ?]| ?]]; done.
      * done.
Qed.

End Properties.

(** ** Preservation of the registry invariant: writes to objects *)

Lemma same_core_refl w : same_core w w.
Proof. by repeat split. Qed.

Lemma same_core_trans w1 w2 w3 : same_core w1 w2 -> same_core w2 w3 -> same_core w1 w3.
Proof. intros (?&?&?&?) (?&?&?&?). repeat split; congruence. Qed.

Lemma Inv_ext w w' : same_core w w' -> Inv w -> Inv w'.
Proof.
  intros (Hs & Hh & Ht & Hf) [I1 I2 I3]. split.
  - intros sid r. rewrite Hs, Hh. apply I1.
  - intros r. rewrite Hh, Hf. apply I2.
  - intros t sid s d. rewrite Hs, Hh, Ht. apply I3.
Qed.

Lemma quiet_weaken w w' s :
  heap w' = heap w ->
  (forall t sid s' d, timers w' !! t = Some (BackoffTimer sid s' d) ->
                      timers w !! t = Some (BackoffTimer sid s' d)) ->
  quiet s w -> quiet s w'.
Proof.
  intros Hh Ht Hq e t sid s' d He Hb Hc Hp. rewrite Hh in He.
  by apply (Hq e t sid s' d He Hb Hc), Ht.
Qed.

Lemma Inv_clearTimer t w : Inv w -> Inv (clearTimer t w).
Proof.
  intros [I1 I2 I3]. split; simpl; try done.
  intros t' sid s d Ht'. apply lookup_delete_Some in Ht' as [_ Ht']. by apply I3 in Ht'.
Qed.

Lemma Inv_alloc_renew key token w : Inv w -> Inv (alloc_timer (RenewTimer key token) w).2.
Proof.
  intros [I1 I2 I3]. split; simpl; try done.
  - intros r Hr. apply I2 in Hr. lia.
  - intros t sid s d Ht. apply lookup_insert_Some in Ht as [[_ [=]]|[_ Ht]]. by apply I3 in Ht.
Qed.

Lemma Inv_alloc_sock k w : Inv w -> Inv (alloc_sock k w).2.
Proof.
  intros [I1 I2 I3]. split; simpl; try done.
  intros r Hr. apply I2 in Hr. lia.
Qed.

Lemma Inv_upd_neutral s f w : neutral f -> Inv w -> Inv (upd s f w).
Proof.
  intros Hf [I1 I2 I3]. split; simpl.
  - intros sid r Hr. destruct (I1 _ _ Hr) as (e & He & Hl).
    rewrite lookup_alter. case_decide; subst.
    + rewrite He. simpl. eexists; split; [done|]. by rewrite (proj2 (proj2 (Hf e))).
    + eauto.
  - intros r Hr. apply I2. by apply lookup_alter_is_Some in Hr.
  - intros t sid s' d Ht. destruct (I3 _ _ _ _ Ht) as [(r & e & Hr & He & Hb & Hc) (e' & He' & Hb' & Hc')].
    split.
    + exists r. rewrite lookup_alter. case_decide; subst.
      * rewrite He. simpl. eexists. repeat split; try done.
        -- by rewrite (proj1 (Hf e)).
        -- by rewrite (proj1 (proj2 (Hf e))).
      * eauto.
    + rewrite lookup_alter. case_decide; subst.
      * rewrite He'. simpl. eexists. repeat split; try done.
        -- by rewrite (proj1 (Hf e')).
        -- by rewrite (proj1 (proj2 (Hf e'))).
      * eauto.
Qed.

Lemma Inv_upd_quiet s f w :
  (forall e, lock (f e) = lock e) -> quiet s w -> Inv w -> Inv (upd s f w).
Proof.
  intros Hf Hq [I1 I2 I3]. split; simpl.
  - intros sid r Hr. destruct (I1 _ _ Hr) as (e & He & Hl).
    rewrite lookup_alter. case_decide; subst.
    + rewrite He. simpl. eexists; split; [done|]. by rewrite Hf.
    + eauto.
  - intros r Hr. apply I2. by apply lookup_alter_is_Some in Hr.
  - intros t sid s' d Ht. destruct (I3 _ _ _ _ Ht) as [(r & e & Hr & He & Hb & Hc) (e' & He' & Hb' & Hc')].
    split.
    + exists r. rewrite lookup_alter. case_decide; subst.
      * by destruct (Hq _ _ _ _ _ He Hb Hc Ht).
      * eauto.
    + rewrite lookup_alter. case_decide; subst.
      * by destruct (Hq _ _ _ _ _ He' Hb' Hc' Ht).
      * eauto.
Qed.

Lemma quiet_cleared s e w :
  heap w !! s = Some e ->
  quiet s (match backoffTimer e with Some t => clearTimer t w | None => w end).
Proof.
  intros He e' t sid s' d. destruct (backoffTimer e) as [t0|] eqn:Hb; simpl.
  - rewrite He. intros [= <-] Ht _. rewrite Hb in Ht. injection Ht as <-.
    by rewrite lookup_delete_eq.
  - rewrite He. intros [= <-] Ht. congruence.
Qed.

Lemma quiet_missing s w : heap w !! s = None -> quiet s w.
Proof. intros Hs e t sid s' d He. congruence. Qed.

Lemma quiet_flag s e w : heap w !! s = Some e -> reconnecting e = false -> quiet s w.
Proof. intros He Hc e' t sid s' d He' _ Hc'. congruence. Qed.

Lemma quiet_handle s e w : heap w !! s = Some e -> backoffTimer e = None -> quiet s w.
Proof. intros He Hb e' t sid s' d He' Hb'. congruence. Qed.

Lemma quiet_upd s f w :
  (forall e, (backoffTimer (f e) = backoffTimer e /\ reconnecting (f e) = reconnecting e) \/
             backoffTimer (f e) = None \/ reconnecting (f e) = false) ->
  quiet s w -> quiet s (upd s f w).
Proof.
  intros Hf Hq e t sid s' d. simpl. rewrite lookup_alter_eq.
  destruct (heap w !! s) as [e0|] eqn:He0; simpl; [|done].
  intros [= <-] Hb Hc. destruct (Hf e0) as [[Hk1 Hk2]|[Hk|Hk]].
  - rewrite Hk1 in Hb. rewrite Hk2 in Hc. by apply (Hq e0).
  - congruence.
  - congruence.
Qed.

(** Registering a new object for [sid] that copies the timer record of
    the one it replaces. *)
Lemma Inv_register sid obj w :
  is_Some (lock obj) ->
  (forall r e, sessions w !! sid = Some r -> heap w !! r = Some e ->
     backoffTimer obj = backoffTimer e /\ reconnecting obj = reconnecting e) ->
  Inv w -> Inv (set_sessions <[sid := fresh w]> (alloc_obj obj w).2).
Proof.
  intros Hl Hcopy [I1 I2 I3].
  assert (Hfresh : heap w !! fresh w = None).
  { destruct (heap w !! fresh w) eqn:Hx; [|done]. assert (fresh w < fresh w)%nat; [|lia].
    apply I2. eauto. }
  split; simpl.
  - intros sid' r Hr. apply lookup_insert_Some in Hr as [[<- <-]|[Hne Hr]].
    + rewrite lookup_insert_eq. eauto.
    + destruct (I1 _ _ Hr) as (e & He & Hle). exists e. split; [|done].
      rewrite lookup_insert_ne; [done|]. intros <-. congruence.
  - intros r Hr. apply lookup_insert_is_Some in Hr as [<-|[_ Hr]]; [lia|].
    apply I2 in Hr. lia.
  - intros t sid' s d Ht.
    destruct (I3 _ _ _ _ Ht) as [(r & e & Hr & He & Hb & Hc) (e' & He' & Hb' & Hc')].
    split.
    + destruct (decide (sid = sid')) as [<-|Hne].
      * exists (fresh w), obj. rewrite !lookup_insert_eq.
        destruct (Hcopy _ _ Hr He) as [H1 H2]. repeat split; congruence.
      * exists r, e. rewrite lookup_insert_ne by done. repeat split; try done.
        rewrite lookup_insert_ne; [done|]. intros <-. congruence.
    + exists e'. repeat split; try done.
      rewrite lookup_insert_ne; [done|]. intros <-. congruence.
Qed.

Lemma Inv_unregister sid w :
  (forall r, sessions w !! sid = Some r -> quiet r w) ->
  Inv w -> Inv (set_sessions (delete sid) w).
Proof.
  intros Hq [I1 I2 I3]. split; simpl; try done.
  - intros sid' r Hr. apply lookup_delete_Some in Hr as [_ Hr]. eauto.
  - intros t sid' s d Ht.
    destruct (I3 _ _ _ _ Ht) as [(r & e & Hr & He & Hb & Hc) HL]. split; [|done].
    exists r, e. repeat split; try done. rewrite lookup_delete_ne; [done|].
    intros <-. by destruct (Hq _ Hr _ _ _ _ _ He Hb Hc Ht).
Qed.

(** ** Store commands leave the process-local state alone *)

Ltac core_frame :=
  intros; munfold; unfold send; simpl;
  repeat case_match; simplify_eq; unfold same_core; simpl; repeat split.

Lemma send_core c w : same_core w (send c w).2.
Proof. unfold send. core_frame. Qed.
Lemma redis_get_core k w : same_core w (redis_get k w).2.
Proof. unfold redis_get. core_frame. Qed.
Lemma redis_set_core k v w : same_core w (redis_set k v w).2.
Proof. unfold redis_set. core_frame. Qed.
Lemma redis_set_px_nx_core k v ttl w : same_core w (redis_set_px_nx k v ttl w).2.
Proof. unfold redis_set_px_nx. core_frame. Qed.
Lemma redis_eval_renew_core k v ttl w : same_core w (redis_eval_renew k v ttl w).2.
Proof. unfold redis_eval_renew. core_frame. Qed.
Lemma redis_eval_release_core k v w : same_core w (redis_eval_release k v w).2.
Proof. unfold redis_eval_release. core_frame. Qed.
Lemma redis_smembers_core k w : same_core w (redis_smembers k w).2.
Proof. unfold redis_smembers. core_frame. Qed.
Lemma redis_scan_all_core p w : same_core w (redis_scan_all p w).2.
Proof. unfold redis_scan_all. core_frame. Qed.
Lemma pipeline_exec_core ops w : same_core w (pipeline_exec ops w).2.
Proof. unfold pipeline_exec. core_frame. Qed.

Lemma bind_core {A B} (m : M A) (k : A -> M B) w :
  (forall w, same_core w (m w).2) -> (forall a w, same_core w (k a w).2) ->
  same_core w (bind m k w).2.
Proof.
  intros Hm Hk. unfold bind. specialize (Hm w). destruct (m w) as [[e|a] w1]; simpl in *; [done|].
  eapply same_core_trans; [exact Hm | apply Hk].
Qed.

Section Frames.
Context `{Env} `{Platform}.

Lemma useRedisAuth_core sid logger w : same_core w (useRedisAuth sid logger w).2.
Proof.
  unfold useRedisAuth. apply bind_core; [apply redis_get_core|].
  intros a w'. unfold init_creds. destruct logger; core_frame.
Qed.

Lemma deleteRedisAuth_core sid w : same_core w (deleteRedisAuth sid w).2.
Proof.
  unfold deleteRedisAuth. apply bind_core; [apply redis_smembers_core|].
  intros tokens w1. apply bind_core; [apply redis_scan_all_core|].
  intros keys w2. apply pipeline_exec_core.
Qed.

Lemma saveCreds_core sid blob w : same_core w (saveCreds sid blob w).2.
Proof. apply redis_set_core. Qed.

Lemma release_core l w :
  sessions (release l w) = sessions w /\ heap (release l w) = heap w /\
  timers (release l w) = delete (lk_renewTimer l) (timers w) /\
  fresh (release l w) = fresh w /\ socks (release l w) = socks w.
Proof.
  unfold release, redis_eval_release, send. munfold. simpl.
  repeat case_match; simplify_eq; simpl; done.
Qed.

Lemma Inv_release l w : Inv w -> Inv (release l w).
Proof.
  intros HI. destruct (release_core l w) as (Hs & Hh & Ht & Hf & _).
  eapply Inv_ext; [|apply (Inv_clearTimer (lk_renewTimer l)), HI].
  by repeat split.
Qed.

Lemma Inv_renew key token t w : Inv w -> Inv (renew key token t w).
Proof.
  intros HI. unfold renew, swallow, bind.
  pose proof (redis_eval_renew_core key token LOCK_TTL_MS w) as Hc.
  destruct (redis_eval_renew key token LOCK_TTL_MS w) as [[e|res] w1]; simpl in *.
  - by eapply Inv_ext.
  - destruct (res =? 0); simpl.
    + apply Inv_clearTimer. by eapply Inv_ext.
    + by eapply Inv_ext.
Qed.

End Frames.

(** ** [createSession] *)

Lemma stable_refl w : stable w w.
Proof. intros s e He. eauto. Qed.

Lemma stable_trans w1 w2 w3 : stable w1 w2 -> stable w2 w3 -> stable w1 w3.
Proof.
  intros H12 H23 s e He. destruct (H12 _ _ He) as (e2 & He2 & Hb2).
  destruct (H23 _ _ He2) as (e3 & He3 & Hb3). exists e3. split; [done | congruence].
Qed.

Lemma stable_core w w' : same_core w w' -> stable w w'.
Proof. intros (_ & Hh & _) s e He. rewrite Hh. eauto. Qed.

Lemma stable_upd s f w : (forall e, backoffTimer (f e) = backoffTimer e) -> stable w (upd s f w).
Proof.
  intros Hf s' e He. simpl. rewrite lookup_alter. case_decide; subst.
  - rewrite He. simpl. eauto.
  - eauto.
Qed.

Lemma stable_alloc obj w : Inv w -> stable w (alloc_obj obj w).2.
Proof.
  intros HI s e He. simpl. exists e. split; [|done].
  rewrite lookup_insert_ne; [done|]. intros <-.
  assert (fresh w < fresh w)%nat; [|lia]. apply (inv_fresh _ HI). eauto.
Qed.

Lemma lookup_entry_Some sid w r e :
  lookup_entry sid w = Some (r, e) <-> sessions w !! sid = Some r /\ heap w !! r = Some e.
Proof.
  unfold lookup_entry. split.
  - intros Hx. destruct (sessions w !! sid) as [r'|]; simpl in Hx; [|done].
    destruct (heap w !! r') as [e'|] eqn:Hh; simpl in Hx; [|done]. by simplify_eq.
  - intros [-> Hh]. simpl. by rewrite Hh.
Qed.

Lemma lookup_entry_core sid w w' : same_core w w' -> lookup_entry sid w' = lookup_entry sid w.
Proof. intros (Hs & Hh & _). unfold lookup_entry. by rewrite Hs, Hh. Qed.

Arguments install_socket : simpl never.
Arguments ensure_lock : simpl never.
Arguments detach_old : simpl never.
Arguments useRedisAuth : simpl never.
Arguments deleteRedisAuth : simpl never.
Arguments acquireSessionLock : simpl never.
Arguments createSession : simpl never.
Arguments release : simpl never.
Arguments renew : simpl never.

Section Sessions.
Context `{Env} `{Platform}.

Lemma acquire_same sid w :
  sessions (acquireSessionLock sid w).2 = sessions w /\
  heap (acquireSessionLock sid w).2 = heap w.
Proof.
  unfold acquireSessionLock, draw_uuid, redis_set_px_nx, send, alloc_timer. munfold. simpl.
  repeat case_match; simplify_eq; simpl; done.
Qed.

Lemma Inv_acquire sid w : Inv w -> Inv (acquireSessionLock sid w).2.
Proof.
  intros HI. unfold acquireSessionLock, draw_uuid, bind.
  set (w0 := bump_entropy w).
  assert (HI0 : Inv w0) by (eapply Inv_ext; [|exact HI]; by repeat split).
  pose proof (redis_set_px_nx_core (lockKey sid) (randomUUID (entropy w)) LOCK_TTL_MS w0) as Hc.
  simpl. destruct (redis_set_px_nx _ _ _ w0) as [[e|ok] w1]; simpl in *.
  - eapply Inv_ext; [exact Hc | exact HI0].
  - destruct ok; simpl; munfold; simpl.
    + apply (Inv_alloc_renew (lockKey sid) (randomUUID (entropy w)) w1).
      eapply Inv_ext; [exact Hc | exact HI0].
    + eapply Inv_ext; [exact Hc | exact HI0].
Qed.

Lemma ensure_lock_spec sid w :
  Inv w ->
  let r := ensure_lock sid (lookup_entry sid w) w in
  Inv r.2 /\ stable w r.2 /\ (r.1 = inr tt -> has_locked sid r.2).
Proof.
  intros HI. unfold ensure_lock.
  destruct (lookup_entry sid w ≫= (fun x => lock x.2)) as [lk|] eqn:Hlk; simpl.
  - unfold ret. simpl. split_and!; [done | apply stable_refl |]. intros _.
    destruct (lookup_entry sid w) as [[r e]|] eqn:Hex; [|done]. simpl in Hlk.
    exists r, e. split; [done|]. by rewrite Hlk.
  - unfold bind.
    pose proof (Inv_acquire sid w HI) as HI1. pose proof (acquire_same sid w) as [Hs Hh].
    destruct (acquireSessionLock sid w) as [[e|[lk|]] w1]; simpl in *.
    + split_and!; [done | | done]. intros s e' He'. rewrite Hh. eauto.
    + munfold. simpl.
      set (obj := match lookup_entry sid w with
                  | Some (_, e) => with_lock (Some lk) e
                  | None => mkEntryObj None connecting None None false None None (Some lk)
                  end).
      assert (Hobj : is_Some (lock obj)) by (subst obj; destruct (lookup_entry sid w) as [[? ?]|]; simpl; eauto).
      split_and!.
      * apply (Inv_register sid obj w1); [done | | done].
        intros r e Hr He. rewrite Hs in Hr. rewrite Hh in He.
        assert (Hex : lookup_entry sid w = Some (r, e)) by (by apply lookup_entry_Some).
        subst obj. rewrite Hex. done.
      * eapply stable_trans; [|apply (stable_alloc obj w1 HI1)].
        intros s e' He'. rewrite Hh. eauto.
      * intros _. exists (fresh w1), obj. split; [|done].
        apply lookup_entry_Some. simpl. by rewrite !lookup_insert_eq.
    + munfold. split_and!; [done | | done]. intros s e' He'. rewrite Hh. eauto.
Qed.

Lemma has_locked_upd_sock sid r w : has_locked sid w -> has_locked sid (upd r (with_sock None) w).
Proof.
  intros (r0 & e0 & Hex & Hl). apply lookup_entry_Some in Hex as [Hs Hh].
  destruct (decide (r = r0)) as [->|Hne].
  - exists r0, (with_sock None e0). split; [|done]. apply lookup_entry_Some. simpl.
    by rewrite lookup_alter_eq, Hh.
  - exists r0, e0. split; [|done]. apply lookup_entry_Some. simpl.
    by rewrite lookup_alter_ne.
Qed.

Lemma detach_old_spec sid force existing w :
  Inv w ->
  let r := detach_old sid force existing w in
  Inv r.2 /\ stable w r.2 /\ (has_locked sid w -> has_locked sid r.2).
Proof.
  intros HI. unfold detach_old. destruct force; [|by split_and!; try apply stable_refl].
  destruct (existing ≫= (fun x => sock x.2)) as [k|]; [|by split_and!; try apply stable_refl].
  munfold. simpl. destruct (sessions w !! sid) as [r|] eqn:Hr.
  - split_and!.
    + apply Inv_upd_neutral; [done|]. eapply Inv_ext; [|exact HI]. by split_and!.
    + intros s e He. simpl. rewrite lookup_alter. case_decide; subst.
      * rewrite He. simpl. eauto.
      * eauto.
    + intros Hl. apply (has_locked_upd_sock sid r (removeAllListeners k w)).
      destruct Hl as (r0 & e0 & Hex & Hl). exists r0, e0. split; [|done].
      rewrite <- Hex. apply lookup_entry_core. by split_and!.
  - split_and!.
    + eapply Inv_ext; [|exact HI]. by split_and!.
    + apply stable_core. by split_and!.
    + intros (r0 & e0 & Hex & Hl). exists r0, e0. split; [|done].
      rewrite <- Hex. apply lookup_entry_core. by split_and!.
Qed.

Lemma install_socket_spec sid w :
  Inv w -> has_locked sid w ->
  let r := install_socket sid w in
  Inv r.2 /\ stable w r.2 /\ (exists entry, r.1 = inr entry /\ sessions r.2 !! sid = Some entry) /\
  has_locked sid r.2.
Proof.
  intros HI (r0 & e0 & Hex & Hl). unfold install_socket. munfold. simpl.
  set (k := mkSock sid 0 false false false).
  set (w1 := (alloc_sock k w).2).
  assert (HI1 : Inv w1) by (by apply Inv_alloc_sock).
  assert (Hex1 : lookup_entry sid w1 = Some (r0, e0)) by (by subst w1; simpl).
  unfold w1 in Hex1. simpl in Hex1. unfold lookup_entry in Hex, Hex1 |- *. simpl.
  rewrite Hex. simpl.
  set (obj := with_status connecting (with_sock (Some (fresh w)) e0)).
  apply lookup_entry_Some in Hex as [Hs Hh].
  pose proof (Inv_register sid obj w1) as Hreg. 
  split_and!.
  - eapply Inv_ext; [|apply Hreg; [done| |done]].
    + by split_and!.
    + intros r e Hr He. simpl in Hr, He. by simplify_eq.
  - intros s e He. simpl. exists e. split; [|done].
    rewrite lookup_insert_ne; [done|]. intros <-.
    assert (S (fresh w) < fresh w)%nat; [|lia]. apply (inv_fresh _ HI). eauto.
  - eexists. split; [done|]. simpl. by rewrite lookup_insert_eq.
  - exists (S (fresh w)), obj. split; [|done]. apply lookup_entry_Some. simpl.
    by rewrite !lookup_insert_eq.
Qed.

Lemma createSession_unfold sid force w :
  createSession sid force w =
  match returns_existing (lookup_entry sid w) force with
  | Some r => (inr r, w)
  | None =>
    match ensure_lock sid (lookup_entry sid w) w with
    | (inl e, w1) => (inl e, w1)
    | (inr _, w1) =>
      match detach_old sid force (lookup_entry sid w) w1 with
      | (inl e, w2) => (inl e, w2)
      | (inr _, w2) =>
        match useRedisAuth sid true w2 with
        | (inl e, w3) => (inl e, w3)
        | (inr _, w3) => install_socket sid w3
        end
      end
    end
  end.
Proof.
  unfold createSession, bind, gets, ret. simpl.
  destruct (returns_existing (lookup_entry sid w) force); reflexivity.
Qed.

Lemma detach_old_ok sid force existing w : exists w', detach_old sid force existing w = (inr tt, w').
Proof.
  unfold detach_old. destruct force; [|by eexists].
  destruct (existing ≫= (fun x => sock x.2)); munfold; simpl; by eexists.
Qed.

Lemma ensure_lock_sessions sid existing w :
  is_Some (sessions w !! sid) -> is_Some (sessions (ensure_lock sid existing w).2 !! sid).
Proof.
  intros Hs. unfold ensure_lock. case_match; [done|]. unfold bind.
  pose proof (acquire_same sid w) as [Hs1 _].
  destruct (acquireSessionLock sid w) as [[e'|[lk|]] w']; simpl in *.
  - by rewrite Hs1.
  - munfold. simpl. rewrite lookup_insert_eq. eauto.
  - munfold. simpl. by rewrite Hs1.
Qed.

Lemma createSession_spec sid force w :
  Inv w ->
  let r := createSession sid force w in
  Inv r.2 /\ stable w r.2 /\ (is_Some (sessions w !! sid) -> is_Some (sessions r.2 !! sid)) /\
  (forall entry, r.1 = inr entry -> sessions r.2 !! sid = Some entry).
Proof.
  intros HI. cbv zeta. rewrite createSession_unfold.
  destruct (returns_existing (lookup_entry sid w) force) as [r0|] eqn:Hret.
  { cbn [fst snd]. split_and!; [done | apply stable_refl | done |].
    intros entry [= <-]. unfold returns_existing in Hret.
    destruct (lookup_entry sid w) as [[r e]|] eqn:Hex; [|done].
    apply lookup_entry_Some in Hex as [Hs _]. by case_match; simplify_eq. }
  pose proof (ensure_lock_spec sid w HI) as (HI1 & Hst1 & Hl1).
  pose proof (ensure_lock_sessions sid (lookup_entry sid w) w) as Hs1.
  destruct (ensure_lock sid (lookup_entry sid w) w) as [[e|[]] w1] eqn:Hens; cbn [fst snd] in *.
  { split_and!; done. }
  specialize (Hl1 eq_refl).
  pose proof (detach_old_spec sid force (lookup_entry sid w) w1 HI1) as (HI2 & Hst2 & Hl2).
  destruct (detach_old_ok sid force (lookup_entry sid w) w1) as [w2 Hdet].
  rewrite Hdet in *. cbn [fst snd] in *.
  specialize (Hl2 Hl1).
  pose proof (useRedisAuth_core sid true w2) as Hc.
  assert (Hreg2 : is_Some (sessions w2 !! sid)).
  { destruct Hl2 as (r & e' & Hex & _). apply lookup_entry_Some in Hex as [Hs _]. eauto. }
  destruct (useRedisAuth sid true w2) as [[e|creds] w3] eqn:Hload; cbn [fst snd] in *.
  { split_and!.
    - by eapply Inv_ext.
    - eapply stable_trans; [exact Hst1|]. eapply stable_trans; [exact Hst2|]. by apply stable_core.
    - intros _. destruct Hc as (Hs3 & _). by rewrite Hs3.
    - done. }
  assert (HI3 : Inv w3) by (by eapply Inv_ext).
  assert (Hl3 : has_locked sid w3).
  { destruct Hl2 as (r & e' & Hex & Hl). exists r, e'. split; [|done].
    by rewrite (lookup_entry_core sid w2 w3). }
  pose proof (install_socket_spec sid w3 HI3 Hl3) as Hspec.
  remember (install_socket sid w3) as res eqn:Hres. clear Hres.
  destruct res as [res w4]. cbn [fst snd] in Hspec |- *.
  destruct Hspec as (HI4 & Hst4 & (entry & Hentry & Hreg) & _).
  split_and!.
  - done.
  - eapply stable_trans; [exact Hst1|]. eapply stable_trans; [exact Hst2|].
    eapply stable_trans; [apply stable_core, Hc | exact Hst4].
  - eauto.
  - intros entry' Heq. rewrite Hentry in Heq. by simplify_eq.
Qed.

End Sessions.

(** ** Every event preserves the invariant *)

Section Lifecycle.
Context `{Env} `{Platform}.

Lemma Inv_resetBackoff s w : Inv w -> Inv (resetBackoff s w).
Proof.
  intros HI. unfold resetBackoff.
  set (w1 := upd s (with_backoffMs (Some RECONNECT_MIN)) w).
  assert (HI1 : Inv w1) by (by apply Inv_upd_neutral).
  destruct (heap w1 !! s) as [e1|] eqn:He1; simpl.
  2:{ apply Inv_upd_quiet; [done | by apply quiet_missing | done]. }
  destruct (backoffTimer e1) as [t|] eqn:Hb.
  - pose proof (quiet_cleared s e1 w1 He1) as Hq. rewrite Hb in Hq.
    apply Inv_upd_quiet; [done | | ].
    + apply quiet_upd; [|done]. intros e. right. by left.
    + apply Inv_upd_quiet; [done | done | by apply Inv_clearTimer].
  - apply Inv_upd_quiet; [done | by eapply quiet_handle | done].
Qed.

Lemma Inv_arm sid s e d l w :
  Inv w -> sessions w !! sid = Some s -> heap w !! s = Some e -> reconnecting e = false ->
  Inv (upd s (with_backoffTimer (Some (fresh w)))
         (alloc_timer (BackoffTimer sid s d)
            (add_log l (upd s (fun x => with_backoffMs (Some d) (with_reconnecting true x)) w))).2).
Proof.
  intros [I1 I2 I3] Hs He Hc. split; simpl.
  - intros sid' r Hr. destruct (I1 _ _ Hr) as (e' & He' & Hl).
    destruct (decide (s = r)) as [->|Hsr].
    + rewrite !lookup_alter_eq, He'. simpl. eauto.
    + rewrite !lookup_alter_ne by done. eauto.
  - intros r Hr. rewrite !lookup_alter_is_Some in Hr. apply I2 in Hr. lia.
  - intros t sid' s' d' Ht. apply lookup_insert_Some in Ht as [[<- Heq]|[Hne Ht]].
    + injection Heq as <- <- <-. split.
      * exists s. rewrite !lookup_alter_eq, He. simpl. eauto.
      * rewrite !lookup_alter_eq, He. simpl. eauto.
    + destruct (I3 _ _ _ _ Ht) as [(r & e1 & Hr & He1 & Hb1 & Hc1) (e2 & He2 & Hb2 & Hc2)].
      split.
      * exists r, e1. destruct (decide (s = r)) as [->|Hsr]; [congruence|].
        rewrite !lookup_alter_ne by done. done.
      * exists e2. destruct (decide (s = s')) as [->|Hsr]; [congruence|].
        rewrite !lookup_alter_ne by done. done.
Qed.

Lemma Inv_scheduleReconnect sid reason w : Inv w -> Inv (scheduleReconnect sid reason w).
Proof.
  intros HI. unfold scheduleReconnect.
  destruct (lookup_entry sid w) as [[s e]|] eqn:Hex; [|done].
  apply lookup_entry_Some in Hex as [Hs He].
  destruct (reconnecting e) eqn:Hc; [done|].
  exact (Inv_arm sid s e (next_backoff (backoffMs e))
           (mkLog LWarn "scheduleReconnect" sid) w HI Hs He Hc).
Qed.

Lemma Inv_getSession sid w :
  Inv w ->
  Inv (getSession sid w).2 /\
  forall s, (getSession sid w).1 = Some s -> sessions (getSession sid w).2 !! sid = Some s.
Proof.
  intros HI. unfold getSession. destruct (sessions w !! sid) as [s|] eqn:Hs; simpl.
  - split; [done|]. by intros s' [= <-].
  - pose proof (createSession_spec sid false w HI) as (HI1 & _ & _ & Hreg).
    destruct (createSession sid false w) as [[e|r] w1]; cbn [fst snd] in *.
    + split; [|done]. eapply Inv_ext; [|exact HI1]. by repeat split.
    + split; [done|]. intros s [= <-]. by apply Hreg.
Qed.

Lemma Inv_teardown sid s w :
  Inv w -> sessions w !! sid = Some s -> Inv (teardown sid s w).
Proof.
  intros HI Hs. destruct (inv_lock _ HI _ _ Hs) as (e & He & Hl).
  unfold teardown. rewrite He. simpl.
  set (w1 := match backoffTimer e with Some t => clearTimer t w | None => w end).
  assert (HI1 : Inv w1) by (subst w1; destruct (backoffTimer e); [by apply Inv_clearTimer | done]).
  assert (Hq1 : quiet s w1) by (by apply quiet_cleared).
  assert (Hh1 : heap w1 = heap w) by (subst w1; by destruct (backoffTimer e)).
  assert (Hs1 : sessions w1 = sessions w) by (subst w1; by destruct (backoffTimer e)).
  set (w2 := upd s (with_reconnecting false) w1).
  assert (HI2 : Inv w2) by (by apply Inv_upd_quiet).
  assert (Hq2 : quiet s w2) by (apply quiet_upd; [|done]; intros x; right; by right).
  set (w3 := match sock e with Some k => removeAllListeners k w2 | None => w2 end).
  set (w4 := match sock e with Some k => sock_logout k w3 | None => w3 end).
  assert (Hc4 : same_core w2 w4) by (subst w3 w4; destruct (sock e); by repeat split).
  assert (HI4 : Inv w4) by (by eapply Inv_ext).
  assert (Hq4 : quiet s w4).
  { destruct Hc4 as (_ & Hh & Ht & _). eapply quiet_weaken; [exact Hh | | exact Hq2].
    intros ? ? ? ?. by rewrite Ht. }
  set (w5 := match lock e with Some l => release l w4 | None => w4 end).
  assert (HI5 : Inv w5) by (subst w5; destruct (lock e); [by apply Inv_release | done]).
  assert (Hq5 : quiet s w5).
  { subst w5. destruct (lock e) as [l|]; [|done].
    destruct (release_core l w4) as (_ & Hh & Ht & _).
    eapply quiet_weaken; [exact Hh | | exact Hq4].
    intros t sid' s' d. rewrite Ht. intros Hx. by apply lookup_delete_Some in Hx as [_ Hx]. }
  assert (Hs5 : sessions w5 = sessions w).
  { subst w5. transitivity (sessions w4).
    - destruct (lock e) as [l|]; [|done]. by destruct (release_core l w4) as (-> & _).
    - destruct Hc4 as (-> & _). by subst w2. }
  apply Inv_unregister; [|done]. intros r Hr. rewrite Hs5 in Hr. by simplify_eq.
Qed.

Lemma Inv_logoutSession sid w : Inv w -> Inv (logoutSession sid w).2.
Proof.
  intros HI. unfold logoutSession. munfold.
  pose proof (Inv_getSession sid w HI) as [HI1 Hreg].
  destruct (getSession sid w) as [[s|] w1]; cbn [fst snd] in *.
  - eapply Inv_ext; [apply deleteRedisAuth_core|]. apply Inv_teardown; [done|]. by apply Hreg.
  - eapply Inv_ext; [apply deleteRedisAuth_core|]. done.
Qed.

Lemma Inv_process_exit w : Inv (process_exit w).
Proof.
  split; cbn.
  - intros sid r Hr. by rewrite lookup_empty in Hr.
  - intros r [e He]. by rewrite lookup_empty in He.
  - intros t sid s d Ht. by rewrite lookup_empty in Ht.
Qed.

Lemma Inv_on_connection_update sid entry u w :
  Inv w -> Inv (on_connection_update sid entry u w).
Proof.
  intros HI. unfold on_connection_update.
  match goal with
  | |- context [if ?c then upd entry (with_lastQr (u_qr u)) w else w] =>
      set (w1 := if c then upd entry (with_lastQr (u_qr u)) w else w)
  end.
  assert (HI1 : Inv w1) by (subst w1; case_match; [by apply Inv_upd_neutral | done]).
  destruct (u_connection u) as [[| |]|]; try done.
  - eapply Inv_ext; [|apply Inv_resetBackoff, Inv_upd_neutral; [|exact HI1]]; [by repeat split | done].
  - match goal with
    | |- context [add_log ?l ?x] => set (w3 := add_log l x)
    end.
    assert (HI3 : Inv w3).
    { subst w3. eapply Inv_ext; [|apply (Inv_upd_neutral entry); [|exact HI1]]; [by repeat split | done]. }
    destruct (is_terminal_code (u_code u)).
    + pose proof (Inv_logoutSession sid w3 HI3) as HI4.
      destruct (logoutSession sid w3) as [[err|ok] w4]; [apply Inv_process_exit | exact HI4].
    + by apply Inv_scheduleReconnect.
Qed.

Lemma Inv_on_creds_update sid blob w : Inv w -> Inv (on_creds_update sid blob w).
Proof.
  intros HI. unfold on_creds_update.
  pose proof (saveCreds_core sid blob w) as Hc.
  destruct (saveCreds sid blob w) as [[e|[]] w1]; cbn [fst snd] in *.
  - eapply Inv_ext; [|exact HI]. destruct Hc as (?&?&?&?). by repeat split.
  - by eapply Inv_ext.
Qed.

Lemma Inv_backoff_callback t sid s d w :
  Inv w -> timers w !! t = Some (BackoffTimer sid s d) ->
  Inv (backoff_callback sid s (clearTimer t w)).
Proof.
  intros HI Ht. destruct (inv_timer _ HI _ _ _ _ Ht) as [_ (e & He & Hb & Hc)].
  unfold backoff_callback.
  set (w0 := clearTimer t w).
  assert (HI0 : Inv w0) by (by apply Inv_clearTimer).
  assert (Hq0 : quiet s w0).
  { pose proof (quiet_cleared s e w He) as Hq. by rewrite Hb in Hq. }
  set (w1 := upd s (with_backoffTimer None) w0).
  assert (HI1 : Inv w1) by (by apply Inv_upd_quiet).
  assert (He1 : heap w1 !! s = Some (with_backoffTimer None e)).
  { subst w1 w0. simpl. by rewrite lookup_alter_eq, He. }
  pose proof (createSession_spec sid true w1 HI1) as (HI2 & Hst & _).
  destruct (createSession sid true w1) as [[err|r] w2]; cbn [fst snd] in *; [|done].
  destruct (Hst _ _ He1) as (e2 & He2 & Hb2). simpl in Hb2.
  apply Inv_scheduleReconnect.
  eapply Inv_ext; [|apply (Inv_upd_quiet s (with_reconnecting false) w2); [done | | exact HI2]].
  - by repeat split.
  - by eapply quiet_handle.
Qed.

Lemma Inv_attempts id n a w : Inv w -> Inv (attempts id n a w).2.
Proof.
  revert a w. induction n as [|n IH]; intros a w HI; simpl; [done|].
  pose proof (createSession_spec id false w HI) as (HI1 & _).
  destruct (createSession id false w) as [[e|r] w1]; cbn [fst snd] in *; [|done].
  case_bool_decide.
  - destruct (a <? RETRIES); [by apply IH|]. simpl. eapply Inv_ext; [|exact HI1]. by repeat split.
  - simpl. eapply Inv_ext; [|exact HI1]. by repeat split.
Qed.

Lemma Inv_restore_one locked id st : Inv st.2 -> Inv (restore_one locked id st).2.
Proof.
  destruct st as [restored w]. simpl. intros HI. case_bool_decide; simpl.
  - eapply Inv_ext; [|exact HI]. by repeat split.
  - pose proof (Inv_attempts id (Z.to_nat (RETRIES + 1)) 0 w HI) as HI1.
    destruct (attempts id (Z.to_nat (RETRIES + 1)) 0 w) as [[|] w1]; simpl in *; [done|].
    eapply Inv_ext; [|exact HI1]. by repeat split.
Qed.

Lemma Inv_restoreAll w : Inv w -> Inv (restoreAllSessionsFromRedis w).2.
Proof.
  intros HI. unfold restoreAllSessionsFromRedis, scanKeys.
  unfold bind at 1. pose proof (redis_scan_all_core "sess:*:tokens" w) as Hc1.
  destruct (redis_scan_all "sess:*:tokens" w) as [[e|keys1] w1]; cbn [fst snd] in *; [by eapply Inv_ext|].
  unfold bind at 1. pose proof (redis_scan_all_core "baileys:*:creds" w1) as Hc2.
  destruct (redis_scan_all "baileys:*:creds" w1) as [[e|keys2] w2]; cbn [fst snd] in *.
  { eapply Inv_ext; [|exact HI]. by eapply same_core_trans. }
  unfold bind at 1. pose proof (redis_scan_all_core "lock:wa:*" w2) as Hc3.
  destruct (redis_scan_all "lock:wa:*" w2) as [[e|lockedKeys] w3]; cbn [fst snd] in *.
  { eapply Inv_ext; [|exact HI]. eapply same_core_trans; [|exact Hc3]. by eapply same_core_trans. }
  assert (HI3 : Inv w3).
  { eapply Inv_ext; [|exact HI]. eapply same_core_trans; [|exact Hc3]. by eapply same_core_trans. }
  munfold.
  set (ids := collect_ids keys2 (collect_ids keys1 [])).
  set (locked := collect_locked lockedKeys).
  assert (Hfold : forall l st, Inv st.2 ->
            Inv (foldl (fun st id => restore_one locked id st) st l).2).
  { induction l as [|id l IH]; intros st Hst; simpl; [done|]. apply IH. by apply Inv_restore_one. }
  specialize (Hfold ids ([], w3) HI3).
  destruct (foldl _ _ ids) as [restored w4]. simpl in *.
  eapply Inv_ext; [|exact Hfold]. by repeat split.
Qed.

Lemma Inv_step ev w : Inv w -> Inv (step ev w).
Proof.
  intros HI. destruct ev as [sid force|sid|sid| |k u|k blob|t|d|b]; simpl.
  - by apply createSession_spec.
  - by apply Inv_getSession.
  - by apply Inv_logoutSession.
  - by apply Inv_restoreAll.
  - destruct (socks w !! k) as [x|]; [|done]. destruct (sk_on_connection x); [|done].
    by apply Inv_on_connection_update.
  - destruct (socks w !! k) as [x|]; [|done]. destruct (sk_on_creds x); [|done].
    by apply Inv_on_creds_update.
  - destruct (timers w !! t) as [[key token|sid s d]|] eqn:Ht; [| |done].
    + by apply Inv_renew.
    + by eapply Inv_backoff_callback.
  - eapply Inv_ext; [|exact HI]. by repeat split.
  - eapply Inv_ext; [|exact HI]. by repeat split.
Qed.

Lemma Inv_empty : Inv empty_world.
Proof.
  split; simpl.
  - intros sid r Hr. by rewrite lookup_empty in Hr.
  - intros r [e He]. by rewrite lookup_empty in He.
  - intros t sid s d Ht. by rewrite lookup_empty in Ht.
Qed.

Lemma Inv_run evs w : Inv w -> Inv (run evs w).
Proof.
  revert w. induction evs as [|ev evs IH]; intros w HI; simpl; [done|].
  apply IH. by apply Inv_step.
Qed.

End Lifecycle.

(** ** [deleteRedisAuth] *)

Lemma lookup_del_keys (keys : list string) (d : gmap string Entry) (k : string) :
  del_keys keys d !! k = if bool_decide (k ∈ keys) then None else d !! k.
Proof.
  induction keys as [|k' keys IH].
  - done.
  - change (del_keys (k' :: keys) d) with (delete k' (del_keys keys d)).
    destruct (decide (k' = k)) as [->|Hkk].
    + rewrite lookup_delete_eq. by rewrite bool_decide_eq_true_2 by left.
    + rewrite lookup_delete_ne by done. rewrite IH. case_bool_decide as Hk.
      * by rewrite bool_decide_eq_true_2 by (by right).
      * rewrite bool_decide_eq_false_2; [done|].
        intros Hin. apply elem_of_cons in Hin as [?|?]; congruence.
Qed.

Lemma del_keys_shrinks (keys : list string) (d : gmap string Entry) (k : string) (v : Entry) :
  del_keys keys d !! k = Some v -> d !! k = Some v.
Proof. rewrite lookup_del_keys. by case_bool_decide. Qed.

Lemma elem_of_keys_matching (p : string) (d : gmap string Entry) (k : string) :
  k ∈ keys_matching p d <-> is_Some (d !! k) /\ glob p k = true.
Proof.
  unfold keys_matching. rewrite list_elem_of_In, filter_In, <- list_elem_of_In.
  rewrite list_elem_of_fmap. split.
  - intros [([k' v] & -> & Hin) Hg]. apply elem_of_map_to_list in Hin. split; [eauto | done].
  - intros [[v Hv] Hg]. split; [|done]. exists (k, v). split; [done|].
    by apply elem_of_map_to_list.
Qed.

Lemma send_up c w : redis_budget w = None -> send c w = (inr tt, add_cmd c w).
Proof. intros Hup. unfold send. by rewrite Hup. Qed.

Lemma redis_smembers_up k w :
  redis_budget w = None ->
  redis_smembers k w =
    match db w !! k with
    | None => (inr [], add_cmd (CSmembers k) w)
    | Some (mkEntry (VSet m) _) => (inr (elements m), add_cmd (CSmembers k) w)
    | Some (mkEntry (VStr _) _) => (inl wrongtype, add_cmd (CSmembers k) w)
    end.
Proof.
  intros Hup. unfold redis_smembers. munfold. rewrite send_up by done. simpl.
  by destruct (db w !! k) as [[[v|m] ttl]|].
Qed.

Lemma redis_scan_all_up p w :
  redis_budget w = None ->
  redis_scan_all p w = (inr (keys_matching p (db w)), add_cmd (CScan p) w).
Proof. intros Hup. unfold redis_scan_all. munfold. by rewrite send_up by done. Qed.

Lemma pipeline_exec_up ops w :
  redis_budget w = None ->
  pipeline_exec ops w =
    (inr tt, set_db (fun d => foldl (fun d keys => del_keys keys d) d ops) (add_cmd (CExec ops) w)).
Proof. intros Hup. unfold pipeline_exec. munfold. by rewrite send_up by done. Qed.

Lemma redis_get_up k w :
  redis_budget w = None ->
  redis_get k w =
    match db w !! k with
    | None => (inr None, add_cmd (CGet k) w)
    | Some (mkEntry (VStr s) _) => (inr (Some s), add_cmd (CGet k) w)
    | Some (mkEntry (VSet _) _) => (inl wrongtype, add_cmd (CGet k) w)
    end.
Proof.
  intros Hup. unfold redis_get. munfold. rewrite send_up by done. simpl.
  by destruct (db w !! k) as [[[v|m] ttl]|].
Qed.

Section Delete.
Context `{Env} `{Platform}.

Lemma deleteRedisAuth_socks sid w : socks (deleteRedisAuth sid w).2 = socks w.
Proof.
  unfold deleteRedisAuth, redis_smembers, redis_scan_all, pipeline_exec, send. munfold. simpl.
  repeat case_match; simplify_eq; simpl; done.
Qed.

Lemma deleteRedisAuth_shrinks sid w k v :
  db (deleteRedisAuth sid w).2 !! k = Some v -> db w !! k = Some v.
Proof.
  unfold deleteRedisAuth, redis_smembers, redis_scan_all, pipeline_exec, send. munfold. simpl.
  repeat case_match; simplify_eq; simpl; try done;
    rewrite ?foldl_app; simpl; intros Hx;
    repeat (apply del_keys_shrinks in Hx || (apply lookup_delete_Some in Hx as [_ Hx])); done.
Qed.

(** What [deleteRedisAuth] leaves of the store when every command is
    answered and the token index is a set (or absent). *)
Lemma deleteRedisAuth_db sid w :
  redis_budget w = None ->
  (forall v ttl, db w !! sessSetKey sid <> Some (mkEntry (VStr v) ttl)) ->
  let tokens := match db w !! sessSetKey sid with
                | Some (mkEntry (VSet m) _) => elements m
                | _ => []
                end in
  (deleteRedisAuth sid w).1 = inr tt /\
  db (deleteRedisAuth sid w).2 =
    del_keys (keys_matching (baileysPattern sid) (db w))
      (delete (sessSetKey sid) (del_keys (map tokenKey tokens) (db w))).
Proof.
  intros Hup Hset. unfold deleteRedisAuth, bind.
  rewrite redis_smembers_up by done.
  destruct (db w !! sessSetKey sid) as [[[v|m] ttl]|] eqn:Hs.
  - by destruct (Hset v ttl).
  - rewrite redis_scan_all_up by done. rewrite pipeline_exec_up by done. cbn [fst snd].
    split; [done|]. simpl. rewrite !foldl_app. simpl.
    destruct (elements m) as [|t ts]; simpl;
      destruct (keys_matching (baileysPattern sid) (db w)); simpl; done.
  - rewrite redis_scan_all_up by done. rewrite pipeline_exec_up by done. cbn [fst snd].
    split; [done|]. simpl.
    destruct (keys_matching (baileysPattern sid) (db w)); simpl; done.
Qed.

End Delete.

(** ** Termination of a session *)

Section Terminate.
Context `{Env} `{Platform}.

Lemma release_db l w :
  (forall k v, db (release l w) !! k = Some v -> db w !! k = Some v) /\
  (redis_budget w = None -> redis_budget (release l w) = None) /\
  (redis_budget w = None ->
   forall ttl, db (release l w) !! lk_key l <> Some (mkEntry (VStr (lk_token l)) ttl)).
Proof.
  unfold release, redis_eval_release, send. munfold. simpl.
  destruct (redis_budget w) as [[|n]|] eqn:Hb; simpl;
    [ | destruct (db w !! lk_key l) as [[[v|m] ttl]|] eqn:Hk; simpl;
        [destruct (String.eqb_spec v (lk_token l)) as [->|Hne]; simpl | | ]
      | destruct (db w !! lk_key l) as [[[v|m] ttl]|] eqn:Hk; simpl;
        [destruct (String.eqb_spec v (lk_token l)) as [->|Hne]; simpl | | ] ];
    (split_and!;
     [ intros k v' Hx; try (apply lookup_delete_Some in Hx as [_ Hx]); done
     | intros Hup; done
     | intros Hup ttl'; try done; rewrite ?lookup_delete_eq, ?Hk; congruence ]).
Qed.

Lemma teardown_effect sid s e w :
  heap w !! s = Some e ->
  let w' := teardown sid s w in
  sessions w' = delete sid (sessions w) /\
  (forall k x, sock e = Some k -> socks w !! k = Some x ->
     exists y, socks w' !! k = Some y /\ torn_down y) /\
  (forall t X, timers w' !! t = Some X -> timers w !! t = Some X) /\
  (forall l, lock e = Some l -> timers w' !! lk_renewTimer l = None) /\
  (forall k v, db w' !! k = Some v -> db w !! k = Some v) /\
  (redis_budget w = None -> redis_budget w' = None) /\
  (redis_budget w = None -> forall l ttl, lock e = Some l ->
     db w' !! lk_key l <> Some (mkEntry (VStr (lk_token l)) ttl)).
Proof.
  intros He. unfold teardown. rewrite He.
  change (default empty_object (Some e)) with e.
  set (w1 := match backoffTimer e with Some t => clearTimer t w | None => w end).
  set (w2 := upd s (with_reconnecting false) w1).
  set (w3 := match sock e with Some k => removeAllListeners k w2 | None => w2 end).
  set (w4 := match sock e with Some k => sock_logout k w3 | None => w3 end).
  set (w5 := match lock e with Some l => release l w4 | None => w4 end).
  assert (Ht1 : forall t X, timers w1 !! t = Some X -> timers w !! t = Some X).
  { subst w1. destruct (backoffTimer e); [|done]. intros t X Hx. simpl in Hx.
    by apply lookup_delete_Some in Hx as [_ Hx]. }
  assert (Ht4 : timers w4 = timers w1) by (subst w4 w3 w2; by destruct (sock e)).
  assert (Hd4 : db w4 = db w) by (subst w4 w3 w2 w1; by destruct (sock e), (backoffTimer e)).
  assert (Hb4 : redis_budget w4 = redis_budget w)
    by (subst w4 w3 w2 w1; by destruct (sock e), (backoffTimer e)).
  assert (Hs4 : sessions w4 = sessions w)
    by (subst w4 w3 w2 w1; by destruct (sock e), (backoffTimer e)).
  assert (Hk4 : forall k x, sock e = Some k -> socks w !! k = Some x ->
            exists y, socks w4 !! k = Some y /\ torn_down y).
  { intros k x Hk Hx.
    assert (Hsk : socks w2 = socks w) by (subst w2 w1; by destruct (backoffTimer e)).
    unfold w4, w3. rewrite Hk. cbn [socks sock_logout removeAllListeners set_socks].
    rewrite !lookup_alter_eq, Hsk, Hx. simpl. eexists. split; [reflexivity|]. by repeat split. }
  cbn [sessions set_sessions socks timers db redis_budget].
  split_and!.
  - f_equal. subst w5. destruct (lock e) as [l|]; [|exact Hs4].
    destruct (release_core l w4) as (-> & _). exact Hs4.
  - intros k x Hk Hx. destruct (Hk4 k x Hk Hx) as (y & Hy & Htd). exists y. split; [|done].
    subst w5. destruct (lock e) as [l|]; [|done].
    by destruct (release_core l w4) as (_ & _ & _ & _ & ->).
  - intros t X Hx. apply Ht1. rewrite <- Ht4. subst w5. destruct (lock e) as [l|]; [|done].
    destruct (release_core l w4) as (_ & _ & Ht & _). rewrite Ht in Hx.
    by apply lookup_delete_Some in Hx as [_ Hx].
  - intros l Hl. subst w5. rewrite Hl.
    destruct (release_core l w4) as (_ & _ & -> & _). apply lookup_delete_eq.
  - intros k v Hx. rewrite <- Hd4. subst w5. destruct (lock e) as [l|]; [|done].
    by apply (release_db l w4).
  - intros Hup. subst w5. destruct (lock e) as [l|]; [|congruence].
    apply (release_db l w4). congruence.
  - intros Hup l ttl Hl. subst w5. rewrite Hl. apply (release_db l w4). congruence.
Qed.

(** C9.  Every record in the registry carries a lock.  In every state
    reachable from the empty one by calls of the exported functions, socket
    events, timers firing, writes of other processes to the store and
    outages of the store, each registered session identifier maps to an
    object whose [lock] field is set. *)
Theorem registry_entries_hold_lock (evs : list Event) (sessionId : string) (r : nat) :
  sessions (run evs empty_world) !! sessionId = Some r ->
  exists e l, heap (run evs empty_world) !! r = Some e /\ lock e = Some l.
Proof.
  intros Hr. destruct (inv_lock _ (Inv_run evs _ Inv_empty) _ _ Hr) as (e & He & [l Hl]).
  eauto.
Qed.

End Terminate.

(** ** The restore scanner *)





Lemma str_app_cons (x : ascii) (a b : string) : String x a +:+ b = String x (a +:+ b).
Proof. reflexivity. Qed.

Lemma str_app_nil_l (a : string) : "" +:+ a = a.
Proof. reflexivity. Qed.

Lemma str_app_assoc (a b c : string) : (a +:+ b) +:+ c = a +:+ (b +:+ c).
Proof.
  induction a as [|x a IH]; [done|]. by rewrite !str_app_cons, IH.
Qed.

Lemma str_app_nil_r (a : string) : a +:+ "" = a.
Proof. induction a as [|x a IH]; [done|]. by rewrite str_app_cons, IH. Qed.

Lemma str_rev_onto_app (s acc : string) : str_rev_onto s acc = str_rev s +:+ acc.
Proof.
  unfold str_rev. revert acc. induction s as [|c s IH]; intros acc; [done|].
  cbn [str_rev_onto]. rewrite (IH (String c EmptyString)), IH.
  by rewrite str_app_assoc.
Qed.

Lemma str_rev_app (a b : string) : str_rev (a +:+ b) = str_rev b +:+ str_rev a.
Proof.
  induction a as [|c a IH].
  - by rewrite str_app_nil_l, str_app_nil_r.
  - rewrite str_app_cons. unfold str_rev in *. cbn [str_rev_onto].
    rewrite !(str_rev_onto_app _ (String c "")). unfold str_rev. rewrite IH.
    by rewrite str_app_assoc.
Qed.

Lemma str_rev_involutive (a : string) : str_rev (str_rev a) = a.
Proof.
  induction a as [|c a IH]; [done|].
  change (String c a) with (String c "" +:+ a) at 1.
  rewrite str_rev_app, str_rev_app, IH. done.
Qed.

Lemma strip_prefix_app (p s : string) : strip_prefix p (p +:+ s) = Some s.
Proof.
  induction p as [|c p IH]; [done|].
  rewrite str_app_cons. cbn [strip_prefix]. by rewrite Ascii.eqb_refl.
Qed.














Section Restore.
Context `{Env} `{Platform}.




Lemma bind_run {A B : Type} (m : M A) (k : A -> M B) (w : World) :
  bind m k w = match m w with
               | (inl e, w') => (inl e, w')
               | (inr x, w') => k x w'
               end.
Proof. reflexivity. Qed.







End Restore.






Section RestoreAll.
Context `{Env} `{Platform}.








(** ** A scan by a process that holds none of the candidates *)













End RestoreAll.

(** ** Concrete scenarios *)

Section Scenarios.
#[local] Existing Instance demo_env.
#[local] Existing Instance demo_platform.


Lemma stale_token_noop_witness :
  let w := (acquireSessionLock "s" empty_world).2 in
  (forall e, db w !! lockKey "s" = Some e -> e_val e <> VStr "stale") /\
  db (renew (lockKey "s") "stale" 7 w) = db w /\
  db (release (mkLock (lockKey "s") "stale" 7) w) = db w.
Proof.
  assert (Hstale : forall e, db (acquireSessionLock "s" empty_world).2 !! lockKey "s" = Some e ->
                             e_val e <> VStr "stale").
  { intros e He. vm_compute in He. injection He as <-. discriminate. }
  split; [exact Hstale|].
  exact (stale_token_noop (lockKey "s") "stale" 7 _ Hstale).
Defined.

Lemma load_falls_back_witness :
  let w := set_db (fun _ => {[ kCreds "s" := mkEntry (VStr "garbled") None ]}) empty_world in
  redis_budget w = None /\
  (useRedisAuth "s" true w).1 = inr "{}" /\
  logs (useRedisAuth "s" true w).2 =
    [mkLog LWarn "Failed to parse creds JSON; reinitializing creds" "s"].
Proof.
  cbv zeta. split; [reflexivity|].
  set (w := set_db _ empty_world).
  assert (Hblob : db w !! kCreds "s" = Some (mkEntry (VStr "garbled") None))
    by (vm_compute; reflexivity).
  assert (Hcase : db w !! kCreds "s" = None \/
                  exists blob ttl, db w !! kCreds "s" = Some (mkEntry (VStr blob) ttl) /\
                                   JSON_parse blob = None).
  { right. exists "garbled", None. split; [exact Hblob | reflexivity]. }
  destruct (load_falls_back "s" true w eq_refl Hcase) as (Hres & _ & Hlog & _).
  split; [exact Hres|].
  apply (Hlog "garbled" None Hblob); [discriminate | reflexivity].
Defined.

Lemma registry_entries_hold_lock_witness :
  sessions demo_created !! "s" = Some 3%nat /\
  exists e l, heap demo_created !! 3%nat = Some e /\ lock e = Some l.
Proof.
  assert (Hr : sessions (run [CallCreateSession "s" false] empty_world) !! "s" = Some 3%nat)
    by (vm_compute; reflexivity).
  split; [exact Hr|].
  exact (registry_entries_hold_lock [CallCreateSession "s" false] "s" 3 Hr).
Defined.

End Scenarios.

Lemma genToken_base62_witness :
  eventually_accepts (fun _ => 0%N) /\
  (exists fuel out, genToken fuel (fun _ => 0%N) 12 = Some out) /\
  (forall fuel out, genToken fuel (fun _ => 0%N) 12 = Some out ->
     String.length out = 12%nat /\ str_forall is_base62 out = true).
Proof.
  assert (Hfair : eventually_accepts (fun _ => 0%N)).
  { intros pos. exists pos. split; [lia | reflexivity]. }
  split; [exact Hfair|].
  exact (genToken_base62 (fun _ => 0%N) 12 Hfair).
Defined.

Section Findings.
#[local] Existing Instance demo_env.
#[local] Existing Instance demo_platform.

(** While every attempt to re-create the session fails, the delays of a
    fresh session follow 2000, 4000, 8000, 16000, 30000, 30000. *)
Lemma backoff_sequence_under_failure :
  let down := [ConnectionUpdate 2 timed_out; RedisAvailable (Some 0%nat)] in
  map (fun fired => pending_delays (run (down ++ map TimerFires fired) demo_created))
      [[]; [4]; [4; 5]; [4; 5; 6]; [4; 5; 6; 7]; [4; 5; 6; 7; 8]]%nat
  = [[2000]; [4000]; [8000]; [16000]; [30000]; [30000]].
Proof. vm_compute. reflexivity. Qed.

(** With the minimum at 2000, the first reconnect armed after a close
    that follows a successful open waits 4000; and a session whose
    re-created socket closes again before opening gets no reconnect at all,
    since the copy of the record still says that one is pending. *)
Lemma backoff_after_open_starts_doubled :
  RECONNECT_MIN = 2000 /\
  pending_delays (run [ConnectionUpdate 2 opened; ConnectionUpdate 2 timed_out] demo_created)
    = [4000] /\
  pending_delays (run [ConnectionUpdate 2 timed_out; TimerFires 4; ConnectionUpdate 5 timed_out]
                      demo_created)
    = [].
Proof. vm_compute. repeat split. Qed.

(** C5, counterexample: a record left without socket by a creation that
    lost the store is not returned as it is; a second object replaces it in
    the registry and a socket is built. *)
Lemma createSession_replaces_socketless_record :
  let w := demo_half_created in
  let found := mkEntryObj None connecting None None false None None
                 (Some (mkLock "lock:wa:s" "uuid-0" 0)) in
  lookup_entry "s" w = Some (1%nat, found) /\
  status found <> close /\
  (createSession "s" false w).1 = inr 3%nat /\
  sessions (createSession "s" false w).2 !! "s" = Some 3%nat /\
  socks w !! 2%nat = None /\
  socks (createSession "s" false w).2 !! 2%nat = Some (mkSock "s" 3 true true false).
Proof. vm_compute. repeat split. discriminate. Qed.

(** C6, counterexample: a blob that is present and does not parse, yet
    nothing is logged.  The empty string is no JSON text, but
    [if (savedCreds)] takes it for an absent blob: fresh credentials are
    returned without the warning, though a logger was passed.  And the
    logger is an optional argument: without one, [logger?.warn] reports
    nothing for a corrupt blob either. *)
Lemma load_empty_blob_logs_nothing :
  let w := set_db (fun _ => {[ kCreds "s" := mkEntry (VStr "") None ]}) empty_world in
  let w2 := set_db (fun _ => {[ kCreds "s" := mkEntry (VStr "x{") None ]}) empty_world in
  (db w !! kCreds "s" = Some (mkEntry (VStr "") None) /\
   JSON_parse "" = None /\
   (useRedisAuth "s" true w).1 = inr "{}" /\
   logs (useRedisAuth "s" true w).2 = []) /\
  (db w2 !! kCreds "s" = Some (mkEntry (VStr "x{") None) /\
   JSON_parse "x{" = None /\
   (useRedisAuth "s" false w2).1 = inr "{}" /\
   logs (useRedisAuth "s" false w2).2 = []).
Proof. vm_compute. repeat split. Qed.


(** C8: the session id [a[b] is read as a glob, the pattern matches none
    of its keys, and the credentials survive the deletion: a load after the
    deletion returns the old credentials, not fresh ones.  The same happens
    when the session is restored from the store and then logged out by the
    connector. *)
Theorem deleteRedisAuth_misses_glob_id :
  let r := deleteRedisAuth demo_glob_id demo_glob_store in
  let w := run [StoreChanges (db demo_glob_store); CallRestoreAll;
                ConnectionUpdate 2 logged_out] empty_world in
  glob (baileysPattern demo_glob_id) (kCreds demo_glob_id) = false /\
  r.1 = inr tt /\
  db r.2 !! kCreds demo_glob_id = Some (mkEntry (VStr "{paired}") None) /\
  (useRedisAuth demo_glob_id true r.2).1 = inr "{paired}" /\
  initAuthCreds (entropy r.2) = "{}" /\
  sessions w !! demo_glob_id = None /\
  db w !! kCreds demo_glob_id = Some (mkEntry (VStr "{paired}") None).
Proof. vm_compute. repeat split. Qed.


End Findings.

Section Idempotence.
Context `{Env} `{Platform}.

(** C5, amended.  [createSession(id, false)] is an idempotent
    get-or-create for a record that has a socket: if the registry holds a
    record for the id whose [sock] is set and whose status is not [close],
    the call returns that very record and the world is unchanged (no
    command is sent to the store, no lock is acquired, no socket is made,
    the registry is as it was). *)
Theorem createSession_returns_live_record (sessionId : string) (w : World)
    (r : nat) (e : SessionEntry) :
  lookup_entry sessionId w = Some (r, e) ->
  is_Some (sock e) -> status e <> close ->
  createSession sessionId false w = (inr r, w).
Proof.
  intros Hfound Hsock Hstatus. unfold createSession. munfold. rewrite Hfound.
  unfold returns_existing. rewrite !bool_decide_eq_true_2 by done. done.
Qed.

End Idempotence.

Section IdempotenceDemo.
#[local] Existing Instance demo_env.
#[local] Existing Instance demo_platform.

Lemma createSession_returns_live_record_witness :
  let found := mkEntryObj (Some 2%nat) connecting None None false None None
                 (Some (mkLock "lock:wa:s" "uuid-0" 0)) in
  lookup_entry "s" demo_created = Some (3%nat, found) /\
  is_Some (sock found) /\ status found <> close /\
  createSession "s" false demo_created = (inr 3%nat, demo_created).
Proof.
  cbv zeta.
  assert (Hfound : lookup_entry "s" demo_created
                   = Some (3%nat, mkEntryObj (Some 2%nat) connecting None None false None None
                                    (Some (mkLock "lock:wa:s" "uuid-0" 0))))
    by (vm_compute; reflexivity).
  assert (Hsock : is_Some (Some 2%nat)) by (eexists; reflexivity).
  assert (Hstatus : connecting <> close) by discriminate.
  split_and!; [exact Hfound | exact Hsock | exact Hstatus |].
  exact (createSession_returns_live_record "s" demo_created 3 _ Hfound Hsock Hstatus).
Defined.

End IdempotenceDemo.

(** ** Literal identifiers, and the reconnect timer *)

Lemma glob_loop_literal (n : nat) (a : ascii) (p : string) (c : ascii) (s : string) :
  glob_literal a = true ->
  glob_loop (S n) (String a p) (String c s) =
    if Ascii.eqb a c
    then match s with
         | EmptyString => str_empty (skip_stars p)
         | String _ _ => glob_loop n p s
         end
    else false.
Proof.
  intros Hlit. destruct a as [[] [] [] [] [] [] [] []]; try discriminate Hlit; reflexivity.
Qed.

Lemma glob_literal_prefix (l : string) :
  str_forall glob_literal l = true -> l <> "" ->
  forall (n : nat) (rest : string), (String.length l < n)%nat ->
    glob_loop n (l +:+ "*") (l +:+ rest) = true.
Proof.
  induction l as [|a l IH]; intros Hlit Hne n rest Hn; [done|].
  simpl in Hlit. apply andb_true_iff in Hlit as [Ha Hl].
  destruct n as [|n]; [simpl in Hn; lia|].
  rewrite !str_app_cons, glob_loop_literal by done. rewrite Ascii.eqb_refl.
  destruct l as [|b l].
  - rewrite !str_app_nil_l. destruct rest as [|c rest]; [done|].
    destruct n as [|n]; [simpl in Hn; lia | done].
  - rewrite (str_app_cons b l rest).
    rewrite <- (str_app_cons b l rest). apply IH; [done | done | simpl in *; lia].
Qed.

Lemma glob_baileysPattern (sid rest : string) :
  str_forall glob_literal sid = true ->
  glob (baileysPattern sid) (baileysBase sid +:+ rest) = true.
Proof.
  intros Hlit. unfold baileysPattern.
  assert (Hbase : str_forall glob_literal (baileysBase sid) = true).
  { unfold baileysBase. rewrite !str_forall_app, Hlit. done. }
  assert (Hne : baileysBase sid <> "") by done.
  unfold glob. destruct (baileysBase sid +:+ rest) as [|c s] eqn:Hs.
  { destruct (baileysBase sid) eqn:Hb; [done|]. by rewrite str_app_cons in Hs. }
  rewrite <- Hs. apply glob_literal_prefix; [done | done |].
  rewrite str_length_app. simpl. lia.
Qed.

Section Wipe.
Context `{Env} `{Platform}.

Lemma deleteRedisAuth_budget sid w :
  redis_budget w = None -> redis_budget (deleteRedisAuth sid w).2 = None.
Proof.
  intros Hup. unfold deleteRedisAuth, bind.
  rewrite redis_smembers_up by done.
  destruct (db w !! sessSetKey sid) as [[[v|m] ttl]|]; cbn [fst snd]; [done| |];
    rewrite redis_scan_all_up by done; rewrite pipeline_exec_up by done; done.
Qed.

(** X1.  A literal session id is wiped completely.  When the store
    answers, the token index of
    the session is a set (or absent) and the session id has no character
    that a glob pattern reads specially (every UUID is such an id), then
    [deleteRedisAuth] returns, and afterwards the credential blob, every
    keyed entry of the session, the token index and every token mapping it
    listed are gone, so that a following load returns freshly initialised
    credentials. *)
Theorem deleteRedisAuth_wipes_literal_id (sid : string) (logger : bool) (w : World) :
  redis_budget w = None ->
  str_forall glob_literal sid = true ->
  (forall v ttl, db w !! sessSetKey sid <> Some (mkEntry (VStr v) ttl)) ->
  let r := deleteRedisAuth sid w in
  r.1 = inr tt /\
  db r.2 !! kCreds sid = None /\
  (forall type id, db r.2 !! keyOf sid type id = None) /\
  db r.2 !! sessSetKey sid = None /\
  (forall m ttl t, db w !! sessSetKey sid = Some (mkEntry (VSet m) ttl) -> t ∈ m ->
     db r.2 !! tokenKey t = None) /\
  (useRedisAuth sid logger r.2).1 = inr (initAuthCreds (entropy r.2)).
Proof.
  intros Hup Hlit Hset r.
  destruct (deleteRedisAuth_db sid w Hup Hset) as [Hok Hdb]. fold r in Hok, Hdb.
  assert (Hglob : forall rest, db r.2 !! (baileysBase sid +:+ rest) = None).
  { intros rest. destruct (db r.2 !! (baileysBase sid +:+ rest)) as [v|] eqn:Hk; [|done].
    pose proof (deleteRedisAuth_shrinks sid w _ _ Hk) as Hw.
    rewrite Hdb, lookup_del_keys, bool_decide_eq_true_2 in Hk; [done|].
    apply elem_of_keys_matching. split; [eauto | by apply glob_baileysPattern]. }
  split_and!.
  - exact Hok.
  - apply Hglob.
  - intros type id. apply Hglob.
  - rewrite Hdb, lookup_del_keys. case_bool_decide; [done|]. by rewrite lookup_delete_eq.
  - intros m ttl t Hm Ht. rewrite Hdb, lookup_del_keys. case_bool_decide; [done|].
    destruct (decide (sessSetKey sid = tokenKey t)) as [->|Hne];
      [by rewrite lookup_delete_eq|].
    rewrite lookup_delete_ne by done. rewrite Hm, lookup_del_keys, bool_decide_eq_true_2; [done|].
    apply list_elem_of_fmap. exists t. split; [done | by apply elem_of_elements].
  - unfold useRedisAuth. rewrite bind_run, redis_get_up by (by apply deleteRedisAuth_budget).
    unfold kCreds. by rewrite Hglob.
Qed.

(** X2.  A second [scheduleReconnect] while one is pending changes
    nothing: one timer is armed, not two. *)
Theorem scheduleReconnect_pending_once (sessionId reason reason' : string) (w : World) :
  scheduleReconnect sessionId reason' (scheduleReconnect sessionId reason w)
  = scheduleReconnect sessionId reason w.
Proof.
  unfold scheduleReconnect at 2 3.
  destruct (lookup_entry sessionId w) as [[s e]|] eqn:Hfound.
  2:{ unfold scheduleReconnect. by rewrite Hfound. }
  destruct (reconnecting e) eqn:Hrec.
  { unfold scheduleReconnect. by rewrite Hfound, Hrec. }
  apply lookup_entry_Some in Hfound as [Hs Hh].
  cbn. unfold scheduleReconnect, lookup_entry. cbn. rewrite Hs. cbn.
  rewrite !lookup_alter_eq, Hh. cbn. done.
Qed.

End Wipe.

Section WipeDemo.
#[local] Existing Instance demo_env.
#[local] Existing Instance demo_platform.

Lemma deleteRedisAuth_wipes_literal_id_witness :
  let w := run [CallCreateSession "s" false; CredsUpdate 2 "{paired}"] empty_world in
  redis_budget w = None /\ str_forall glob_literal "s" = true /\
  db w !! kCreds "s" = Some (mkEntry (VStr "{paired}") None) /\
  db (deleteRedisAuth "s" w).2 !! kCreds "s" = None /\
  (useRedisAuth "s" true (deleteRedisAuth "s" w).2).1 = inr "{}".
Proof.
  cbv zeta. set (w := run _ empty_world).
  assert (Hset : forall v ttl, db w !! sessSetKey "s" <> Some (mkEntry (VStr v) ttl))
    by (intros v ttl; vm_compute; discriminate).
  destruct (deleteRedisAuth_wipes_literal_id "s" true w eq_refl eq_refl Hset)
    as (_ & Hcreds & _ & _ & _ & Hload).
  split_and!; [reflexivity | reflexivity | vm_compute; reflexivity | exact Hcreds | exact Hload].
Defined.

End WipeDemo.

Section Backoff.
Context `{Env} `{Platform}.

(** C4.  The first reconnect after a successful open does not wait the
    configured minimum.  In every reachable state, when a socket whose
    record is the registered one reports [open] and then a close that is not
    terminal, the reconnect timer is armed with twice the configured minimum
    (capped at the maximum): [resetBackoff] stores the minimum and
    [scheduleReconnect] doubles it before its first use. *)
Theorem first_delay_after_open (evs : list Event) (k : nat) (x : Sock) (u1 u2 : Update) :
  let w := run evs empty_world in
  let w' := run [ConnectionUpdate k u1; ConnectionUpdate k u2] w in
  socks w !! k = Some x -> sk_on_connection x = true ->
  sessions w !! sk_sessionId x = Some (sk_entry x) ->
  u_connection u1 = Some open ->
  u_connection u2 = Some close -> is_terminal_code (u_code u2) = false ->
  RECONNECT_MIN <> 0 ->
  timers w' !! fresh w
  = Some (BackoffTimer (sk_sessionId x) (sk_entry x) (Z.min (RECONNECT_MIN * 2) RECONNECT_MAX)).
Proof.
  intros w w' Hk Hon Hreg Hopen Hclose Hterm Hmin.
  assert (HI : Inv w) by (apply Inv_run, Inv_empty).
  destruct (inv_lock _ HI _ _ Hreg) as (e & He & _).
  subst w'. change (run [ConnectionUpdate k u1; ConnectionUpdate k u2] w)
    with (step (ConnectionUpdate k u2) (step (ConnectionUpdate k u1) w)).
  set (wo := step (ConnectionUpdate k u1) w).
  assert (Ho : socks wo = socks w /\ sessions wo = sessions w /\ fresh wo = fresh w /\
               exists eo, heap wo !! sk_entry x = Some eo /\ reconnecting eo = false /\
                          backoffMs eo = Some RECONNECT_MIN).
  { subst wo. cbn [step]. rewrite Hk, Hon. unfold on_connection_update. rewrite Hopen.
    match goal with |- context [resetBackoff _ (upd _ _ ?w1)] => set (wq := w1) end.
    assert (Hq : socks wq = socks w /\ sessions wq = sessions w /\ fresh wq = fresh w /\
                 is_Some (heap wq !! sk_entry x)).
    { subst wq. destruct (_ && _); cbn; rewrite ?lookup_alter_eq, He; cbn; eauto. }
    destruct Hq as (Hsk & Hss & Hfr & [eq Heq]).
    unfold resetBackoff. cbn. rewrite !lookup_alter_eq, Heq. cbn.
    destruct (backoffTimer eq); cbn; rewrite ?lookup_alter_eq, Heq; cbn;
      split_and!; try done; eexists; (split; [reflexivity|]); done. }
  destruct Ho as (Hsk' & Hss' & Hfr' & eo & Heo & Hrec & Hms). clearbody wo.
  cbn [step]. rewrite Hsk', Hk, Hon. unfold on_connection_update. rewrite Hclose, Hterm.
  match goal with |- context [scheduleReconnect _ _ ?w3] => set (wc := w3) end.
  assert (Hc : sessions wc = sessions w /\ fresh wc = fresh w /\
               exists ec, heap wc !! sk_entry x = Some ec /\ reconnecting ec = false /\
                          backoffMs ec = Some RECONNECT_MIN).
  { subst wc. rewrite Heo. destruct (_ && _); cbn; rewrite ?lookup_alter_eq, Heo; cbn;
      split_and!; try done; eexists; (split; [reflexivity|]); done. }
  destruct Hc as (Hss'' & Hfr'' & ec & Hec & Hrec' & Hms'). clearbody wc.
  unfold scheduleReconnect, lookup_entry. rewrite Hss'', Hreg. cbn. rewrite Hec. cbn.
  rewrite Hrec', Hms'. cbn. rewrite Hfr'', lookup_insert_eq.
  unfold next_backoff. cbn. destruct (Z.eqb_spec RECONNECT_MIN 0); [done|]. done.
Qed.

End Backoff.

Section BackoffDemo.
#[local] Existing Instance demo_env.
#[local] Existing Instance demo_platform.

Lemma first_delay_after_open_witness :
  socks demo_created !! 2%nat = Some (mkSock "s" 3 true true false) /\
  sessions demo_created !! "s" = Some 3%nat /\
  RECONNECT_MIN = 2000 /\
  timers (run [ConnectionUpdate 2 opened; ConnectionUpdate 2 timed_out] demo_created) !! 4%nat
  = Some (BackoffTimer "s" 3 4000).
Proof.
  assert (Hx : socks (run [CallCreateSession "s" false] empty_world) !! 2%nat
               = Some (mkSock "s" 3 true true false)) by (vm_compute; reflexivity).
  assert (Hr : sessions (run [CallCreateSession "s" false] empty_world) !! "s" = Some 3%nat)
    by (vm_compute; reflexivity).
  assert (Hmin : RECONNECT_MIN <> 0) by discriminate.
  split_and!; [exact Hx | exact Hr | reflexivity |].
  exact (first_delay_after_open [CallCreateSession "s" false] 2 _ opened timed_out
           Hx eq_refl Hr eq_refl eq_refl eq_refl Hmin).
Defined.

End BackoffDemo.

(** ** Bearer tokens *)

Lemma digits_checked : forallb (fun v => digit_ok (N.of_nat v)) (seq 0 64) = true.
Proof. vm_compute. reflexivity. Qed.

Lemma digit_ok_lt (v : N) : (v < 64)%N -> digit_ok v = true.
Proof.
  intros Hv. pose proof (proj1 (forallb_forall _ _) digits_checked (N.to_nat v)) as Hall.
  cbv beta in Hall. rewrite N2Nat.id in Hall. apply Hall, in_seq. lia.
Qed.

Section Bits.
Local Open Scope N_scope.

Lemma land_ones_lt (a n : N) : N.land a (N.ones n) < 2 ^ n.
Proof. rewrite N.land_ones. apply N.mod_lt. by apply N.pow_nonzero. Qed.

Lemma shiftr_lt (a n m : N) : a < 2 ^ (n + m) -> N.shiftr a n < 2 ^ m.
Proof.
  intros Ha. rewrite N.shiftr_div_pow2. apply N.Div0.div_lt_upper_bound.
  by rewrite <- N.pow_add_r.
Qed.

Lemma log2_lt_pow2' (x k : N) : x < 2 ^ k -> x = 0 \/ N.log2 x < k.
Proof.
  intros Hx. destruct (N.eq_dec x 0) as [->|Hx0]; [by left|].
  right. apply N.log2_lt_pow2; lia.
Qed.

Lemma lor_lt_pow2 (x y k : N) : x < 2 ^ k -> y < 2 ^ k -> N.lor x y < 2 ^ k.
Proof.
  intros Hx Hy.
  destruct (log2_lt_pow2' x k Hx) as [->|Hlx]; [by rewrite N.lor_0_l|].
  destruct (log2_lt_pow2' y k Hy) as [->|Hly]; [by rewrite N.lor_0_r|].
  destruct (N.eq_dec (N.lor x y) 0) as [->|Hnz]; [lia|].
  apply N.log2_lt_pow2; [lia|]. rewrite N.log2_lor. lia.
Qed.

Lemma shiftl_lt (x n m : N) : x < 2 ^ m -> N.shiftl x n < 2 ^ (n + m).
Proof.
  intros Hx. rewrite N.shiftl_mul_pow2, N.pow_add_r, N.mul_comm.
  apply N.mul_lt_mono_pos_l; [|done]. apply N.neq_0_lt_0. by apply N.pow_nonzero.
Qed.

End Bits.

Lemma list_ind3 {A : Type} (P : list A -> Prop) :
  P [] -> (forall a, P [a]) -> (forall a b, P [a; b]) ->
  (forall a b c l, P l -> P (a :: b :: c :: l)) ->
  forall l, P l.
Proof.
  intros H0 H1 H2 H3 l.
  assert (Hall : P l /\ (forall a, P (a :: l)) /\ (forall a b, P (a :: b :: l))).
  { induction l as [|x l (IH0 & IH1 & IH2)]; [by split_and!|].
    split_and!; [apply IH1 | intros a; apply IH2 | intros a b; by apply H3]. }
  apply Hall.
Qed.

Lemma str_map_app (f : ascii -> ascii) (a b : string) :
  str_map f (a +:+ b) = str_map f a +:+ str_map f b.
Proof. induction a as [|c a IH]; [done|]. rewrite !str_app_cons. simpl. by rewrite IH, str_app_cons. Qed.

Lemma str_length_map (f : ascii -> ascii) (s : string) :
  String.length (str_map f s) = String.length s.
Proof. induction s as [|c s IH]; simpl; [done | by rewrite IH]. Qed.

Lemma str_forall_rev_onto (p : ascii -> bool) (s acc : string) :
  str_forall p (str_rev_onto s acc) = str_forall p s && str_forall p acc.
Proof.
  revert acc. induction s as [|c s IH]; intros acc; simpl; [done|].
  rewrite IH. simpl. destruct (p c), (str_forall p s); done.
Qed.

Lemma str_forall_rev (p : ascii -> bool) (s : string) :
  str_forall p (str_rev s) = str_forall p s.
Proof. unfold str_rev. rewrite str_forall_rev_onto. simpl. by rewrite andb_true_r. Qed.

Lemma str_forall_impl (p q : ascii -> bool) (s : string) :
  (forall c, p c = true -> q c = true) -> str_forall p s = true -> str_forall q s = true.
Proof.
  intros Hpq. induction s as [|c s IH]; simpl; [done|].
  intros [Hc Hs]%andb_true_iff. by rewrite (Hpq c Hc), IH.
Qed.

Lemma drop_while_app (p : ascii -> bool) (a b : string) :
  str_forall p a = true -> str_drop_while p (a +:+ b) = str_drop_while p b.
Proof.
  induction a as [|c a IH]; [done|]. rewrite str_app_cons. simpl.
  intros [Hc Ha]%andb_true_iff. rewrite Hc. by apply IH.
Qed.

Lemma drop_while_none (p : ascii -> bool) (s : string) :
  str_forall (fun c => negb (p c)) s = true -> str_drop_while p s = s.
Proof.
  destruct s as [|c s]; simpl; [done|]. intros [Hc _]%andb_true_iff.
  by destruct (p c).
Qed.

(** Trailing characters of class [p] are removed, and nothing else, when
    they follow a string free of [p]. *)
Lemma strip_trailing (p : ascii -> bool) (s pad : string) :
  str_forall (fun c => negb (p c)) s = true -> str_forall p pad = true ->
  str_rev (str_drop_while p (str_rev (s +:+ pad))) = s.
Proof.
  intros Hs Hpad. rewrite str_rev_app, drop_while_app by (by rewrite str_forall_rev).
  rewrite drop_while_none by (by rewrite str_forall_rev). apply str_rev_involutive.
Qed.

Lemma byte_sextets (a b : N) :
  (a < 256)%N -> (b < 256)%N ->
  digit_ok (N.shiftr a 2) = true /\
  digit_ok (N.lor (N.shiftl (N.land a 3) 4) (N.shiftr b 4)) = true /\
  digit_ok (N.lor (N.shiftl (N.land a 15) 2) (N.shiftr b 6)) = true /\
  digit_ok (N.land a 63) = true /\
  digit_ok (N.shiftl (N.land a 3) 4) = true /\
  digit_ok (N.shiftl (N.land a 15) 2) = true.
Proof.
  intros Ha Hb.
  assert (H3 : (N.shiftl (N.land a 3) 4 < 64)%N)
    by (change 3%N with (N.ones 2); apply (shiftl_lt _ 4 2), land_ones_lt).
  assert (H15 : (N.shiftl (N.land a 15) 2 < 64)%N)
    by (change 15%N with (N.ones 4); apply (shiftl_lt _ 2 4), land_ones_lt).
  assert (Hb4 : (N.shiftr b 4 < 64)%N).
  { pose proof (shiftr_lt b 4 4 Hb) as Hlt. change (2 ^ 4)%N with 16%N in Hlt. lia. }
  assert (Hb6 : (N.shiftr b 6 < 64)%N).
  { pose proof (shiftr_lt b 6 2 Hb) as Hlt. change (2 ^ 2)%N with 4%N in Hlt. lia. }
  split_and!; apply digit_ok_lt.
  - apply (shiftr_lt a 2 6 Ha).
  - by apply (lor_lt_pow2 _ _ 6).
  - by apply (lor_lt_pow2 _ _ 6).
  - change 63%N with (N.ones 6). apply land_ones_lt.
  - done.
  - done.
Qed.

(** The output of [base64]: digits of the alphabet, then padding. *)
Lemma base64_shape (bytes : list N) :
  Forall (fun b => (b < 256)%N) bytes ->
  exists body pad, base64 bytes = body +:+ pad /\
    str_forall is_base64 body = true /\ str_forall is_pad pad = true /\
    String.length body = ((4 * length bytes + 2) / 3)%nat.
Proof.
  induction bytes as [|a|a b|a b c l IH] using list_ind3; intros Hall.
  - exists "", "". done.
  - apply Forall_cons in Hall as [Ha _].
    destruct (byte_sextets a a Ha Ha) as (H1 & _ & _ & _ & H5 & _).
    eexists (String _ (String _ "")), "==". split; [reflexivity|].
    unfold digit_ok in *. simpl. by rewrite H1, H5.
  - apply Forall_cons in Hall as [Ha Hall]. apply Forall_cons in Hall as [Hb _].
    destruct (byte_sextets a b Ha Hb) as (H1 & H2 & _).
    destruct (byte_sextets b b Hb Hb) as (_ & _ & _ & _ & _ & H6).
    eexists (String _ (String _ (String _ ""))), "=". split; [reflexivity|].
    unfold digit_ok in *. simpl. by rewrite H1, H2, H6.
  - apply Forall_cons in Hall as [Ha Hall]. apply Forall_cons in Hall as [Hb Hall].
    apply Forall_cons in Hall as [Hc Hall].
    destruct (IH Hall) as (body & pad & Heq & Hbody & Hpad & Hlen).
    destruct (byte_sextets a b Ha Hb) as (H1 & H2 & _).
    destruct (byte_sextets b c Hb Hc) as (_ & _ & H3 & _).
    destruct (byte_sextets c c Hc Hc) as (_ & _ & _ & H4 & _).
    eexists (String _ (String _ (String _ (String _ body)))), pad.
    split_and!.
    + cbn [base64]. rewrite Heq. by rewrite !str_app_cons.
    + unfold digit_ok in *. simpl. by rewrite H1, H2, H3, H4.
    + done.
    + cbn [String.length length]. rewrite Hlen.
      replace (4 * S (S (S (length l))) + 2)%nat with (4 * length l + 2 + 4 * 3)%nat by lia.
      rewrite Nat.div_add by done. lia.
Qed.

Lemma to_url_char (c : ascii) :
  is_base64 c = true ->
  is_base64url ((fun c => if Ascii.eqb c "/" then "_"%char else c)
                  ((fun c => if Ascii.eqb c "+" then "-"%char else c) c)) = true.
Proof.
  destruct c as [[] [] [] [] [] [] [] []]; intros Hc; try discriminate Hc; reflexivity.
Qed.

Lemma url_char_not_pad (c : ascii) : is_base64url c = true -> negb (is_pad c) = true.
Proof.
  destruct c as [[] [] [] [] [] [] [] []]; intros Hc; try discriminate Hc; reflexivity.
Qed.

Lemma str_forall_map (p q : ascii -> bool) (f : ascii -> ascii) (s : string) :
  (forall c, p c = true -> q (f c) = true) ->
  str_forall p s = true -> str_forall q (str_map f s) = true.
Proof.
  intros Hf. induction s as [|c s IH]; simpl; [done|].
  intros [Hc Hs]%andb_true_iff. by rewrite (Hf c Hc), IH.
Qed.

Lemma str_map_pad (f : ascii -> ascii) (pad : string) :
  f "="%char = "="%char -> str_forall is_pad pad = true -> str_map f pad = pad.
Proof.
  intros Hf. induction pad as [|c pad IH]; simpl; [done|].
  intros [Hc Hs]%andb_true_iff. unfold is_pad in Hc. apply Ascii.eqb_eq in Hc as <-.
  by rewrite Hf, IH.
Qed.

Lemma values_checked :
  forallb (fun v => N.eqb (url_value (url_char (base64_digit (N.of_nat v)))) (N.of_nat v))
          (seq 0 64) = true.
Proof. vm_compute. reflexivity. Qed.

Lemma url_value_digit (v : N) : (v < 64)%N -> url_value (url_char (base64_digit v)) = v.
Proof.
  intros Hv. pose proof (proj1 (forallb_forall _ _) values_checked (N.to_nat v)) as Hall.
  cbv beta in Hall. rewrite N2Nat.id in Hall. apply N.eqb_eq, Hall, in_seq. lia.
Qed.

Section Sextets.
Local Open Scope N_scope.

Lemma lor_checked_4 :
  forallb (fun x => forallb (fun y =>
      N.eqb (N.lor (N.shiftl (N.of_nat x) 4) (N.of_nat y)) (N.of_nat x * 16 + N.of_nat y))
    (seq 0 16)) (seq 0 4) = true.
Proof. vm_compute. reflexivity. Qed.

Lemma lor_checked_2 :
  forallb (fun x => forallb (fun y =>
      N.eqb (N.lor (N.shiftl (N.of_nat x) 2) (N.of_nat y)) (N.of_nat x * 4 + N.of_nat y))
    (seq 0 4)) (seq 0 16) = true.
Proof. vm_compute. reflexivity. Qed.

Lemma lor_shiftl_4 (x y : N) : x < 4 -> y < 16 -> N.lor (N.shiftl x 4) y = x * 16 + y.
Proof.
  intros Hx Hy. pose proof lor_checked_4 as Hall. rewrite forallb_forall in Hall.
  specialize (Hall (N.to_nat x)). rewrite forallb_forall in Hall.
  assert (Hin : In (N.to_nat x) (seq 0 4)) by (apply in_seq; lia).
  assert (Hin' : In (N.to_nat y) (seq 0 16)) by (apply in_seq; lia).
  specialize (Hall Hin (N.to_nat y) Hin'). rewrite !N2Nat.id in Hall. by apply N.eqb_eq in Hall.
Qed.

Lemma lor_shiftl_2 (x y : N) : x < 16 -> y < 4 -> N.lor (N.shiftl x 2) y = x * 4 + y.
Proof.
  intros Hx Hy. pose proof lor_checked_2 as Hall. rewrite forallb_forall in Hall.
  specialize (Hall (N.to_nat x)). rewrite forallb_forall in Hall.
  assert (Hin : In (N.to_nat x) (seq 0 16)) by (apply in_seq; lia).
  assert (Hin' : In (N.to_nat y) (seq 0 4)) by (apply in_seq; lia).
  specialize (Hall Hin (N.to_nat y) Hin'). rewrite !N2Nat.id in Hall. by apply N.eqb_eq in Hall.
Qed.

(** The four sextets of three bytes, in arithmetic. *)
Lemma sextet_1 (a : N) : N.shiftr a 2 = a / 4.
Proof. by rewrite N.shiftr_div_pow2. Qed.

Lemma sextet_2 (a b : N) : b < 256 ->
  N.lor (N.shiftl (N.land a 3) 4) (N.shiftr b 4) = (a mod 4) * 16 + b / 16.
Proof.
  intros Hb. change 3 with (N.ones 2). rewrite N.land_ones, N.shiftr_div_pow2.
  change (2 ^ 2) with 4. change (2 ^ 4) with 16. apply lor_shiftl_4.
  - by apply N.mod_lt.
  - by apply N.Div0.div_lt_upper_bound.
Qed.

Lemma sextet_3 (b c : N) : c < 256 ->
  N.lor (N.shiftl (N.land b 15) 2) (N.shiftr c 6) = (b mod 16) * 4 + c / 64.
Proof.
  intros Hc. change 15 with (N.ones 4). rewrite N.land_ones, N.shiftr_div_pow2.
  change (2 ^ 4) with 16. change (2 ^ 6) with 64. apply lor_shiftl_2.
  - by apply N.mod_lt.
  - by apply N.Div0.div_lt_upper_bound.
Qed.

Lemma sextet_4 (c : N) : N.land c 63 = c mod 64.
Proof. change 63 with (N.ones 6). by rewrite N.land_ones. Qed.

Lemma sextet_2_last (a : N) : N.shiftl (N.land a 3) 4 = (a mod 4) * 16.
Proof. change 3 with (N.ones 2). by rewrite N.land_ones, N.shiftl_mul_pow2. Qed.

Lemma sextet_3_last (b : N) : N.shiftl (N.land b 15) 2 = (b mod 16) * 4.
Proof. change 15 with (N.ones 4). by rewrite N.land_ones, N.shiftl_mul_pow2. Qed.

Lemma byte_1 (a y : N) : y < 16 -> a / 4 * 4 + (a mod 4 * 16 + y) / 16 = a.
Proof.
  intros Hy. rewrite N.div_add_l by done. rewrite (N.div_small y 16) by done.
  pose proof (N.div_mod' a 4). lia.
Qed.

Lemma byte_2 (x b y : N) : b < 256 -> y < 4 ->
  (x * 16 + b / 16) mod 16 * 16 + (b mod 16 * 4 + y) / 4 = b.
Proof.
  intros Hb Hy. rewrite (N.add_comm (x * 16)), N.Div0.mod_add.
  rewrite (N.mod_small (b / 16) 16) by (by apply N.Div0.div_lt_upper_bound).
  rewrite N.div_add_l by done. rewrite (N.div_small y 4) by done.
  pose proof (N.div_mod' b 16). lia.
Qed.

Lemma byte_3 (x c : N) : c < 256 -> (x * 4 + c / 64) mod 4 * 64 + c mod 64 = c.
Proof.
  intros Hc. rewrite (N.add_comm (x * 4)), N.Div0.mod_add.
  rewrite (N.mod_small (c / 64) 4) by (by apply N.Div0.div_lt_upper_bound).
  pose proof (N.div_mod' c 64). lia.
Qed.

End Sextets.

Lemma url_map_char (s : string) :
  str_map (fun c => if Ascii.eqb c "/" then "_"%char else c)
    (str_map (fun c => if Ascii.eqb c "+" then "-"%char else c) s) = str_map url_char s.
Proof. induction s as [|c s IH]; simpl; [done|]. by rewrite IH. Qed.

(** What the three [replace] calls make of digits followed by padding. *)
Lemma base64url_strip (bytes : list N) (body pad : string) :
  base64 bytes = body +:+ pad ->
  str_forall is_base64 body = true -> str_forall is_pad pad = true ->
  base64url bytes = str_map url_char body.
Proof.
  intros Heq Hbody Hpad. unfold base64url. rewrite Heq, !str_map_app.
  rewrite (str_map_pad _ pad) by done. rewrite (str_map_pad _ pad) by done.
  rewrite url_map_char. change (Ascii.eqb "=") with is_pad.
  apply strip_trailing; [|done].
  eapply str_forall_impl; [apply url_char_not_pad|].
  eapply str_forall_map; [|exact Hbody]. intros c Hc. by apply to_url_char.
Qed.

(** Reading the token gives back the bytes it was made from. *)
Lemma base64url_decode_encode (bytes : list N) :
  Forall (fun b => (b < 256)%N) bytes -> base64url_decode (base64url bytes) = bytes.
Proof.
  induction bytes as [|a|a b|a b c l IH] using list_ind3; intros Hall.
  - done.
  - apply Forall_cons in Hall as [Ha _].
    destruct (byte_sextets a a Ha Ha) as (H1 & _ & _ & _ & H5 & _).
    rewrite (base64url_strip [a] (String (base64_digit (N.shiftr a 2))
               (String (base64_digit (N.shiftl (N.land a 3) 4)) "")) "==");
      [|done | unfold digit_ok in *; simpl; by rewrite H1, H5 | done].
    cbn [str_map base64url_decode].
    rewrite !url_value_digit.
    + rewrite sextet_1, sextet_2_last. f_equal.
      pose proof (byte_1 a 0) as Hb. rewrite N.add_0_r in Hb. by apply Hb.
    + rewrite sextet_2_last. pose proof (N.mod_lt a 4). lia.
    + rewrite sextet_1. apply N.Div0.div_lt_upper_bound. lia.
  - apply Forall_cons in Hall as [Ha Hall]. apply Forall_cons in Hall as [Hb _].
    destruct (byte_sextets a b Ha Hb) as (H1 & H2 & _).
    destruct (byte_sextets b b Hb Hb) as (_ & _ & _ & _ & _ & H6).
    rewrite (base64url_strip [a; b] (String (base64_digit (N.shiftr a 2))
               (String (base64_digit (N.lor (N.shiftl (N.land a 3) 4) (N.shiftr b 4)))
                  (String (base64_digit (N.shiftl (N.land b 15) 2)) ""))) "=");
      [|done | unfold digit_ok in *; simpl; by rewrite H1, H2, H6 | done].
    cbn [str_map base64url_decode].
    assert (Hq : (b / 16 < 16)%N) by (by apply N.Div0.div_lt_upper_bound).
    rewrite !url_value_digit.
    + rewrite sextet_1, sextet_2, sextet_3_last by done. f_equal; [by apply byte_1|]. f_equal.
      pose proof (byte_2 (a mod 4) b 0 Hb) as Hx. rewrite N.add_0_r in Hx. by apply Hx.
    + rewrite sextet_3_last. pose proof (N.mod_lt b 16). lia.
    + rewrite sextet_2 by done. pose proof (N.mod_lt a 4). lia.
    + rewrite sextet_1. apply N.Div0.div_lt_upper_bound. lia.
  - apply Forall_cons in Hall as [Ha Hall]. apply Forall_cons in Hall as [Hb Hall].
    apply Forall_cons in Hall as [Hc Hall].
    destruct (base64_shape l Hall) as (body & pad & Heq & Hbody & Hpad & _).
    destruct (byte_sextets a b Ha Hb) as (H1 & H2 & _).
    destruct (byte_sextets b c Hb Hc) as (_ & _ & H3 & _).
    destruct (byte_sextets c c Hc Hc) as (_ & _ & _ & H4 & _).
    specialize (IH Hall). rewrite (base64url_strip l body pad) in IH by done.
    rewrite (base64url_strip (a :: b :: c :: l)
               (String (base64_digit (N.shiftr a 2))
                  (String (base64_digit (N.lor (N.shiftl (N.land a 3) 4) (N.shiftr b 4)))
                     (String (base64_digit (N.lor (N.shiftl (N.land b 15) 2) (N.shiftr c 6)))
                        (String (base64_digit (N.land c 63)) body)))) pad);
      [|cbn [base64]; rewrite Heq; by rewrite !str_app_cons
       |unfold digit_ok in *; simpl; by rewrite H1, H2, H3, H4 | done].
    cbn [str_map base64url_decode]. rewrite IH.
    assert (Hq : (b / 16 < 16)%N) by (by apply N.Div0.div_lt_upper_bound).
    assert (Hq' : (c / 64 < 4)%N) by (by apply N.Div0.div_lt_upper_bound).
    rewrite !url_value_digit.
    + rewrite sextet_1, sextet_2, sextet_3, sextet_4 by done.
      f_equal; [by apply byte_1|]. f_equal; [by apply byte_2|]. f_equal. by apply byte_3.
    + rewrite sextet_4. pose proof (N.mod_lt c 64). lia.
    + rewrite sextet_3 by done. pose proof (N.mod_lt b 16). lia.
    + rewrite sextet_2 by done. pose proof (N.mod_lt a 4). lia.
    + rewrite sextet_1. apply N.Div0.div_lt_upper_bound. lia.
Qed.

Section TokenShape.
Context `{Entropy}.

(** The token made from [n] bytes. *)
Lemma base64url_shape (bytes : list N) :
  Forall (fun b => (b < 256)%N) bytes ->
  str_forall is_base64url (base64url bytes) = true /\
  String.length (base64url bytes) = ((4 * length bytes + 2) / 3)%nat.
Proof.
  intros Hall. destruct (base64_shape bytes Hall) as (body & pad & Heq & Hbody & Hpad & Hlen).
  unfold base64url. rewrite Heq, !str_map_app.
  rewrite (str_map_pad _ pad) by done. rewrite (str_map_pad _ pad) by done.
  set (body' := str_map _ (str_map _ body)).
  assert (Hurl : str_forall is_base64url body' = true).
  { subst body'. eapply str_forall_map; [|eapply str_forall_map; [|exact Hbody]].
    - intros c Hc. exact Hc.
    - intros c Hc. by apply to_url_char. }
  change (Ascii.eqb "=") with is_pad.
  rewrite (strip_trailing is_pad body' pad); [| |done].
  - split; [done|]. subst body'. by rewrite !str_length_map.
  - eapply str_forall_impl; [|exact Hurl]. apply url_char_not_pad.
Qed.

End TokenShape.

Lemma url_char_ascii (c : ascii) :
  is_base64url c = true -> utf8_of_char c = String c "" /\ is_space_latin1 c = false.
Proof.
  destruct c as [[] [] [] [] [] [] [] []]; intros Hc; try discriminate Hc; split; reflexivity.
Qed.

Lemma url_token_utf8 (t : string) : str_forall is_base64url t = true -> utf8_of_latin1 t = t.
Proof.
  induction t as [|c t IH]; simpl; [done|]. intros [Hc Ht]%andb_true_iff.
  destruct (url_char_ascii c Hc) as [-> _]. by rewrite str_app_cons, str_app_nil_l, IH.
Qed.

Lemma url_token_trim (t : string) : str_forall is_base64url t = true -> trim_latin1 t = t.
Proof.
  intros Ht.
  assert (Hns : str_forall (fun c => negb (is_space_latin1 c)) t = true).
  { eapply str_forall_impl; [|exact Ht]. intros c Hc.
    by destruct (url_char_ascii c Hc) as [_ ->]. }
  unfold trim_latin1. rewrite (drop_while_none _ t) by done.
  rewrite drop_while_none by (by rewrite str_forall_rev). apply str_rev_involutive.
Qed.

Lemma str_drop_app (p s : string) : str_drop (String.length p) (p +:+ s) = s.
Proof. induction p as [|c p IH]; [done|]. rewrite str_app_cons. simpl. exact IH. Qed.

Lemma sessSetKey_not_tokenKey (id t : string) : sessSetKey id <> tokenKey t.
Proof. unfold sessSetKey, tokenKey. rewrite !str_app_cons. discriminate. Qed.

Lemma tokenKey_inj (a b : string) : tokenKey a = tokenKey b -> a = b.
Proof. unfold tokenKey. rewrite !str_app_cons, !str_app_nil_l. by intros [= ->]. Qed.

Section Tokens.
Context `{Env} `{Platform} `{Entropy} `{AuthConfig}.

Lemma draw_bytes_bytes (n : nat) (w : World) :
  exists bytes w', draw_bytes n w = (inr bytes, w') /\
    Forall (fun b => (b < 256)%N) bytes /\ length bytes = n /\
    redis_budget w' = redis_budget w /\ db w' = db w /\ cmds w' = cmds w /\
    sessions w' = sessions w /\ heap w' = heap w /\ socks w' = socks w /\
    timers w' = timers w /\ fresh w' = fresh w /\ logs w' = logs w.
Proof.
  unfold draw_bytes. eexists _, _. split; [reflexivity|]. split_and!.
  - apply Forall_forall. intros b Hb. apply list_elem_of_In, in_map_iff in Hb as (i & <- & _).
    change 255%N with (N.ones 8). apply (land_ones_lt _ 8).
  - by rewrite length_map, length_seq.
  - induction n as [|n IH]; [done | exact IH].
  - induction n as [|n IH]; [done | exact IH].
  - induction n as [|n IH]; [done | exact IH].
  - induction n as [|n IH]; [done | exact IH].
  - induction n as [|n IH]; [done | exact IH].
  - induction n as [|n IH]; [done | exact IH].
  - induction n as [|n IH]; [done | exact IH].
  - induction n as [|n IH]; [done | exact IH].
  - induction n as [|n IH]; [done | exact IH].
Qed.

Lemma draw_bytes_entropy (n : nat) (w : World) :
  (draw_bytes n w).1 = inr (map (fun i => N.land (random_byte (entropy w + i)) 255) (seq 0 n)) /\
  entropy (draw_bytes n w).2 = (entropy w + n)%nat.
Proof.
  unfold draw_bytes. cbn [fst snd]. split; [done|].
  induction n as [|n IH]; [cbn; lia|].
  change (Nat.iter (S n) bump_entropy w) with (bump_entropy (Nat.iter n bump_entropy w)).
  cbn [bump_entropy entropy]. rewrite IH. lia.
Qed.

(** X3.  The bearer token generator.  [genToken(n)] always returns, and
    what it returns is the unpadded base64url text of the [n] bytes it
    drew from the random source: read back as base64url (RFC 4648,
    section 5) the token gives exactly those bytes, in order, and the
    source has advanced by [n].  The token has [ceil(4n/3)] characters,
    each of them a letter, a digit, [-] or [_], so none of [+], [/] and
    [=].  Neither the store nor the registry is touched. *)
Theorem genToken64_shape (n : nat) (w : World) :
  exists token w', genToken64 n w = (inr token, w') /\
    base64url_decode token
      = map (fun i => N.land (random_byte (entropy w + i)) 255) (seq 0 n) /\
    entropy w' = (entropy w + n)%nat /\
    String.length token = ((4 * n + 2) / 3)%nat /\
    str_forall is_base64url token = true /\
    db w' = db w /\ sessions w' = sessions w.
Proof.
  unfold genToken64. rewrite bind_run.
  destruct (draw_bytes_entropy n w) as [Hbytes Hent].
  destruct (draw_bytes_bytes n w)
    as (bytes & w' & Hdraw & Hb & Hlen & _ & Hdb & _ & Hs & _).
  rewrite Hdraw in Hbytes, Hent. cbn [fst snd] in Hbytes, Hent. injection Hbytes as Hbytes.
  rewrite Hdraw. destruct (base64url_shape bytes Hb) as [Hurl Hl].
  exists (base64url bytes), w'. unfold ret. split_and!; try done.
  - rewrite base64url_decode_encode by done. exact Hbytes.
  - by rewrite Hl, Hlen.
Qed.

Lemma redis_set_up k v w :
  redis_budget w = None ->
  redis_set k v w = (inr tt, set_db <[k := mkEntry (VStr v) None]> (add_cmd (CSet k v) w)).
Proof. intros Hup. unfold redis_set. munfold. by rewrite send_up by done. Qed.

Lemma redis_sadd_up k member w :
  redis_budget w = None ->
  redis_sadd k member w =
    match db w !! k with
    | None => (inr 1, set_db <[k := mkEntry (VSet {[ member ]}) None]> w)
    | Some (mkEntry (VSet m) ttl) =>
        (inr (if bool_decide (member ∈ m) then 0 else 1),
         set_db <[k := mkEntry (VSet ({[ member ]} ∪ m)) ttl]> w)
    | Some (mkEntry (VStr _) _) => (inl wrongtype, w)
    end.
Proof.
  intros Hup. unfold redis_sadd, contact. munfold. rewrite Hup.
  by destruct (db w !! k) as [[[v|m] ttl]|].
Qed.

(** What a successful [createSessionTokenPair] leaves. *)
Lemma createSessionTokenPair_up (sessionId : option string) (w : World) :
  redis_budget w = None ->
  let id := default (randomUUID (entropy w)) sessionId in
  (forall v ttl, db w !! sessSetKey id <> Some (mkEntry (VStr v) ttl)) ->
  exists token w',
    createSessionTokenPair sessionId w = (inr (id, token), w') /\
    String.length token = 43%nat /\ str_forall is_base64url token = true /\
    redis_budget w' = None /\
    db w' !! tokenKey token = Some (mkEntry (VStr id) None) /\
    (exists m ttl, db w' !! sessSetKey id = Some (mkEntry (VSet m) ttl) /\ token ∈ m /\
       forall m0 ttl0, db w !! sessSetKey id = Some (mkEntry (VSet m0) ttl0) ->
         ttl = ttl0 /\ m = {[ token ]} ∪ m0) /\
    (forall k, k <> tokenKey token -> k <> sessSetKey id -> db w' !! k = db w !! k) /\
    sessions w' = sessions w /\ heap w' = heap w /\ socks w' = socks w /\
    timers w' = timers w /\ fresh w' = fresh w.
Proof.
  intros Hup id Hset. unfold createSessionTokenPair.
  set (w0 := match sessionId with Some _ => w | None => bump_entropy w end).
  assert (Hid : match sessionId with Some id => ret id | None => draw_uuid end w = (inr id, w0)).
  { subst id w0. by destruct sessionId. }
  rewrite bind_run, Hid.
  assert (Hw0 : redis_budget w0 = None /\ db w0 = db w /\ sessions w0 = sessions w /\
               heap w0 = heap w /\ socks w0 = socks w /\ timers w0 = timers w /\
               fresh w0 = fresh w) by (subst w0; by destruct sessionId).
  destruct Hw0 as (Hup0 & Hdb0 & Hs0 & Hh0 & Hk0 & Ht0 & Hf0).
  unfold genToken64. rewrite !bind_run.
  destruct (draw_bytes_bytes 32 w0)
    as (bytes & w1 & -> & Hb & Hlen & Hup1 & Hdb1 & _ & Hs1 & Hh1 & Hk1 & Ht1 & Hf1 & _).
  destruct (base64url_shape bytes Hb) as [Hurl Hl]. rewrite Hlen in Hl.
  cbv beta iota. unfold ret at 1. cbv beta iota. set (token := base64url bytes) in *.
  rewrite bind_run, redis_set_up by congruence.
  rewrite bind_run, redis_sadd_up by (cbn; congruence).
  cbn [db set_db add_cmd]. rewrite lookup_insert_ne by (apply not_eq_sym, sessSetKey_not_tokenKey).
  rewrite Hdb1, Hdb0.
  destruct (db w !! sessSetKey id) as [[[v|m] ttl]|] eqn:Hs.
  - by destruct (Hset v ttl).
  - eexists token, _. split; [reflexivity|]. cbn. split_and!; try done; try congruence.
    + rewrite lookup_insert_ne by (apply sessSetKey_not_tokenKey). by rewrite lookup_insert_eq.
    + exists ({[ token ]} ∪ m), ttl. rewrite lookup_insert_eq. split_and!; [done | set_solver |].
      by intros m0 ttl0 [= <- <-].
    + intros k Hk1' Hk2. rewrite !lookup_insert_ne by done. by rewrite Hdb1, Hdb0.
  - eexists token, _. split; [reflexivity|]. cbn. split_and!; try done; try congruence.
    + rewrite lookup_insert_ne by (apply sessSetKey_not_tokenKey). by rewrite lookup_insert_eq.
    + exists {[ token ]}, None. rewrite lookup_insert_eq. split_and!; [done | set_solver | done].
    + intros k Hk1' Hk2. rewrite !lookup_insert_ne by done. by rewrite Hdb1, Hdb0.
Qed.

Lemma parseBearer_token (t : string) :
  str_nonempty t = true -> str_forall is_base64url t = true ->
  (7 + String.length t <= AUTH_TOKEN_LEN)%nat ->
  parseBearer (Some ("Bearer " +:+ t)) = BearerToken t.
Proof.
  intros Hne Hurl Hlen. unfold parseBearer.
  assert (Hl : String.length ("Bearer " +:+ t) = (7 + String.length t)%nat)
    by (by rewrite str_length_app).
  rewrite Hl. destruct (Nat.ltb_spec AUTH_TOKEN_LEN (7 + String.length t)); [lia|].
  unfold starts_with. rewrite strip_prefix_app.
  change 7%nat with (String.length "Bearer "). rewrite str_drop_app.
  rewrite url_token_trim by done. by rewrite Hne.
Qed.

Lemma getSessionIdByToken_up (t : string) (w : World) :
  redis_budget w = None ->
  getSessionIdByToken t w = redis_get (tokenKey t) w.
Proof. done. Qed.

(** X4.  An issued token authenticates.  When the store answers, the
    session id (the one given, or else the UUID drawn) is not the empty
    string, the token index of that session does not hold a plain string,
    and [AUTH_TOKEN_LEN] is at least 50 (the header is [Bearer ] followed
    by 43 characters), then [createSessionTokenPair] returns the id with a
    token; afterwards [getSessionIdByToken] maps that token to the id, and
    the middleware hands a request carrying [Authorization: Bearer <token>]
    on with that session id and token. *)
Theorem issued_token_authenticates (sessionId : option string) (w : World) :
  redis_budget w = None ->
  let id := default (randomUUID (entropy w)) sessionId in
  id <> "" ->
  (forall v ttl, db w !! sessSetKey id <> Some (mkEntry (VStr v) ttl)) ->
  (50 <= AUTH_TOKEN_LEN)%nat ->
  exists token w',
    createSessionTokenPair sessionId w = (inr (id, token), w') /\
    (getSessionIdByToken token w').1 = inr (Some id) /\
    (requireAuthToken (Some ("Bearer " +:+ token)) w').1 = AuthNext id token.
Proof.
  intros Hup id Hid Hset Hlen.
  destruct (createSessionTokenPair_up sessionId w Hup Hset)
    as (token & w' & Hrun & Hl & Hurl & Hup' & Htok & _).
  exists token, w'. split; [exact Hrun|].
  assert (Hget : getSessionIdByToken token w' = (inr (Some id), add_cmd (CGet (tokenKey token)) w')).
  { unfold getSessionIdByToken. rewrite redis_get_up by done. by rewrite Htok. }
  split; [by rewrite Hget|].
  unfold requireAuthToken. rewrite parseBearer_token; [| |done|lia].
  2:{ destruct token; [done | done]. }
  unfold TokenSchema. rewrite Hl. cbn [Nat.leb negb andb].
  rewrite url_token_utf8 by done. rewrite Hget. cbn.
  destruct id; [done | done].
Qed.

End Tokens.

(** ** What the session layer writes to the store *)

Section Footprint.
Context `{Env} `{Platform}.

Lemma took_lock_refl sid d : took_lock sid d d.
Proof. by left. Qed.

Lemma took_lock_eq sid d d' d'' : took_lock sid d d' -> d'' = d' -> took_lock sid d d''.
Proof. by intros Ht ->. Qed.

Lemma acquire_db sid w :
  took_lock sid (db w) (db (acquireSessionLock sid w).2) /\
  forall l, (acquireSessionLock sid w).1 = inr (Some l) ->
    lk_key l = lockKey sid /\
    db (acquireSessionLock sid w).2 !! lockKey sid
      = Some (mkEntry (VStr (lk_token l)) (Some LOCK_TTL_MS)).
Proof.
  unfold acquireSessionLock, draw_uuid, redis_set_px_nx, send, alloc_timer. munfold. cbn.
  destruct (redis_budget w) as [[|n]|]; cbn.
  - split; [by left | done].
  - destruct (db w !! lockKey sid) eqn:Hk; cbn.
    + split; [by left | done].
    + split; [right; eauto|]. intros l [= <-]. cbn. by rewrite lookup_insert_eq.
  - destruct (db w !! lockKey sid) eqn:Hk; cbn.
    + split; [by left | done].
    + split; [right; eauto|]. intros l [= <-]. cbn. by rewrite lookup_insert_eq.
Qed.

Lemma ensure_lock_db sid existing w :
  took_lock sid (db w) (db (ensure_lock sid existing w).2).
Proof.
  unfold ensure_lock. destruct (existing ≫= _); [by left|].
  rewrite bind_run. destruct (acquire_db sid w) as [Hd _].
  destruct (acquireSessionLock sid w) as [[e|[l|]] w1]; cbn [fst snd] in *; munfold; cbn; done.
Qed.

Lemma detach_old_db sid force existing w : db (detach_old sid force existing w).2 = db w.
Proof.
  unfold detach_old. destruct force; [|done]. destruct (existing ≫= _); [|done].
  munfold. cbn. by destruct (sessions w !! sid).
Qed.

Lemma useRedisAuth_db sid logger w : db (useRedisAuth sid logger w).2 = db w.
Proof.
  unfold useRedisAuth, redis_get, send, init_creds. munfold. cbn.
  destruct (redis_budget w) as [[|n]|]; cbn; try done;
    destruct (db w !! kCreds sid) as [[[v|m] ttl]|]; cbn; try done;
    destruct (str_nonempty v); cbn; try done;
    destruct (JSON_parse v); cbn; try done; by destruct logger.
Qed.

Lemma install_socket_db sid w : db (install_socket sid w).2 = db w.
Proof. unfold install_socket. munfold. done. Qed.

Lemma createSession_db (sessionId : string) (force : bool) (w : World) :
  took_lock sessionId (db w) (db (createSession sessionId force w).2).
Proof.
  rewrite createSession_unfold.
  destruct (returns_existing _ _); [by left|].
  pose proof (ensure_lock_db sessionId (lookup_entry sessionId w) w) as H1.
  destruct (ensure_lock _ _ w) as [[e|[]] w1]; cbn [fst snd] in *; [done|].
  pose proof (detach_old_db sessionId force (lookup_entry sessionId w) w1) as H2.
  destruct (detach_old_ok sessionId force (lookup_entry sessionId w) w1) as [w2 Hdet].
  rewrite Hdet in *. cbn [fst snd] in *.
  pose proof (useRedisAuth_db sessionId true w2) as H3.
  destruct (useRedisAuth sessionId true w2) as [[e|c] w3]; cbn [fst snd] in *.
  - eapply took_lock_eq; [exact H1 | congruence].
  - eapply took_lock_eq; [exact H1|]. rewrite install_socket_db. congruence.
Qed.

Lemma getSession_db (sessionId : string) (w : World) :
  took_lock sessionId (db w) (db (getSession sessionId w).2).
Proof.
  unfold getSession. destruct (sessions w !! sessionId); [by left|].
  pose proof (createSession_db sessionId false w) as Hc.
  by destruct (createSession sessionId false w) as [[e|r] w1].
Qed.

(** X5.  The store footprint of session creation.  Whatever the state,
    the availability of the store and the outcome (a record, or an error),
    [createSession] and the lazy restore in [getSession] change at most one
    key of the store: either the store is as it was, or the lock key of the
    session was absent and now holds a token with the configured TTL.  No
    credential, token or other lock is written or deleted. *)
Theorem createSession_store_footprint (sessionId : string) (force : bool) (w : World) :
  took_lock sessionId (db w) (db (createSession sessionId force w).2) /\
  took_lock sessionId (db w) (db (getSession sessionId w).2).
Proof. split; [apply createSession_db | apply getSession_db]. Qed.

End Footprint.

Section RestoreFootprint.
Context `{Env} `{Platform}.

Lemma only_locks_refl ids d : only_locks_added ids d d.
Proof. split; [done|]. intros k e Hn Hs. congruence. Qed.

Lemma only_locks_trans ids d1 d2 d3 :
  only_locks_added ids d1 d2 -> only_locks_added ids d2 d3 -> only_locks_added ids d1 d3.
Proof.
  intros [K1 N1] [K2 N2]. split; [eauto|].
  intros k e Hn Hs. destruct (d2 !! k) as [e2|] eqn:H2.
  - rewrite (K2 _ _ H2) in Hs. injection Hs as <-. eauto.
  - eauto.
Qed.

Lemma only_locks_mono ids ids' d d' :
  (forall id, id ∈ ids -> id ∈ ids') -> only_locks_added ids d d' -> only_locks_added ids' d d'.
Proof.
  intros Hsub [K N]. split; [done|]. intros k e Hn Hs.
  destruct (N k e Hn Hs) as (id & token & Hid & ? & ?). eauto 6.
Qed.

Lemma took_lock_only sid d d' : took_lock sid d d' -> only_locks_added [sid] d d'.
Proof.
  intros [->|(Hfree & token & ->)]; [apply only_locks_refl|]. split.
  - intros k e Hk. rewrite lookup_insert_ne; [done|]. intros <-. congruence.
  - intros k e Hn Hs. apply lookup_insert_Some in Hs as [[<- <-]|[_ Hs]]; [|congruence].
    exists sid, token. split_and!; [by left | done | done].
Qed.

Lemma attempts_db id n a w : only_locks_added [id] (db w) (db (attempts id n a w).2).
Proof.
  revert a w. induction n as [|n IH]; intros a w; cbn [attempts]; [apply only_locks_refl|].
  pose proof (took_lock_only _ _ _ (createSession_db id false w)) as Hstep.
  destruct (createSession id false w) as [[e|r] w1]; cbn [fst snd] in *; [|done].
  case_bool_decide; [destruct (a <? RETRIES)|]; cbn [fst snd]; try done.
  eapply only_locks_trans; [exact Hstep | apply IH].
Qed.

Lemma restore_one_db locked id st :
  only_locks_added [id] (db st.2) (db (restore_one locked id st).2).
Proof.
  destruct st as [restored w]. unfold restore_one. case_bool_decide; [apply only_locks_refl|].
  pose proof (attempts_db id (Z.to_nat (RETRIES + 1)) 0 w) as Hstep.
  by destruct (attempts id _ 0 w) as [[|] w1].
Qed.

Lemma restore_fold_db locked l st :
  only_locks_added l (db st.2)
    (db (foldl (fun st id => restore_one locked id st) st l).2).
Proof.
  revert st. induction l as [|id l IH]; intros st; cbn [foldl]; [apply only_locks_refl|].
  eapply only_locks_trans.
  - eapply only_locks_mono; [|apply (restore_one_db locked id st)].
    intros x Hx. apply list_elem_of_singleton in Hx as ->. by left.
  - eapply only_locks_mono; [|apply IH]. intros x Hx. by right.
Qed.

Lemma scan_db p w :
  db (redis_scan_all p w).2 = db w /\
  forall keys, (redis_scan_all p w).1 = inr keys -> keys = keys_matching p (db w).
Proof.
  unfold redis_scan_all, send. munfold.
  destruct (redis_budget w) as [[|n]|]; cbn; split; try done; by intros keys [= <-].
Qed.

(** X6.  The store footprint of the restore scanner.  Whatever the state
    and the availability of the store, [restoreAllSessionsFromRedis] keeps
    every entry of the store as it is, and each key it adds is the lock key
    of one of the ids found by the scan, holding a token with the
    configured TTL. *)
Theorem restoreAll_only_adds_locks (w : World) :
  only_locks_added (candidates (db w)) (db w) (db (restoreAllSessionsFromRedis w).2).
Proof.
  unfold restoreAllSessionsFromRedis, scanKeys.
  rewrite bind_run. destruct (scan_db "sess:*:tokens" w) as [D1 K1].
  destruct (redis_scan_all "sess:*:tokens" w) as [[e|keys1] w1]; cbn [fst snd] in *.
  { rewrite D1. apply only_locks_refl. }
  rewrite (K1 _ eq_refl). clear K1.
  rewrite bind_run. destruct (scan_db "baileys:*:creds" w1) as [D2 K2].
  destruct (redis_scan_all "baileys:*:creds" w1) as [[e|keys2] w2]; cbn [fst snd] in *.
  { rewrite D2, D1. apply only_locks_refl. }
  rewrite (K2 _ eq_refl), D1. clear K2. fold (candidates (db w)).
  rewrite bind_run. destruct (scan_db "lock:wa:*" w2) as [D3 K3].
  destruct (redis_scan_all "lock:wa:*" w2) as [[e|keys3] w3]; cbn [fst snd] in *.
  { rewrite D3, D2, D1. apply only_locks_refl. }
  munfold.
  pose proof (restore_fold_db (collect_locked keys3) (candidates (db w)) ([], w3)) as Hf.
  destruct (foldl _ _ (candidates (db w))) as [restored w4]. cbn [fst snd db add_log] in *.
  rewrite D3, D2, D1 in Hf. exact Hf.
Qed.

End RestoreFootprint.

Section LockRoundTrips.
Context `{Env} `{Platform}.

(** X7.  Acquire and release are inverse.  When the store answers and the
    lock key of the session is free, [acquireSessionLock] returns a lease;
    releasing that lease puts the store back exactly as it was before the
    acquisition and cancels the renewal timer, and the session can then be
    acquired again. *)
Theorem acquire_then_release (sessionId : string) (w : World) :
  redis_budget w = None -> db w !! lockKey sessionId = None ->
  exists l w1, acquireSessionLock sessionId w = (inr (Some l), w1) /\
    db (release l w1) = db w /\
    timers (release l w1) !! lk_renewTimer l = None /\
    exists l', (acquireSessionLock sessionId (release l w1)).1 = inr (Some l').
Proof.
  intros Hup Hfree. rewrite acquire_free by done. eexists _, _. split; [reflexivity|].
  assert (Hdb : forall w1, redis_budget w1 = None ->
            db w1 = <[lockKey sessionId :=
                       mkEntry (VStr (randomUUID (entropy w))) (Some LOCK_TTL_MS)]> (db w) ->
            db (release (mkLock (lockKey sessionId) (randomUUID (entropy w)) (fresh w)) w1)
            = db w).
  { intros w1 Hup1 Hd1. unfold release, redis_eval_release, send. munfold. cbn.
    rewrite Hup1. cbn. rewrite Hd1, lookup_insert_eq. cbn. rewrite String.eqb_refl. cbn.
    rewrite Hd1. by apply delete_insert_id. }
  split_and!.
  - by apply Hdb.
  - unfold release, redis_eval_release, send. munfold. cbn. rewrite Hup. cbn.
    rewrite lookup_insert_eq. cbn. rewrite String.eqb_refl. cbn. by rewrite lookup_delete_eq.
  - match goal with |- context [release ?l ?w1] => set (w2 := release l w1) in * end.
    assert (Hup2 : redis_budget w2 = None).
    { subst w2. unfold release, redis_eval_release, send. munfold. cbn. rewrite Hup. cbn.
      rewrite lookup_insert_eq. cbn. by rewrite String.eqb_refl. }
    assert (Hfree2 : db w2 !! lockKey sessionId = None).
    { subst w2. rewrite Hdb; done. }
    rewrite acquire_free by done. eauto.
Qed.

Lemma release_cases (l : SessionLock) (w : World) :
  timers (release l w) = delete (lk_renewTimer l) (timers w) /\
  (redis_budget w = Some 0%nat -> db (release l w) = db w) /\
  (db (release l w) = db w \/
   (db (release l w) = delete (lk_key l) (db w) /\
    exists ttl, db w !! lk_key l = Some (mkEntry (VStr (lk_token l)) ttl))) /\
  (forall ttl, db (release l w) !! lk_key l = Some (mkEntry (VStr (lk_token l)) ttl) ->
     redis_budget (release l w) = Some 0%nat).
Proof.
  unfold release, redis_eval_release, send. munfold. cbn.
  destruct (redis_budget w) as [[|n]|] eqn:Hb; cbn.
  - split_and!; [done | done | by left | done].
  - destruct (db w !! lk_key l) as [[[v|m] ttl]|] eqn:Hk; cbn.
    + destruct (String.eqb_spec v (lk_token l)) as [->|Hne]; cbn.
      * split_and!; [done | done | right; eauto |]. intros ttl'. by rewrite lookup_delete_eq.
      * split_and!; [done | done | by left |]. intros ttl'. rewrite Hk. by intros [= -> _].
    + split_and!; [done | done | by left |]. intros ttl'. by rewrite Hk.
    + split_and!; [done | done | by left |]. intros ttl'. by rewrite Hk.
  - destruct (db w !! lk_key l) as [[[v|m] ttl]|] eqn:Hk; cbn.
    + destruct (String.eqb_spec v (lk_token l)) as [->|Hne]; cbn.
      * split_and!; [done | done | right; eauto |]. intros ttl'. by rewrite lookup_delete_eq.
      * split_and!; [done | done | by left |]. intros ttl'. rewrite Hk. by intros [= -> _].
    + split_and!; [done | done | by left |]. intros ttl'. by rewrite Hk.
    + split_and!; [done | done | by left |]. intros ttl'. by rewrite Hk.
Qed.

(** X8.  Release is idempotent.  Releasing a lease a second time leaves
    the store and the timers as the first release left them, whoever holds
    the key and whether or not the store is reachable. *)
Theorem release_idempotent (l : SessionLock) (w : World) :
  db (release l (release l w)) = db (release l w) /\
  timers (release l (release l w)) = timers (release l w).
Proof.
  set (w1 := release l w).
  destruct (release_cases l w) as (Ht & _ & _ & Hheld).
  destruct (release_cases l w1) as (Ht1 & Hdown & [Hsame|[Hdel [ttl Hown]]] & _).
  - split; [done|]. rewrite Ht1. fold w1 in Ht. by rewrite Ht, delete_delete_eq.
  - split; [|rewrite Ht1; fold w1 in Ht; by rewrite Ht, delete_delete_eq].
    apply Hdown. by apply (Hheld ttl).
Qed.

End LockRoundTrips.

Section DeleteFootprint.
Context `{Env} `{Platform}.

Lemma deleteRedisAuth_db_cases (sid : string) (w : World) :
  db (deleteRedisAuth sid w).2 = db w \/
  exists tokens,
    (forall t, t ∈ tokens ->
       exists m ttl, db w !! sessSetKey sid = Some (mkEntry (VSet m) ttl) /\ t ∈ m) /\
    db (deleteRedisAuth sid w).2 =
      del_keys (keys_matching (baileysPattern sid) (db w))
        (delete (sessSetKey sid) (del_keys (map tokenKey tokens) (db w))).
Proof.
  unfold deleteRedisAuth, redis_smembers, redis_scan_all, pipeline_exec, send. munfold. cbn.
  destruct (redis_budget w) as [[|[|[|n]]]|] eqn:Hb; cbn; rewrite ?Hb; cbn; rewrite ?Hb; cbn;
    try (by left);
    destruct (db w !! sessSetKey sid) as [[[v|m] ttl]|] eqn:Hs; cbn; rewrite ?Hb; cbn;
    rewrite ?Hb; cbn; try (by left).
  all: right.
  all: try (exists (elements m); split;
            [intros t Ht; exists m, ttl; split; [done | by apply elem_of_elements]|];
            rewrite !foldl_app; cbn;
            destruct (elements m); cbn;
            destruct (keys_matching (baileysPattern sid) (db w)); cbn; done).
  all: exists []; split; [intros t Ht; by apply elem_of_nil in Ht|];
       cbn; destruct (keys_matching (baileysPattern sid) (db w)); cbn; done.
Qed.

Lemma deleteRedisAuth_keeps (sid : string) (w : World) (k : string) :
  k <> sessSetKey sid ->
  (forall m ttl t, db w !! sessSetKey sid = Some (mkEntry (VSet m) ttl) -> t ∈ m ->
     k <> tokenKey t) ->
  glob (baileysPattern sid) k = false ->
  db (deleteRedisAuth sid w).2 !! k = db w !! k.
Proof.
  intros Hset Htok Hglob.
  destruct (deleteRedisAuth_db_cases sid w) as [->|(tokens & Hin & ->)]; [done|].
  rewrite lookup_del_keys, bool_decide_eq_false_2.
  2:{ intros Hm. apply elem_of_keys_matching in Hm as [_ Hg]. congruence. }
  rewrite lookup_delete_ne by done.
  rewrite lookup_del_keys, bool_decide_eq_false_2; [done|].
  intros Hm. apply list_elem_of_fmap in Hm as (t & -> & Ht).
  destruct (Hin t Ht) as (m & ttl & Hs & Htm). by apply (Htok m ttl t).
Qed.

(** X9.  What [deleteRedisAuth] never deletes.  An entry of the store
    survives the call unchanged when its key is not the token index of the
    session, not the mapping of a token listed in that index, and not
    matched by the pattern [baileys:<id>:*].  This holds for every session
    id and whatever the availability of the store (the call may raise half
    way). *)
Theorem deleteRedisAuth_footprint (sid : string) (w : World) (k : string) (e : Entry) :
  db w !! k = Some e ->
  k <> sessSetKey sid ->
  (forall m ttl t, db w !! sessSetKey sid = Some (mkEntry (VSet m) ttl) -> t ∈ m ->
     k <> tokenKey t) ->
  glob (baileysPattern sid) k = false ->
  db (deleteRedisAuth sid w).2 !! k = Some e.
Proof. intros Hk Hset Htok Hglob. by rewrite deleteRedisAuth_keeps. Qed.

Lemma glob_literal_inv (l : string) :
  str_forall glob_literal l = true -> l <> "" ->
  forall (n : nat) (k : string), glob_loop n (l +:+ "*") k = true ->
    exists rest, k = l +:+ rest.
Proof.
  induction l as [|a l IH]; intros Hlit Hne n k Hg; [done|].
  simpl in Hlit. apply andb_true_iff in Hlit as [Ha Hl].
  destruct n as [|n]; [done|]. destruct k as [|c k]; [done|].
  rewrite str_app_cons, glob_loop_literal in Hg by done.
  destruct (Ascii.eqb_spec a c) as [<-|]; [|done].
  destruct l as [|b l].
  - exists k. by rewrite str_app_cons, str_app_nil_l.
  - destruct k as [|c' k].
    + rewrite str_app_cons in Hg. simpl in Hl. apply andb_true_iff in Hl as [Hb _].
      destruct b as [[] [] [] [] [] [] [] []]; try discriminate Hb; discriminate Hg.
    + destruct (IH Hl ltac:(done) n _ Hg) as [rest ->]. exists rest.
      by rewrite !str_app_cons.
Qed.

Lemma glob_pattern_prefix (sid k : string) :
  str_forall glob_literal sid = true -> glob (baileysPattern sid) k = true ->
  exists rest, k = baileysBase sid +:+ rest.
Proof.
  intros Hlit Hg.
  assert (Hbase : str_forall glob_literal (baileysBase sid) = true).
  { unfold baileysBase. rewrite !str_forall_app, Hlit. done. }
  unfold glob, baileysPattern in Hg. destruct k as [|c k].
  - unfold baileysBase in Hg. by rewrite !str_app_cons in Hg.
  - by eapply glob_literal_inv.
Qed.

Lemma colon_free_prefix (a b r r' : string) :
  str_forall not_colon a = true -> str_forall not_colon b = true ->
  a +:+ String ":" r = b +:+ String ":" r' -> a = b.
Proof.
  revert b. induction a as [|c a IH]; intros b Ha Hb Heq.
  - destruct b as [|c' b]; [done|]. rewrite !str_app_cons, str_app_nil_l in Heq.
    injection Heq as Hc _. simpl in Hb. by rewrite <- Hc in Hb.
  - simpl in Ha. apply andb_true_iff in Ha as [Hc Ha].
    destruct b as [|c' b].
    + rewrite !str_app_cons, str_app_nil_l in Heq. injection Heq as Hc' _.
      by rewrite Hc' in Hc.
    + rewrite !str_app_cons in Heq. injection Heq as -> Heq.
      simpl in Hb. apply andb_true_iff in Hb as [_ Hb]. f_equal. by apply IH.
Qed.

Lemma baileysBase_inj (sid sid' r r' : string) :
  str_forall not_colon sid = true -> str_forall not_colon sid' = true ->
  baileysBase sid +:+ r = baileysBase sid' +:+ r' -> sid = sid'.
Proof.
  intros Ha Hb Heq. unfold baileysBase in Heq.
  rewrite !str_app_assoc, !str_app_cons, !str_app_nil_l in Heq.
  injection Heq as Heq. by eapply colon_free_prefix.
Qed.

Lemma sessSetKey_inj (a b : string) :
  str_forall not_colon a = true -> str_forall not_colon b = true ->
  sessSetKey a = sessSetKey b -> a = b.
Proof.
  intros Ha Hb Heq. unfold sessSetKey in Heq. rewrite !str_app_cons, !str_app_nil_l in Heq.
  injection Heq as Heq.
  by apply (colon_free_prefix a b "tokens" "tokens" Ha Hb).
Qed.

(** X10.  Deleting one session spares the others.  When the id of the
    deleted session has no glob metacharacter and neither id contains a
    colon, [deleteRedisAuth] leaves, for every other session, the
    credential blob, every keyed signal entry and the token index as they
    were; it leaves every lock as it was; and it leaves every token mapping
    that the index of the deleted session does not list. *)
Theorem deleteRedisAuth_spares_other_sessions (sid sid' : string) (w : World) :
  str_forall glob_literal sid = true ->
  str_forall not_colon sid = true -> str_forall not_colon sid' = true ->
  sid <> sid' ->
  let d' := db (deleteRedisAuth sid w).2 in
  d' !! kCreds sid' = db w !! kCreds sid' /\
  (forall type id, d' !! keyOf sid' type id = db w !! keyOf sid' type id) /\
  d' !! sessSetKey sid' = db w !! sessSetKey sid' /\
  (forall x, d' !! lockKey x = db w !! lockKey x) /\
  (forall t, (forall m ttl, db w !! sessSetKey sid = Some (mkEntry (VSet m) ttl) -> t ∉ m) ->
     d' !! tokenKey t = db w !! tokenKey t).
Proof.
  intros Hlit Hc Hc' Hne d'. subst d'.
  assert (Hother : forall rest, glob (baileysPattern sid) (baileysBase sid' +:+ rest) = false).
  { intros rest. destruct (glob _ _) eqn:Hg; [|done].
    destruct (glob_pattern_prefix sid _ Hlit Hg) as [r Heq].
    destruct Hne. symmetry. by eapply baileysBase_inj. }
  assert (Hforeign : forall k, (forall rest, k <> baileysBase sid +:+ rest) ->
            glob (baileysPattern sid) k = false).
  { intros k Hk. destruct (glob _ _) eqn:Hg; [|done].
    destruct (glob_pattern_prefix sid _ Hlit Hg) as [r Heq]. by destruct (Hk r). }
  assert (Hb : forall rest, baileysBase sid' +:+ rest <> sessSetKey sid).
  { intros rest. unfold baileysBase, sessSetKey. rewrite !str_app_cons. discriminate. }
  assert (Hbt : forall rest t, baileysBase sid' +:+ rest <> tokenKey t).
  { intros rest t. unfold baileysBase, tokenKey. rewrite !str_app_cons. discriminate. }
  split_and!.
  - apply deleteRedisAuth_keeps; [apply Hb | intros; apply Hbt | apply Hother].
  - intros type id. apply deleteRedisAuth_keeps; [apply Hb | intros; apply Hbt | apply Hother].
  - apply deleteRedisAuth_keeps.
    + intros Heq. destruct Hne. symmetry. by apply sessSetKey_inj.
    + intros m ttl t _ _. apply sessSetKey_not_tokenKey.
    + apply Hforeign. intros rest. unfold baileysBase, sessSetKey. rewrite !str_app_cons.
      discriminate.
  - intros x. apply deleteRedisAuth_keeps.
    + unfold lockKey, sessSetKey. rewrite !str_app_cons. discriminate.
    + intros m ttl t _ _. unfold lockKey, tokenKey. rewrite !str_app_cons. discriminate.
    + apply Hforeign. intros rest. unfold baileysBase, lockKey. rewrite !str_app_cons.
      discriminate.
  - intros t Ht. apply deleteRedisAuth_keeps.
    + apply not_eq_sym, sessSetKey_not_tokenKey.
    + intros m ttl t' Hs Ht' Heq. apply tokenKey_inj in Heq as ->. by apply (Ht m ttl).
    + apply Hforeign. intros rest. unfold baileysBase, tokenKey. rewrite !str_app_cons.
      discriminate.
Qed.

End DeleteFootprint.

(** ** Session objects and timers in reachable states *)

Section TidyBasics.
Context `{Env}.

Lemma Tidy_frame w w' :
  heap w' = heap w -> (forall t x, timers w' !! t = Some x -> timers w !! t = Some x) ->
  Tidy w -> Tidy w'.
Proof.
  intros Hh Ht [T1 T2]. split.
  - intros r e. rewrite Hh. apply T1.
  - intros t x Hx. eapply T2, Ht, Hx.
Qed.

Lemma Tidy_core w w' : same_core w w' -> Tidy w -> Tidy w'.
Proof. intros (_ & Hh & Ht & _). apply Tidy_frame; [done|]. intros t x. by rewrite Ht. Qed.

Lemma Tidy_clearTimer t w : Tidy w -> Tidy (clearTimer t w).
Proof.
  apply Tidy_frame; [done|]. intros t' x Hx. cbn in Hx.
  by apply lookup_delete_Some in Hx as [_ Hx].
Qed.

Lemma Tidy_upd s f w :
  (forall e, heap w !! s = Some e -> obj_ok e -> obj_ok (f e)) -> Tidy w -> Tidy (upd s f w).
Proof.
  intros Hf [T1 T2]. split; [|done]. intros r e. cbn. rewrite lookup_alter.
  case_decide as Hr.
  - subst r. destruct (heap w !! s) as [e0|] eqn:He0; [|done]. cbn. intros [= <-]. eauto.
  - apply T1.
Qed.

Lemma obj_ok_plain f e : plain f -> obj_ok e -> obj_ok (f e).
Proof.
  intros Hf (Hq & Hb & Hl). destruct (Hf e) as (Hs & Hq' & Hb' & Hl').
  unfold obj_ok. by rewrite Hs, Hq', Hb', Hl'.
Qed.

Lemma Tidy_upd_plain s f w : plain f -> Tidy w -> Tidy (upd s f w).
Proof. intros Hf. apply Tidy_upd. intros e _. by apply obj_ok_plain. Qed.

Lemma Tidy_alloc_obj obj w : obj_ok obj -> Tidy w -> Tidy (alloc_obj obj w).2.
Proof.
  intros Ho [T1 T2]. split; [|done]. intros r e. cbn.
  intros [[_ <-]|[_ He]]%lookup_insert_Some; eauto.
Qed.

Lemma Tidy_alloc_timer x w : timer_ok x -> Tidy w -> Tidy (alloc_timer x w).2.
Proof.
  intros Ho [T1 T2]. split; [done|]. intros t y. cbn.
  intros [[_ <-]|[_ He]]%lookup_insert_Some; eauto.
Qed.

Lemma Tidy_empty : Tidy empty_world.
Proof. split; intros ? ?; cbn; by rewrite lookup_empty. Qed.

Lemma obj_ok_empty : obj_ok empty_object.
Proof. by split_and!. Qed.

End TidyBasics.

Section TidyOps.
Context `{Env} `{Platform}.

Lemma next_backoff_bounds (bo : option Z) :
  sane_backoff -> (forall b, bo = Some b -> RECONNECT_MIN <= b <= RECONNECT_MAX) ->
  RECONNECT_MIN <= next_backoff bo <= RECONNECT_MAX.
Proof.
  intros [Hpos Hle] Hb. unfold next_backoff.
  destruct bo as [b|]; cbn; [|lia].
  specialize (Hb b eq_refl). destruct (Z.eqb_spec b 0); cbn; lia.
Qed.

Lemma Tidy_acquire sid w : Tidy w -> Tidy (acquireSessionLock sid w).2.
Proof.
  intros HT. unfold acquireSessionLock, draw_uuid. rewrite bind_run. cbn [fst snd].
  set (w0 := bump_entropy w).
  assert (HT0 : Tidy w0) by (by apply (Tidy_core w); [by repeat split|]).
  rewrite bind_run.
  pose proof (redis_set_px_nx_core (lockKey sid) (randomUUID (entropy w)) LOCK_TTL_MS w0) as Hc.
  destruct (redis_set_px_nx _ _ _ w0) as [[e|ok] w1]; cbn [fst snd] in *.
  - by eapply Tidy_core.
  - destruct ok; cbn; munfold; cbn.
    + apply (Tidy_alloc_timer (RenewTimer (lockKey sid) (randomUUID (entropy w))) w1).
      * by exists sid.
      * by eapply Tidy_core.
    + by eapply Tidy_core.
Qed.

Lemma Tidy_ensure_lock sid w :
  Tidy w -> Tidy (ensure_lock sid (lookup_entry sid w) w).2.
Proof.
  intros HT. unfold ensure_lock. destruct (lookup_entry sid w ≫= _); [done|].
  rewrite bind_run. pose proof (Tidy_acquire sid w HT) as HT1.
  destruct (acquire_db sid w) as [_ Hkey]. destruct (acquire_same sid w) as [_ Hh].
  destruct (acquireSessionLock sid w) as [[e|[lk|]] w1]; cbn [fst snd] in *; [done| |done].
  destruct (Hkey lk eq_refl) as [Hk _]. munfold. cbn [fst snd].
  match goal with |- context [alloc_obj ?o w1] => set (obj := o) end.
  assert (Hobj : obj_ok obj).
  { subst obj. destruct (lookup_entry sid w) as [[r e]|] eqn:Hex.
    - apply lookup_entry_Some in Hex as [_ He].
      destruct (tidy_heap _ HT _ _ He) as (Hq & Hb & _). split_and!; [done | done |].
      intros l [= <-]. eauto.
    - split_and!; [done | done |]. intros l [= <-]. eauto. }
  pose proof (Tidy_alloc_obj obj w1 Hobj HT1) as HT2.
  revert HT2. cbn. apply Tidy_frame; done.
Qed.

Lemma Tidy_detach_old sid force existing w :
  Tidy w -> Tidy (detach_old sid force existing w).2.
Proof.
  intros HT. unfold detach_old. destruct force; [|done]. destruct (existing ≫= _); [|done].
  munfold. cbn. destruct (sessions w !! sid).
  - apply Tidy_upd_plain; [done|]. revert HT. by apply Tidy_frame.
  - revert HT. by apply Tidy_frame.
Qed.

Lemma Tidy_install_socket sid w : Tidy w -> Tidy (install_socket sid w).2.
Proof.
  intros HT. unfold install_socket. munfold. cbn.
  match goal with |- context [with_status connecting ?c] => set (obj := with_status connecting c) end.
  assert (Hobj : obj_ok obj).
  { subst obj. unfold lookup_entry. cbn.
    destruct (sessions w !! sid) as [r|]; cbn; [|by split_and!].
    destruct (heap w !! r) as [e|] eqn:He; cbn; [|by split_and!].
    destruct (tidy_heap _ HT _ _ He) as (_ & Hb & Hl). by split_and!. }
  destruct HT as [T1 T2]. split; [|done]. intros r e. cbn.
  intros [[_ <-]|[_ He]]%lookup_insert_Some; eauto.
Qed.

Lemma Tidy_createSession sid force w : Tidy w -> Tidy (createSession sid force w).2.
Proof.
  intros HT. rewrite createSession_unfold. destruct (returns_existing _ _); [done|].
  pose proof (Tidy_ensure_lock sid w HT) as HT1.
  destruct (ensure_lock _ _ w) as [[e|[]] w1]; cbn [fst snd] in *; [done|].
  pose proof (Tidy_detach_old sid force (lookup_entry sid w) w1 HT1) as HT2.
  destruct (detach_old_ok sid force (lookup_entry sid w) w1) as [w2 Hdet].
  rewrite Hdet in *. cbn [fst snd] in *.
  pose proof (useRedisAuth_core sid true w2) as Hc.
  destruct (useRedisAuth sid true w2) as [[e|c] w3]; cbn [fst snd] in *.
  - by eapply Tidy_core.
  - apply Tidy_install_socket. by eapply Tidy_core.
Qed.

Lemma Tidy_resetBackoff s w : Tidy w -> Tidy (resetBackoff s w).
Proof.
  intros HT. unfold resetBackoff.
  set (w1 := upd s (with_backoffMs (Some RECONNECT_MIN)) w).
  assert (HT1 : Tidy w1).
  { apply Tidy_upd; [|done]. intros e _ (Hq & _ & Hl). split_and!; [done | | done].
    intros [Hpos Hle] b [= <-]. lia. }
  apply Tidy_upd_plain; [done|].
  destruct (heap w1 !! s ≫= backoffTimer); [|done].
  apply Tidy_upd_plain; [done|]. by apply Tidy_clearTimer.
Qed.

Lemma Tidy_scheduleReconnect sid reason w : Tidy w -> Tidy (scheduleReconnect sid reason w).
Proof.
  intros HT. unfold scheduleReconnect.
  destruct (lookup_entry sid w) as [[s e]|] eqn:Hex; [|done].
  apply lookup_entry_Some in Hex as [Hs He].
  destruct (reconnecting e); [done|].
  destruct (tidy_heap _ HT _ _ He) as (Hq & Hb & Hl).
  set (d := next_backoff (backoffMs e)).
  assert (Hd : sane_backoff -> RECONNECT_MIN <= d <= RECONNECT_MAX).
  { intros Hsane. apply next_backoff_bounds; [done | by apply Hb]. }
  cbn. apply Tidy_upd_plain; [done|].
  match goal with |- Tidy ?w2 =>
    change w2 with (alloc_timer (BackoffTimer sid s d)
                      (add_log (mkLog LWarn "scheduleReconnect" sid)
                         (upd s (fun x => with_backoffMs (Some d) (with_reconnecting true x)) w))).2
  end.
  apply Tidy_alloc_timer; [done|].
  apply (Tidy_frame (upd s (fun x => with_backoffMs (Some d) (with_reconnecting true x)) w));
    [done | done |].
  apply Tidy_upd; [|done]. intros e' _ (Hq' & _ & Hl'). split_and!; [done | | done].
  intros Hsane b [= <-]. by apply Hd.
Qed.

Lemma Tidy_release l w : Tidy w -> Tidy (release l w).
Proof.
  destruct (release_core l w) as (_ & Hh & Ht & _). apply Tidy_frame; [done|].
  intros t x. rewrite Ht. by intros [_ Hx]%lookup_delete_Some.
Qed.

Lemma Tidy_renew key token t w : Tidy w -> Tidy (renew key token t w).
Proof.
  intros HT. unfold renew, swallow. rewrite bind_run.
  pose proof (redis_eval_renew_core key token LOCK_TTL_MS w) as Hc.
  destruct (redis_eval_renew key token LOCK_TTL_MS w) as [[e|res] w1]; cbn [fst snd] in *.
  - by eapply Tidy_core.
  - destruct (res =? 0); munfold; cbn.
    + apply Tidy_clearTimer. by eapply Tidy_core.
    + by eapply Tidy_core.
Qed.

Lemma Tidy_teardown sid s w : Tidy w -> Tidy (teardown sid s w).
Proof.
  intros HT. unfold teardown.
  set (e := default empty_object (heap w !! s)).
  set (w1 := match backoffTimer e with Some t => clearTimer t w | None => w end).
  assert (HT1 : Tidy w1) by (subst w1; destruct (backoffTimer e); [by apply Tidy_clearTimer|done]).
  set (w2 := upd s (with_reconnecting false) w1).
  assert (HT2 : Tidy w2) by (by apply Tidy_upd_plain).
  set (w3 := match sock e with Some k => removeAllListeners k w2 | None => w2 end).
  set (w4 := match sock e with Some k => sock_logout k w3 | None => w3 end).
  assert (HT4 : Tidy w4).
  { apply (Tidy_frame w2); [by subst w3 w4; destruct (sock e) | | done].
    subst w3 w4. by destruct (sock e). }
  set (w5 := match lock e with Some l => release l w4 | None => w4 end).
  assert (HT5 : Tidy w5) by (subst w5; destruct (lock e); [by apply Tidy_release | done]).
  revert HT5. by apply Tidy_frame.
Qed.

Lemma Tidy_getSession sid w : Tidy w -> Tidy (getSession sid w).2.
Proof.
  intros HT. unfold getSession. destruct (sessions w !! sid); [done|].
  pose proof (Tidy_createSession sid false w HT) as HT1.
  destruct (createSession sid false w) as [[e|r] w1]; cbn [fst snd] in *; [|done].
  revert HT1. by apply Tidy_frame.
Qed.

Lemma Tidy_logoutSession sid w : Tidy w -> Tidy (logoutSession sid w).2.
Proof.
  intros HT. unfold logoutSession. munfold.
  pose proof (Tidy_getSession sid w HT) as HT1.
  destruct (getSession sid w) as [[s|] w1]; cbn [fst snd] in *.
  - eapply Tidy_core; [apply deleteRedisAuth_core|]. by apply Tidy_teardown.
  - eapply Tidy_core; [apply deleteRedisAuth_core|]. done.
Qed.

Lemma Tidy_process_exit w : Tidy (process_exit w).
Proof.
  split; cbn.
  - intros r e He. by rewrite lookup_empty in He.
  - intros t x Hx. by rewrite lookup_empty in Hx.
Qed.

Lemma Tidy_on_connection_update sid entry u w :
  Tidy w -> Tidy (on_connection_update sid entry u w).
Proof.
  intros HT. unfold on_connection_update.
  match goal with
  | |- context [if ?c then upd entry (with_lastQr (u_qr u)) w else w] =>
      set (cond := c); set (w1 := if cond then upd entry (with_lastQr (u_qr u)) w else w)
  end.
  assert (HT1 : Tidy w1).
  { subst w1. destruct cond eqn:Hcond; [|done]. apply Tidy_upd; [|done].
    intros e He (Hq & Hb & Hl). split_and!; [|done|done].
    intros Hopen. cbn in Hopen. subst cond. rewrite He in Hcond. cbn in Hcond.
    apply andb_true_iff in Hcond as [Hcond _]. apply andb_true_iff in Hcond as [_ Hst].
    by apply bool_decide_eq_true in Hst. }
  destruct (u_connection u) as [[| |]|]; try done.
  - apply (Tidy_frame (resetBackoff entry (upd entry
             (fun x => with_lastQr None (with_userJid (u_user u) (with_status open x))) w1)));
      [done | done |].
    apply Tidy_resetBackoff. apply Tidy_upd; [|done].
    intros e _ (Hq & Hb & Hl). by split_and!.
  - match goal with
    | |- context [add_log ?l ?x] => set (w3 := add_log l x)
    end.
    assert (HT3 : Tidy w3).
    { apply (Tidy_frame (upd entry (fun x => with_lastQr None (with_status close x)) w1));
        [done | done |].
      apply Tidy_upd; [|done]. intros e _ (Hq & Hb & Hl). by split_and!. }
    destruct (is_terminal_code (u_code u)).
    + pose proof (Tidy_logoutSession sid w3 HT3) as HT4.
      destruct (logoutSession sid w3) as [[err|ok] w4]; [apply Tidy_process_exit | exact HT4].
    + by apply Tidy_scheduleReconnect.
Qed.

Lemma Tidy_on_creds_update sid blob w : Tidy w -> Tidy (on_creds_update sid blob w).
Proof.
  intros HT. unfold on_creds_update.
  pose proof (saveCreds_core sid blob w) as Hc.
  destruct (saveCreds sid blob w) as [[e|[]] w1]; cbn [fst snd] in *.
  - apply (Tidy_frame w1); [done | done |]. by eapply Tidy_core.
  - by eapply Tidy_core.
Qed.

Lemma Tidy_backoff_callback sid s w : Tidy w -> Tidy (backoff_callback sid s w).
Proof.
  intros HT. unfold backoff_callback.
  set (w1 := upd s (with_backoffTimer None) w).
  assert (HT1 : Tidy w1) by (by apply Tidy_upd_plain).
  pose proof (Tidy_createSession sid true w1 HT1) as HT2.
  destruct (createSession sid true w1) as [[err|r] w2]; cbn [fst snd] in *; [|done].
  apply Tidy_scheduleReconnect.
  apply (Tidy_frame (upd s (with_reconnecting false) w2)); [done | done |].
  by apply Tidy_upd_plain.
Qed.

Lemma Tidy_attempts id n a w : Tidy w -> Tidy (attempts id n a w).2.
Proof.
  revert a w. induction n as [|n IH]; intros a w HT; cbn [attempts]; [done|].
  pose proof (Tidy_createSession id false w HT) as HT1.
  destruct (createSession id false w) as [[e|r] w1]; cbn [fst snd] in *; [|done].
  case_bool_decide; [destruct (a <? RETRIES); [by apply IH|]|];
    cbn [fst snd]; revert HT1; by apply Tidy_frame.
Qed.

Lemma Tidy_restore_one locked id st : Tidy st.2 -> Tidy (restore_one locked id st).2.
Proof.
  destruct st as [restored w]. cbn [snd]. intros HT. unfold restore_one. case_bool_decide.
  - cbn [snd]. revert HT. by apply Tidy_frame.
  - pose proof (Tidy_attempts id (Z.to_nat (RETRIES + 1)) 0 w HT) as HT1.
    destruct (attempts id _ 0 w) as [[|] w1]; cbn [fst snd] in *; [done|].
    revert HT1. by apply Tidy_frame.
Qed.

Lemma Tidy_restoreAll w : Tidy w -> Tidy (restoreAllSessionsFromRedis w).2.
Proof.
  intros HT. unfold restoreAllSessionsFromRedis, scanKeys.
  rewrite bind_run. pose proof (redis_scan_all_core "sess:*:tokens" w) as Hc1.
  destruct (redis_scan_all "sess:*:tokens" w) as [[e|keys1] w1]; cbn [fst snd] in *;
    [by eapply Tidy_core|].
  assert (HT1 : Tidy w1) by (by eapply Tidy_core).
  rewrite bind_run. pose proof (redis_scan_all_core "baileys:*:creds" w1) as Hc2.
  destruct (redis_scan_all "baileys:*:creds" w1) as [[e|keys2] w2]; cbn [fst snd] in *;
    [by eapply Tidy_core|].
  assert (HT2 : Tidy w2) by (by eapply Tidy_core).
  rewrite bind_run. pose proof (redis_scan_all_core "lock:wa:*" w2) as Hc3.
  destruct (redis_scan_all "lock:wa:*" w2) as [[e|keys3] w3]; cbn [fst snd] in *;
    [by eapply Tidy_core|].
  assert (HT3 : Tidy w3) by (by eapply Tidy_core).
  munfold.
  set (ids := collect_ids keys2 (collect_ids keys1 [])).
  set (locked := collect_locked keys3).
  assert (Hfold : forall l st, Tidy st.2 ->
            Tidy (foldl (fun st id => restore_one locked id st) st l).2).
  { induction l as [|id l IH]; intros st Hst; cbn [foldl]; [done|].
    apply IH. by apply Tidy_restore_one. }
  specialize (Hfold ids ([], w3) HT3).
  destruct (foldl _ _ ids) as [restored w4]. cbn [fst snd] in *.
  revert Hfold. by apply Tidy_frame.
Qed.

Lemma Tidy_step ev w : Tidy w -> Tidy (step ev w).
Proof.
  intros HT. destruct ev as [sid force|sid|sid| |k u|k blob|t|d|b]; cbn [step].
  - by apply Tidy_createSession.
  - by apply Tidy_getSession.
  - by apply Tidy_logoutSession.
  - by apply Tidy_restoreAll.
  - destruct (socks w !! k) as [x|]; [|done]. destruct (sk_on_connection x); [|done].
    by apply Tidy_on_connection_update.
  - destruct (socks w !! k) as [x|]; [|done]. destruct (sk_on_creds x); [|done].
    by apply Tidy_on_creds_update.
  - destruct (timers w !! t) as [[key token|sid s d]|] eqn:Ht; [| |done].
    + by apply Tidy_renew.
    + by apply Tidy_backoff_callback, Tidy_clearTimer.
  - revert HT. by apply Tidy_frame.
  - revert HT. by apply Tidy_frame.
Qed.

Lemma Tidy_run evs w : Tidy w -> Tidy (run evs w).
Proof.
  revert w. induction evs as [|ev evs IH]; intros w HT; cbn; [done|].
  apply IH. by apply Tidy_step.
Qed.

End TidyOps.

Section Reachable.
Context `{Env} `{Platform}.

(** X11.  At most one reconnect is pending per session.  In every state
    reachable from the start of the process, two pending backoff timers of
    the same session are the same timer, and a session with a pending
    backoff timer has a record in the registry. *)
Theorem reconnect_timer_unique (evs : list Event) (sessionId : string)
    (t1 t2 s1 s2 : nat) (d1 d2 : Z) :
  let w := run evs empty_world in
  timers w !! t1 = Some (BackoffTimer sessionId s1 d1) ->
  timers w !! t2 = Some (BackoffTimer sessionId s2 d2) ->
  t1 = t2 /\ is_Some (lookup_entry sessionId w).
Proof.
  intros w H1 H2. assert (HI : Inv w) by apply Inv_run, Inv_empty.
  destruct (inv_timer _ HI _ _ _ _ H1) as [(r1 & e1 & Hr1 & He1 & Hb1 & _) _].
  destruct (inv_timer _ HI _ _ _ _ H2) as [(r2 & e2 & Hr2 & He2 & Hb2 & _) _].
  rewrite Hr1 in Hr2. injection Hr2 as <-. rewrite He1 in He2. injection He2 as <-.
  split; [congruence|]. exists (r1, e1). by apply lookup_entry_Some.
Qed.

(** X12.  Reconnect delays stay within the configured bounds.  When
    [0 < RECONNECT_MIN <= RECONNECT_MAX], every backoff timer pending in a
    reachable state was armed with a delay between [RECONNECT_MIN] and
    [RECONNECT_MAX]. *)
Theorem reconnect_delay_bounded (evs : list Event) (sessionId : string) (t s : nat) (d : Z) :
  0 < RECONNECT_MIN <= RECONNECT_MAX ->
  timers (run evs empty_world) !! t = Some (BackoffTimer sessionId s d) ->
  RECONNECT_MIN <= d <= RECONNECT_MAX.
Proof.
  intros Hsane Ht.
  assert (HT : Tidy (run evs empty_world)) by apply Tidy_run, Tidy_empty.
  exact (tidy_timers _ HT _ _ Ht Hsane).
Qed.

(** X13.  The cached QR code.  In every reachable state a session whose
    status is [open] has no cached QR, so [getLastQR] returns [null] for
    it.  A [connection.update] event that reports [open] clears the cache;
    one that carries a non-empty QR and no connection change, delivered to
    a session that is not open, makes [getLastQR] return that QR. *)
Theorem qr_cache (evs : list Event) (sessionId : string) (r : nat) (e : SessionEntry) :
  let w := run evs empty_world in
  lookup_entry sessionId w = Some (r, e) ->
  (status e = open -> getLastQR sessionId w = None) /\
  (forall k x u, socks w !! k = Some x -> sk_on_connection x = true ->
     sk_sessionId x = sessionId -> sk_entry x = r ->
     let w' := step (ConnectionUpdate k u) w in
     (u_connection u = Some open -> getLastQR sessionId w' = None) /\
     (forall q, u_connection u = None -> u_qr u = Some q -> q <> "" -> status e <> open ->
        getLastQR sessionId w' = Some q)).
Proof.
  intros w Hex. assert (HT : Tidy w) by apply Tidy_run, Tidy_empty.
  pose proof Hex as Hex'. apply lookup_entry_Some in Hex' as [Hs He].
  split.
  - intros Hopen. unfold getLastQR. rewrite Hex. cbn.
    destruct (tidy_heap _ HT _ _ He) as (Hq & _). by apply Hq.
  - intros k x u Hk Hon Hsid Hent w'. subst w'. cbn [step]. rewrite Hk, Hon, Hsid, Hent.
    unfold on_connection_update. rewrite He. cbn [default].
    assert (Hfind : forall (w1 : World) (e1 : SessionEntry),
              sessions w1 = sessions w -> heap w1 !! r = Some e1 ->
              getLastQR sessionId w1 = lastQr e1).
    { intros w1 e1 Hs1 He1. unfold getLastQR, lookup_entry. rewrite Hs1, Hs. cbn.
      by rewrite He1. }
    split.
    + intros ->.
      match goal with |- context [resetBackoff r ?w2] => set (wq := w2) end.
      assert (Hq : sessions wq = sessions w /\
                   exists e1, heap wq !! r = Some e1 /\ lastQr e1 = None).
      { subst wq. destruct (_ && _); cbn; rewrite ?lookup_alter_eq, He; cbn; eauto. }
      destruct Hq as (Hsq & e1 & Heq & Hnone). clearbody wq.
      assert (Hr : sessions (resetBackoff r wq) = sessions w /\
                   exists e2, heap (resetBackoff r wq) !! r = Some e2 /\ lastQr e2 = None).
      { unfold resetBackoff. cbn. rewrite !lookup_alter_eq, Heq. cbn.
        destruct (backoffTimer e1); cbn; rewrite ?lookup_alter_eq, Heq; cbn; eauto. }
      destruct Hr as (Hsr & e2 & He2 & Hn2).
      rewrite (Hfind _ e2); done.
    + intros q -> Hq Hne Hst. rewrite Hq. cbn [truthy_str].
      assert (Hnon : str_nonempty q = true) by (by destruct q).
      rewrite Hnon, (bool_decide_eq_true_2 _ Hst). cbn [andb].
      case_bool_decide as Hsame.
      * erewrite Hfind; [|done|cbn; by rewrite lookup_alter_eq, He]. done.
      * erewrite Hfind; [|done|exact He]. exact Hsame.
Qed.

End Reachable.

(** ** The routes of the session life cycle *)

Lemma tokenKey_not_a_lock t : not_a_lock (tokenKey t).
Proof. intros x. unfold tokenKey, lockKey. rewrite !str_app_cons. discriminate. Qed.

Lemma sessSetKey_not_a_lock sid : not_a_lock (sessSetKey sid).
Proof. intros x. unfold sessSetKey, lockKey. rewrite !str_app_cons. discriminate. Qed.

Lemma kCreds_not_a_lock sid : not_a_lock (kCreds sid).
Proof. intros x. unfold kCreds, baileysBase, lockKey. rewrite !str_app_cons. discriminate. Qed.

Lemma kCreds_not_tokenKey sid t : kCreds sid <> tokenKey t.
Proof. unfold kCreds, baileysBase, tokenKey. rewrite !str_app_cons. discriminate. Qed.

Lemma kCreds_not_sessSetKey sid x : kCreds sid <> sessSetKey x.
Proof. unfold kCreds, baileysBase, sessSetKey. rewrite !str_app_cons. discriminate. Qed.

Section RouteLemmas.
Context `{Env} `{Platform} `{Entropy} `{AuthConfig}.

Lemma took_lock_frame sid d d' k : took_lock sid d d' -> not_a_lock k -> d' !! k = d !! k.
Proof.
  intros [->|(_ & token & ->)] Hk; [done|]. rewrite lookup_insert_ne; [done|].
  apply not_eq_sym, Hk.
Qed.

Lemma acquire_budget sid w :
  redis_budget w = None -> redis_budget (acquireSessionLock sid w).2 = None.
Proof.
  intros Hup. destruct (db w !! lockKey sid) eqn:Hk.
  - rewrite acquire_held by eauto. done.
  - rewrite acquire_free by done. done.
Qed.

Lemma createSession_budget sid force w :
  redis_budget w = None -> redis_budget (createSession sid force w).2 = None.
Proof.
  unfold createSession, ensure_lock, detach_old, useRedisAuth, install_socket,
    acquireSessionLock, draw_uuid, redis_set_px_nx, redis_get, init_creds, send, alloc_timer,
    alloc_obj, alloc_sock.
  munfold. cbn. intros Hup. rewrite ?Hup.
  repeat (case_match; simplify_eq; cbn in *; rewrite ?Hup in *; try done).
Qed.

Lemma kCreds_not_lockKey sid x : kCreds sid <> lockKey x.
Proof. apply kCreds_not_a_lock. Qed.

(** Creating a session that neither the store nor the process knows. *)
Lemma createSession_fresh (sid : string) (w : World) :
  redis_budget w = None -> sessions w !! sid = None ->
  db w !! lockKey sid = None -> db w !! kCreds sid = None ->
  exists r e w',
    createSession sid false w = (inr r, w') /\
    sessions w' !! sid = Some r /\ heap w' !! r = Some e /\
    status e = connecting /\ userJid e = None /\ is_Some (sock e) /\
    redis_budget w' = None /\
    (forall k, k <> lockKey sid -> db w' !! k = db w !! k).
Proof.
  intros Hup Hs Hlock Hcreds. rewrite createSession_unfold.
  assert (Hex : lookup_entry sid w = None) by (unfold lookup_entry; by rewrite Hs).
  rewrite Hex. cbn [returns_existing]. unfold ensure_lock. cbn [mbind option_bind].
  rewrite bind_run, acquire_free by done. munfold. cbn [alloc_obj fst snd].
  unfold detach_old. cbn [mbind option_bind]. unfold ret.
  match goal with |- context [useRedisAuth sid true ?x] => set (w1 := x) end.
  assert (Hup1 : redis_budget w1 = None) by done.
  assert (Hc1 : db w1 !! kCreds sid = None).
  { subst w1. cbn. rewrite lookup_insert_ne by (apply not_eq_sym, kCreds_not_lockKey). done. }
  unfold useRedisAuth. rewrite bind_run, redis_get_up by done. rewrite Hc1. cbn [truthy_str].
  unfold init_creds. cbn [fst snd].
  unfold install_socket. munfold. cbn.
  eexists _, _, _. split; [reflexivity|]. cbn.
  rewrite !lookup_insert_eq. split_and!; try done.
  - unfold lookup_entry. subst w1. cbn. rewrite !lookup_insert_eq. cbn.
    by rewrite lookup_insert_eq.
  - intros k Hk. by rewrite lookup_insert_ne.
Qed.

End RouteLemmas.

Section Routes.
Context `{Env} `{Platform} `{Entropy} `{AuthConfig}.

(** A request that presents a token of the store. *)
Lemma requireAuthToken_known (t id : string) (ttl : option Z) (w : World) :
  redis_budget w = None ->
  str_forall is_base64url t = true -> (10 <= String.length t)%nat ->
  (7 + String.length t <= AUTH_TOKEN_LEN)%nat -> (String.length t <= 512)%nat ->
  db w !! tokenKey t = Some (mkEntry (VStr id) ttl) -> id <> "" ->
  requireAuthToken (Some ("Bearer " +:+ t)) w = (AuthNext id t, add_cmd (CGet (tokenKey t)) w).
Proof.
  intros Hup Hurl Hmin Hlen Hmax Hk Hid. unfold requireAuthToken.
  rewrite parseBearer_token; [|destruct t; [cbn in Hmin; lia|done]|done|done].
  unfold TokenSchema. rewrite (proj2 (Nat.leb_le _ _) Hmin), (proj2 (Nat.leb_le _ _) Hmax).
  cbn [andb negb]. rewrite url_token_utf8 by done.
  unfold getSessionIdByToken. rewrite redis_get_up by done. rewrite Hk. cbn.
  by destruct id.
Qed.

Lemma requireAuthToken_unknown (t : string) (w : World) :
  redis_budget w = None ->
  str_forall is_base64url t = true -> (10 <= String.length t)%nat ->
  (7 + String.length t <= AUTH_TOKEN_LEN)%nat -> (String.length t <= 512)%nat ->
  db w !! tokenKey t = None ->
  requireAuthToken (Some ("Bearer " +:+ t)) w
  = (AuthRespond 401 "Token tidak dikenali", add_cmd (CGet (tokenKey t)) w).
Proof.
  intros Hup Hurl Hmin Hlen Hmax Hk. unfold requireAuthToken.
  rewrite parseBearer_token; [|destruct t; [cbn in Hmin; lia|done]|done|done].
  unfold TokenSchema. rewrite (proj2 (Nat.leb_le _ _) Hmin), (proj2 (Nat.leb_le _ _) Hmax).
  cbn [andb negb]. rewrite url_token_utf8 by done.
  unfold getSessionIdByToken. rewrite redis_get_up by done. by rewrite Hk.
Qed.

Lemma release_budget l w : redis_budget w = None -> redis_budget (release l w) = None.
Proof.
  intros Hup. unfold release, redis_eval_release, send, swallow, clearTimer. munfold. cbn.
  rewrite Hup. by repeat (case_match; simplify_eq; cbn in *; rewrite ?Hup in *; try done).
Qed.

Lemma teardown_budget sid s w : redis_budget w = None -> redis_budget (teardown sid s w) = None.
Proof.
  intros Hup. unfold teardown. cbn.
  destruct (lock _) as [l|]; [|by repeat case_match].
  apply release_budget. by repeat case_match.
Qed.

Lemma teardown_db sid s w k :
  Tidy w -> not_a_lock k -> db (teardown sid s w) !! k = db w !! k.
Proof.
  intros HT Hk. unfold teardown. cbn.
  set (e := default empty_object (heap w !! s)).
  set (w4 := match sock e with Some _ => _ | None => _ end).
  assert (Hdb : db w4 = db w) by (subst w4; by repeat case_match).
  clearbody w4. destruct (lock e) as [l|] eqn:Hl; [|by rewrite Hdb].
  assert (Hkey : exists x, lk_key l = lockKey x).
  { subst e. destruct (heap w !! s) as [e|] eqn:He; [|done].
    by apply (tidy_heap _ HT _ _ He). }
  destruct Hkey as [x Hx].
  destruct (release_cases l w4) as (_ & _ & [->|[-> _]] & _); [by rewrite Hdb|].
  rewrite lookup_delete_ne, Hdb; [done|]. rewrite Hx. apply not_eq_sym, Hk.
Qed.

Lemma getSession_budget sid w :
  redis_budget w = None -> redis_budget (getSession sid w).2 = None.
Proof.
  intros Hup. unfold getSession. destruct (sessions w !! sid); [done|].
  pose proof (createSession_budget sid false w Hup) as Hc.
  by destruct (createSession sid false w) as [[e|r] w1].
Qed.

(** X14.  POST /session, then GET /session.  When the store answers, the
    UUID drawn is not empty and is known neither to the registry nor to
    the store (no lock, credentials or token index under it), and
    [AUTH_TOKEN_LEN] is at least 50, then POST /session replies 200 with
    that id and a token; with that token as bearer, GET /health replies 200
    and GET /session replies 200 with the id, status [connecting] and no
    user JID. *)
Theorem session_created_then_served (w : World) :
  redis_budget w = None ->
  let id := randomUUID (entropy w) in
  id <> "" ->
  sessions w !! id = None ->
  db w !! lockKey id = None -> db w !! kCreds id = None -> db w !! sessSetKey id = None ->
  (50 <= AUTH_TOKEN_LEN)%nat ->
  exists token w',
    route_post_session w = (Replies 200 (BodyCreated id token), w') /\
    (route_health (Some ("Bearer " +:+ token)) w').1 = Replies 200 BodyOk /\
    (route_get_session (Some ("Bearer " +:+ token)) w').1
      = Replies 200 (BodySession id connecting None).
Proof.
  intros Hup id Hid Hs Hlock Hcreds Hset Hlen.
  assert (Hset' : forall v ttl, db w !! sessSetKey id <> Some (mkEntry (VStr v) ttl))
    by (intros v ttl; by rewrite Hset).
  pose proof (createSessionTokenPair_up None w Hup Hset') as Hc. cbv zeta in Hc.
  change (default (randomUUID (entropy w)) None) with id in Hc.
  destruct Hc as (token & w1 & Hpair & Hl & Hurl & Hup1 & Htok & _ & Hframe & Hs1 & _).
  destruct (createSession_fresh id w1) as (r & e & w2 & Hcreate & Hr & He & Hst & Hjid & _ & Hup2 & Hframe2).
  - done.
  - by rewrite Hs1.
  - rewrite Hframe; [done | apply not_eq_sym, tokenKey_not_a_lock
                          | apply not_eq_sym, sessSetKey_not_a_lock].
  - rewrite Hframe; [done | apply kCreds_not_tokenKey | apply kCreds_not_sessSetKey].
  - set (w3 := set_db <[tokenKey token := mkEntry (VStr id) None]>
                 (add_cmd (CSet (tokenKey token) id) w2)).
    assert (Hpost : route_post_session w = (Replies 200 (BodyCreated id token), w3)).
    { unfold route_post_session. rewrite bind_run, Hpair. cbn [fst snd]. rewrite bind_run, Hcreate, bind_run.
      rewrite redis_set_up by done. done. }
    assert (Hauth : requireAuthToken (Some ("Bearer " +:+ token)) w3
                    = (AuthNext id token, add_cmd (CGet (tokenKey token)) w3)).
    { apply (requireAuthToken_known token id None); try done; try lia.
      subst w3. cbn. by rewrite lookup_insert_eq. }
    exists token, w3. split_and!; [exact Hpost | |].
    + unfold route_health, with_auth. by rewrite Hauth.
    + unfold route_get_session, with_auth. rewrite Hauth. unfold getSession.
      subst w3. cbn. rewrite Hr. cbn. rewrite He. cbn. by rewrite Hst, Hjid.
Qed.

(** X15.  POST /logout revokes the tokens of the session.  In every
    reachable state in which the store answers and maps a well-formed
    token to a session id whose token index is a set that lists the token:
    POST /logout with that token replies 200, whether the session was in
    the registry, had to be restored first, or could not be restored;
    afterwards the token index is gone and so is the mapping of every token
    it listed, and a further request with the token is refused with 401
    [Token tidak dikenali]. *)
Theorem logout_revokes (evs : list Event) (t id : string) (m : gset string)
    (ttl ttl' : option Z) :
  let w := run evs empty_world in
  redis_budget w = None ->
  str_forall is_base64url t = true ->
  (10 <= String.length t)%nat -> (7 + String.length t <= AUTH_TOKEN_LEN)%nat ->
  (String.length t <= 512)%nat ->
  db w !! tokenKey t = Some (mkEntry (VStr id) ttl) -> id <> "" ->
  db w !! sessSetKey id = Some (mkEntry (VSet m) ttl') -> t ∈ m ->
  exists w',
    route_logout (Some ("Bearer " +:+ t)) w = (Replies 200 BodyLogout, w') /\
    db w' !! sessSetKey id = None /\
    (forall t', t' ∈ m -> db w' !! tokenKey t' = None) /\
    (route_get_session (Some ("Bearer " +:+ t)) w').1
      = Replies 401 (BodyError "Token tidak dikenali").
Proof.
  intros w Hup Hurl Hmin Hlen Hmax Htok Hid Hset Hin.
  assert (HT : Tidy w) by apply Tidy_run, Tidy_empty.
  clearbody w.
  pose proof (requireAuthToken_known t id ttl w Hup Hurl Hmin Hlen Hmax Htok Hid) as Hauth.
  set (w1 := add_cmd (CGet (tokenKey t)) w) in Hauth.
  assert (HT1 : Tidy w1) by (revert HT; by apply Tidy_frame).
  assert (Hup1 : redis_budget w1 = None) by done.
  (* the session object is found or restored, then torn down *)
  set (w3 := match getSession id w1 with
             | (Some s, w2) => teardown id s w2
             | (None, w2) => w2
             end).
  assert (Hlog : logoutSession id w1 = deleteRedisAuth id w3).
  { unfold logoutSession, lift_val, lift. rewrite bind_run. subst w3.
    destruct (getSession id w1) as [[s|] w2]; cbn [fst snd]; [|done].
    by rewrite bind_run. }
  assert (Hup3 : redis_budget w3 = None).
  { subst w3. pose proof (getSession_budget id w1 Hup1) as Hb.
    destruct (getSession id w1) as [[s|] w2]; cbn [fst snd] in *; [|done].
    by apply teardown_budget. }
  assert (Hdb3 : forall k, not_a_lock k -> db w3 !! k = db w !! k).
  { intros k Hk. subst w3.
    pose proof (getSession_db id w1) as Hg. pose proof (Tidy_getSession id w1 HT1) as HT2.
    destruct (getSession id w1) as [[s|] w2]; cbn [fst snd] in *.
    - rewrite teardown_db by done. by rewrite (took_lock_frame _ _ _ _ Hg Hk).
    - by rewrite (took_lock_frame _ _ _ _ Hg Hk). }
  clearbody w3.
  assert (Hset3 : db w3 !! sessSetKey id = Some (mkEntry (VSet m) ttl'))
    by (rewrite Hdb3; [done | apply sessSetKey_not_a_lock]).
  destruct (deleteRedisAuth_db id w3 Hup3) as [Hok Hdb]; [by rewrite Hset3|].
  rewrite Hset3 in Hdb.
  assert (Hgone : forall t', t' ∈ m -> db (deleteRedisAuth id w3).2 !! tokenKey t' = None).
  { intros t' Ht'. rewrite Hdb, lookup_del_keys. case_bool_decide; [done|].
    destruct (decide (sessSetKey id = tokenKey t')) as [->|Hne];
      [by rewrite lookup_delete_eq|].
    rewrite lookup_delete_ne by done. rewrite lookup_del_keys, bool_decide_eq_true_2; [done|].
    apply list_elem_of_fmap. exists t'. split; [done | by apply elem_of_elements]. }
  exists (deleteRedisAuth id w3).2. split_and!.
  - unfold route_logout, with_auth. rewrite Hauth, Hlog.
    destruct (deleteRedisAuth id w3) as [r w4]. cbn in Hok. by subst r.
  - rewrite Hdb, lookup_del_keys. case_bool_decide; [done|]. by rewrite lookup_delete_eq.
  - exact Hgone.
  - unfold route_get_session, with_auth.
    rewrite requireAuthToken_unknown; try done.
    + by apply deleteRedisAuth_budget.
    + by apply Hgone.
Qed.

(** X16.  GET /session for a session that another instance holds.  In a
    state reached by a run over ordinary identifiers (none of them names a
    member of [Object.prototype], for which [sessions[id]] would find the
    inherited member), when the store answers and maps a well-formed token
    to an ordinary session id that the registry does not know and whose
    lock key is taken, GET /session with that token replies 404
    [Session tidak ditemukan]: the lazy restore fails on the lock, one
    error is logged, and the store, the registry and the session objects
    are as they were. *)
Theorem get_session_locked_elsewhere (evs : list Event) (t id : string) (ttl : option Z) :
  let w := run evs empty_world in
  ordinary_run evs empty_world = true -> ordinary_id id = true ->
  redis_budget w = None ->
  str_forall is_base64url t = true ->
  (10 <= String.length t)%nat -> (7 + String.length t <= AUTH_TOKEN_LEN)%nat ->
  (String.length t <= 512)%nat ->
  db w !! tokenKey t = Some (mkEntry (VStr id) ttl) -> id <> "" ->
  sessions w !! id = None -> is_Some (db w !! lockKey id) ->
  exists w',
    route_get_session (Some ("Bearer " +:+ t)) w
      = (Replies 404 (BodyError "Session tidak ditemukan"), w') /\
    db w' = db w /\ sessions w' = sessions w /\ heap w' = heap w /\
    logs w' = (logs w ++ [mkLog LError "lazy restore failed" id])%list.
Proof.
  intros w _ _ Hup Hurl Hmin Hlen Hmax Htok Hid Hs Hheld. clearbody w.
  pose proof (requireAuthToken_known t id ttl w Hup Hurl Hmin Hlen Hmax Htok Hid) as Hauth.
  set (w1 := add_cmd (CGet (tokenKey t)) w) in Hauth.
  assert (Hcreate : createSession id false w1
                    = (inl (ErrLocked id),
                       add_cmd (CSetNxPx (lockKey id) (randomUUID (entropy w1)) LOCK_TTL_MS)
                         (bump_entropy w1))).
  { unfold createSession. rewrite bind_run. unfold gets at 1. cbn [fst snd].
    unfold lookup_entry. replace (sessions w1 !! id) with (@None nat) by (by rewrite <- Hs).
    cbn. unfold ensure_lock. cbn. rewrite bind_run, bind_run.
    rewrite acquire_held by done. done. }
  eexists. split.
  - unfold route_get_session, with_auth. rewrite Hauth. unfold getSession.
    replace (sessions w1 !! id) with (@None nat) by (by rewrite <- Hs).
    rewrite Hcreate. reflexivity.
  - done.
Qed.

End Routes.

(** ** The middleware, the send helpers and saved credentials *)

(** * The bearer middleware admits known tokens only *)

Lemma str_length_rev_onto' (s acc : string) :
  String.length (str_rev_onto s acc) = (String.length s + String.length acc)%nat.
Proof.
  revert acc. induction s as [|c s IH]; intros acc; simpl; [done|]. rewrite IH. simpl. lia.
Qed.

Lemma str_length_rev' (s : string) : String.length (str_rev s) = String.length s.
Proof. unfold str_rev. rewrite str_length_rev_onto'. simpl. lia. Qed.

Lemma str_length_drop_while (p : ascii -> bool) (s : string) :
  (String.length (str_drop_while p s) <= String.length s)%nat.
Proof. induction s as [|c s IH]; simpl; [done|]. destruct (p c); simpl; lia. Qed.

Lemma trim_length (s : string) : (String.length (trim_latin1 s) <= String.length s)%nat.
Proof.
  unfold trim_latin1. rewrite str_length_rev'.
  etransitivity; [apply str_length_drop_while|]. rewrite str_length_rev'.
  apply str_length_drop_while.
Qed.

Lemma str_length_drop (n : nat) (s : string) :
  String.length (str_drop n s) = (String.length s - n)%nat.
Proof.
  revert s. induction n as [|n IH]; intros [|c s]; simpl; try done.
Qed.

Lemma strip_prefix_length (p s r : string) :
  strip_prefix p s = Some r -> String.length s = (String.length p + String.length r)%nat.
Proof.
  revert s. induction p as [|c p IH]; intros s; simpl.
  - by intros [= ->].
  - destruct s as [|c' s]; [done|]. destruct (Ascii.eqb c c'); [|done].
    intros Hr. simpl. by rewrite (IH _ Hr).
Qed.

Section AuthSound.
Context `{Env} `{Platform} `{AuthConfig}.

(** X17.  The middleware admits known tokens only.  Whenever
    [requireAuthToken] hands a request on, the session id it put on the
    request is not empty and is the string the store holds at
    [token:<token>]; the token has between 10 and 512 characters; the
    header was no longer than [AUTH_TOKEN_LEN], so that the token has at
    most [AUTH_TOKEN_LEN - 7] characters; and the store and the registry
    are as they were.  This holds whatever the availability of the
    store. *)
Theorem requireAuthToken_sound (auth : option string) (w w' : World) (sid tok : string) :
  requireAuthToken auth w = (AuthNext sid tok, w') ->
  sid <> "" /\
  (10 <= String.length tok <= 512)%nat /\
  (7 + String.length tok <= AUTH_TOKEN_LEN)%nat /\
  (exists ttl, db w !! tokenKey (utf8_of_latin1 tok) = Some (mkEntry (VStr sid) ttl)) /\
  db w' = db w /\ sessions w' = sessions w.
Proof.
  unfold requireAuthToken. destruct (parseBearer auth) as [| |token] eqn:Hp; [done|done|].
  destruct (TokenSchema token) eqn:Hschema; cbn [negb]; [|done].
  assert (Hlen : (7 + String.length token <= AUTH_TOKEN_LEN)%nat).
  { unfold parseBearer in Hp. destruct auth as [a|]; [|done].
    pose proof (trim_length (str_drop 7 a)) as Ht. rewrite str_length_drop in Ht.
    set (d := trim_latin1 (str_drop 7 a)) in *. clearbody d.
    destruct (str_nonempty a); cbn [negb] in Hp; [|done].
    destruct (Nat.ltb_spec AUTH_TOKEN_LEN (String.length a)) as [|Hle]; [done|].
    unfold starts_with in Hp. destruct (strip_prefix "Bearer " a) as [r|] eqn:Hr; [|done].
    cbn [negb] in Hp. destruct (str_nonempty _); [|done]. injection Hp as <-.
    apply strip_prefix_length in Hr. simpl in Hr. lia. }
  unfold TokenSchema in Hschema. apply andb_true_iff in Hschema as [H10 H512].
  apply Nat.leb_le in H10, H512.
  unfold getSessionIdByToken, redis_get, send. munfold.
  destruct (redis_budget w) as [[|n]|]; cbn; [done| |];
    destruct (db w !! tokenKey (utf8_of_latin1 token)) as [[[v|m] ttl]|] eqn:Hk; cbn; try done;
    (destruct v as [|c v]; cbn; [done|]; intros [= <- <- <-]; split_and!; try done; eauto).
Qed.

End AuthSound.

(** * sendHelpers.ts *)

Lemma str_exists_app (f : ascii -> bool) (a b : string) :
  str_exists f (a +:+ b) = str_exists f a || str_exists f b.
Proof.
  induction a as [|c a IH]; [by rewrite str_app_nil_l|].
  rewrite str_app_cons. simpl. by rewrite IH, orb_assoc.
Qed.

Lemma str_forall_filter (f : ascii -> bool) (s : string) :
  str_forall f (str_filter f s) = true.
Proof.
  induction s as [|c s IH]; simpl; [done|]. destruct (f c) eqn:Hc; simpl; [|done].
  by rewrite Hc, IH.
Qed.

Lemma str_filter_id (f : ascii -> bool) (s : string) :
  str_forall f s = true -> str_filter f s = s.
Proof.
  induction s as [|c s IH]; simpl; [done|]. intros [Hc Hs]%andb_true_iff.
  by rewrite Hc, IH.
Qed.

Lemma str_forall_drop (f : ascii -> bool) (n : nat) (s : string) :
  str_forall f s = true -> str_forall f (str_drop n s) = true.
Proof.
  revert s. induction n as [|n IH]; intros [|c s]; simpl; try done.
  intros [_ Hs]%andb_true_iff. by apply IH.
Qed.

(** X18.  [toJid] yields an address and is idempotent: its result always
    contains [@], and applying it to its own result changes nothing. *)
Theorem toJid_idempotent (num : string) :
  str_exists (Ascii.eqb "@") (toJid num) = true /\ toJid (toJid num) = toJid num.
Proof.
  assert (Hat : str_exists (Ascii.eqb "@") (toJid num) = true).
  { unfold toJid. destruct (str_exists _ num) eqn:Hn; [done|].
    rewrite str_exists_app, Hn. done. }
  split; [done|]. unfold toJid at 1. by rewrite Hat.
Qed.

(** X19.  [sanitizeNumber] returns digits only, whatever the input and the
    country code, and a number it has returned is left unchanged by a
    second pass without country code. *)
Theorem sanitizeNumber_digits (raw : string) (countryCode : option string) :
  str_forall is_digit (sanitizeNumber raw countryCode) = true /\
  sanitizeNumber (sanitizeNumber raw countryCode) None = sanitizeNumber raw countryCode.
Proof.
  assert (Hd : str_forall is_digit (sanitizeNumber raw countryCode) = true).
  { unfold sanitizeNumber.
    destruct (starts_with "0" _ && truthy_str countryCode && all_digits _) eqn:Hc.
    - apply andb_true_iff in Hc as [_ [_ Hcc]%andb_true_iff].
      rewrite str_forall_app, Hcc. apply str_forall_drop, str_forall_filter.
    - apply str_forall_filter. }
  split; [done|]. unfold sanitizeNumber at 1. cbn [truthy_str andb].
  rewrite andb_false_r. cbn [andb]. by apply str_filter_id.
Qed.

(** * Saved credentials are the credentials loaded *)

Section CredsRoundTrip.
Context `{Env} `{Platform}.

(** X20.  Saved credentials are the credentials loaded.  When the store
    answers, the [creds.update] handler stores the serialised credentials
    without logging an error and changes no other key; a following
    [useRedisAuth] of the same session returns what the blob parses to. *)
Theorem saved_creds_are_loaded (sessionId blob : string) (creds : Creds)
    (logger : bool) (w : World) :
  redis_budget w = None ->
  blob <> "" -> JSON_parse blob = Some creds ->
  let w' := on_creds_update sessionId blob w in
  (useRedisAuth sessionId logger w').1 = inr creds /\
  logs w' = logs w /\
  (forall k, k <> kCreds sessionId -> db w' !! k = db w !! k).
Proof.
  intros Hup Hne Hparse w'. subst w'. unfold on_creds_update, saveCreds.
  rewrite redis_set_up by done. split_and!; [|done|].
  - unfold useRedisAuth. rewrite bind_run, redis_get_up by done. cbn.
    rewrite lookup_insert_eq. cbn. destruct blob as [|c blob]; [done|]. cbn.
    by rewrite Hparse.
  - intros k Hk. cbn. by rewrite lookup_insert_ne.
Qed.

End CredsRoundTrip.

(** ** The signal key store *)

(** * The signal key store *)

Lemma str_app_inv_head (a b c : string) : a +:+ b = a +:+ c -> b = c.
Proof.
  induction a as [|x a IH]; [by rewrite !str_app_nil_l|].
  rewrite !str_app_cons. intros [= Heq]. by apply IH.
Qed.

Lemma keyOf_inj (sid type type' id id' : string) :
  str_forall not_colon type = true -> str_forall not_colon type' = true ->
  keyOf sid type id = keyOf sid type' id' -> type = type' /\ id = id'.
Proof.
  intros Ht Ht' Heq. unfold keyOf in Heq. apply str_app_inv_head in Heq.
  rewrite !(str_app_cons ":" "" _), !str_app_nil_l in Heq.
  pose proof (colon_free_prefix _ _ _ _ Ht Ht' Heq) as ->. split; [done|].
  apply str_app_inv_head in Heq. by injection Heq.
Qed.

Lemma foldl_apply_skip (ops : list MultiOp) (d : gmap string Entry) (k : string) :
  (forall op, op ∈ ops -> op_key op <> k) -> foldl apply_op d ops !! k = d !! k.
Proof.
  revert d. induction ops as [|op ops IH]; intros d Hne; [done|]. cbn [foldl].
  rewrite IH by (intros op' Hin; apply Hne; by right).
  assert (Hk : op_key op <> k) by (apply Hne; by left).
  destruct op; cbn in *; [by rewrite lookup_delete_ne | by rewrite lookup_insert_ne].
Qed.

Lemma foldl_apply_once (l1 l2 : list MultiOp) (op : MultiOp) (d : gmap string Entry) :
  (forall op', op' ∈ l2 -> op_key op' <> op_key op) ->
  foldl apply_op d (l1 ++ op :: l2) !! op_key op = op_entry op.
Proof.
  intros Hne. rewrite foldl_app. cbn [foldl]. rewrite foldl_apply_skip by done.
  destruct op; cbn; [by rewrite lookup_delete_eq | by rewrite lookup_insert_eq].
Qed.

Section KeyStoreLemmas.
Context `{SignalCodec}.

Lemma redis_mget_up (keys : list string) (w : World) :
  redis_budget w <> Some 0%nat ->
  exists w', redis_mget keys w =
    (inr (map (fun k => match db w !! k with
                        | Some (mkEntry (VStr s) _) => Some s
                        | _ => None
                        end) keys), w') /\ db w' = db w /\ sessions w' = sessions w.
Proof.
  intros Hup. unfold redis_mget, contact. munfold.
  destruct (redis_budget w) as [[|n]|]; [done| |]; eexists; (split; [reflexivity|done]).
Qed.

Lemma redis_multi_exec_up (ops : list MultiOp) (w : World) :
  redis_budget w = None ->
  redis_multi_exec ops w = (inr tt, set_db (fun d => foldl apply_op d ops) w).
Proof. intros Hup. unfold redis_multi_exec, contact. munfold. by rewrite Hup. Qed.

Lemma fold_collect (g : string -> option string) (ids : list string)
    (out : gmap string SigVal) (id : string) :
  "__proto__" ∉ ids ->
  foldl collect_value out (zip ids (map g ids)) !! id =
    if bool_decide (id ∈ ids)
    then match read_val (g id) with Some x => Some x | None => out !! id end
    else out !! id.
Proof.
  revert out. induction ids as [|i ids IH]; intros out Hproto; [done|].
  apply not_elem_of_cons in Hproto as [Hi Hproto].
  cbn [map zip zip_with foldl]. rewrite IH by done.
  assert (Hstep : forall x, read_val (g i) = Some x -> collect_value out (i, g i) = <[i := x]> out).
  { intros x Hx. unfold collect_value, read_val in *. cbn [fst snd].
    destruct (truthy_str (g i)); [|done]. rewrite Hx. unfold obj_set.
    destruct (String.eqb_spec i "__proto__"); [by subst|done]. }
  assert (Hnone : read_val (g i) = None -> collect_value out (i, g i) = out).
  { intros Hx. unfold collect_value, read_val in *. cbn [fst snd].
    destruct (truthy_str (g i)); [|done]. by rewrite Hx. }
  destruct (decide (id = i)) as [->|Hne].
  - rewrite (bool_decide_eq_true_2 (i ∈ i :: ids)) by (by left).
    destruct (read_val (g i)) as [x|] eqn:Hx.
    + rewrite (Hstep x eq_refl), lookup_insert_eq. by case_bool_decide.
    + rewrite Hnone by done. by case_bool_decide.
  - assert (Hout : collect_value out (i, g i) !! id = out !! id).
    { destruct (read_val (g i)) as [x|] eqn:Hx.
      - rewrite (Hstep x eq_refl). by rewrite lookup_insert_ne.
      - by rewrite Hnone. }
    rewrite Hout. destruct (decide (id ∈ ids)) as [Hin|Hin].
    + rewrite !bool_decide_eq_true_2; [done | by right | done].
    + rewrite !bool_decide_eq_false_2; [done | | done].
      intros [?|?]%elem_of_cons; done.
Qed.

Lemma read_val_decode (d : gmap string Entry) (k : string) :
  read_val (match d !! k with
            | Some (mkEntry (VStr s) _) => Some s
            | _ => None
            end) = decode (d !! k).
Proof. unfold read_val, decode. by destruct (d !! k) as [[[s|m] ttl]|]. Qed.

Lemma keys_get_lookup (sessionId type : string) (ids : list string) (w : World) :
  redis_budget w <> Some 0%nat \/ ids = [] ->
  "__proto__" ∉ ids ->
  exists out w',
    keys_get sessionId type ids w = (inr out, w') /\ db w' = db w /\
    forall id, out !! id =
      if bool_decide (id ∈ ids) then decode (db w !! keyOf sessionId type id) else None.
Proof.
  intros Hup Hproto. destruct ids as [|i ids].
  { exists ∅, w. split_and!; [done | done | intros id; by rewrite lookup_empty]. }
  destruct Hup as [Hup|]; [|done].
  set (g := fun x => match db w !! keyOf sessionId type x with
                     | Some (mkEntry (VStr s) _) => Some s
                     | _ => None
                     end).
  destruct (redis_mget_up (map (keyOf sessionId type) (i :: ids)) w Hup)
    as (w' & Hget & Hdb & _).
  rewrite map_map in Hget. fold g in Hget.
  exists (foldl collect_value ∅ (zip (i :: ids) (map g (i :: ids)))), w'. split_and!.
  - unfold keys_get. by rewrite bind_run, Hget.
  - done.
  - intros id. rewrite fold_collect by done. subst g. cbv beta.
    rewrite read_val_decode, lookup_empty. case_bool_decide; [|done].
    by destruct (decode _).
Qed.

(** X21.  Reading signal keys.  For a list of ids without [__proto__]:
    an empty list yields the empty object without contacting the store;
    a non-empty list raises when the store is unreachable; otherwise
    [get] returns, leaves the store as it is, and its result has exactly
    the requested ids whose entry is a non-empty string that parses, each
    with the parsed value.  An absent, empty, wrongly typed or corrupt
    entry is skipped; it never makes [get] raise. *)
Theorem keys_get_reads (sessionId type : string) (ids : list string) (w : World) :
  "__proto__" ∉ ids ->
  (ids = [] -> keys_get sessionId type ids w = (inr ∅, w)) /\
  (ids <> [] -> redis_budget w = Some 0%nat ->
     keys_get sessionId type ids w = (inl connection_lost, w)) /\
  (redis_budget w <> Some 0%nat ->
     exists out w',
       keys_get sessionId type ids w = (inr out, w') /\ db w' = db w /\
       forall id, out !! id =
         if bool_decide (id ∈ ids) then decode (db w !! keyOf sessionId type id) else None).
Proof.
  intros Hproto. split_and!.
  - by intros ->.
  - intros Hne Hdown. destruct ids as [|i ids]; [done|].
    unfold keys_get, redis_mget, contact. munfold. by rewrite Hdown.
  - intros Hup. apply keys_get_lookup; [by left | done].
Qed.

Lemma elem_of_queue_type (sid : string) (entry : string * option (list (string * option SigVal)))
    (op : MultiOp) :
  op ∈ queue_type sid entry ->
  exists byId i, entry.2 = Some byId /\ i ∈ map fst byId /\ op_key op = keyOf sid entry.1 i.
Proof.
  unfold queue_type. destruct entry as [t [byId|]]; cbn [fst snd]; [|by intros ?%elem_of_nil].
  intros ([i ov] & -> & Hin)%list_elem_of_fmap. exists byId, i. split_and!; [done| |].
  - apply list_elem_of_fmap. by exists (i, ov).
  - by destruct ov.
Qed.

Lemma elem_of_queue (sid : string) (data : list (string * option (list (string * option SigVal))))
    (op : MultiOp) :
  op ∈ concat (map (queue_type sid) data) ->
  exists t i, t ∈ map fst data /\ op_key op = keyOf sid t i.
Proof.
  intros (l & Hl & Hop)%list_elem_of_In%in_concat.
  apply list_elem_of_In, list_elem_of_fmap in Hl as (entry & -> & Hentry).
  apply list_elem_of_In in Hop.
  apply elem_of_queue_type in Hop as (byId & i & _ & _ & Hk).
  exists entry.1, i. split; [|done]. apply list_elem_of_fmap. by exists entry.
Qed.

Lemma keyOf_not_kCreds (sid t i : string) : keyOf sid t i <> kCreds sid.
Proof.
  unfold keyOf, kCreds. intros Heq%str_app_inv_head.
  assert (Hc : str_forall not_colon (t +:+ ":" +:+ i) = true) by (by rewrite Heq).
  rewrite !str_forall_app in Hc. cbn in Hc. by rewrite andb_false_r in Hc.
Qed.

(** X22.  Writing signal keys, then reading them.  When the store answers,
    the type names are distinct and free of colons and the ids of a type
    are distinct, [set] returns and, for every id it was given other than
    [__proto__]: a value is stored as its serialisation, [null] deletes the
    key; the credential blob of the session is untouched.  If moreover the
    serialisation of the value is not empty and parses back to the value, a
    following [get] of that id returns the value, and nothing for a deleted
    id. *)
Theorem keys_set_then_get (sessionId : string)
    (data : list (string * option (list (string * option SigVal))))
    (type id : string) (byId : list (string * option SigVal)) (ov : option SigVal)
    (w : World) :
  redis_budget w = None ->
  NoDup (map fst data) ->
  (forall t, t ∈ map fst data -> str_forall not_colon t = true) ->
  (type, Some byId) ∈ data ->
  NoDup (map fst byId) -> (id, ov) ∈ byId -> id <> "__proto__" ->
  (forall v, ov = Some v -> sig_stringify v <> "" /\ sig_parse (sig_stringify v) = Some v) ->
  exists w1,
    keys_set sessionId data w = (inr tt, w1) /\
    db w1 !! keyOf sessionId type id
      = (fun v => mkEntry (VStr (sig_stringify v)) None) <$> ov /\
    db w1 !! kCreds sessionId = db w !! kCreds sessionId /\
    exists out w2, keys_get sessionId type [id] w1 = (inr out, w2) /\ out !! id = ov.
Proof.
  intros Hup Htypes Hcolon Hdata Hids Hid Hproto Hcodec.
  set (ops := concat (map (queue_type sessionId) data)).
  set (w1 := set_db (fun d => foldl apply_op d ops) w).
  assert (Hset : keys_set sessionId data w = (inr tt, w1)).
  { unfold keys_set. fold ops. by rewrite redis_multi_exec_up. }
  assert (Htype : str_forall not_colon type = true).
  { apply Hcolon, list_elem_of_fmap. by exists (type, Some byId). }
  set (op := match ov with
             | None => MDel (keyOf sessionId type id)
             | Some v => MSet (keyOf sessionId type id) (sig_stringify v)
             end).
  assert (Hkey : op_key op = keyOf sessionId type id) by (subst op; by destruct ov).
  assert (Hentry : db w1 !! keyOf sessionId type id
                   = (fun v => mkEntry (VStr (sig_stringify v)) None) <$> ov).
  { apply list_elem_of_split in Hdata as (d1 & d2 & Hd).
    apply list_elem_of_split in Hid as (b1 & b2 & Hb).
    set (f := fun p : string * option SigVal =>
                match p.2 with
                | None => MDel (keyOf sessionId type p.1)
                | Some v => MSet (keyOf sessionId type p.1) (sig_stringify v)
                end).
    assert (Hops : ops = ((concat (map (queue_type sessionId) d1) ++ map f b1)
                          ++ op :: (map f b2 ++ concat (map (queue_type sessionId) d2)))%list).
    { subst ops. rewrite Hd, map_app, concat_app. cbn [map concat].
      unfold queue_type at 2. cbn [fst snd]. fold f. rewrite Hb, map_app. cbn [map].
      change (f (id, ov)) with op. by rewrite <- !app_assoc. }
    subst w1. cbn. rewrite Hops, <- Hkey, foldl_apply_once; [subst op; by destruct ov|].
    intros op' Hin. rewrite Hkey. apply elem_of_app in Hin as [Hin|Hin].
    - apply list_elem_of_fmap in Hin as ([i' ov'] & -> & Hin').
      assert (Hne : i' <> id).
      { intros ->. rewrite Hb, map_app in Hids. cbn [map fst] in Hids.
        apply NoDup_app in Hids as (_ & _ & [Hnotin _]%NoDup_cons).
        apply Hnotin, list_elem_of_fmap. by exists (id, ov'). }
      intros Heq. apply Hne.
      assert (Heq' : keyOf sessionId type i' = keyOf sessionId type id) by (by destruct ov').
      by destruct (keyOf_inj _ _ _ _ _ Htype Htype Heq').
    - apply elem_of_queue in Hin as (t & i & Ht & ->).
      intros Heq.
      assert (Ht' : str_forall not_colon t = true).
      { apply Hcolon. rewrite Hd, map_app. apply elem_of_app. right. by right. }
      destruct (keyOf_inj _ _ _ _ _ Ht' Htype Heq) as [-> _].
      rewrite Hd, map_app in Htypes. cbn [map fst] in Htypes.
      apply NoDup_app in Htypes as (_ & _ & [Hnotin _]%NoDup_cons). by apply Hnotin. }
  exists w1. split_and!; [done | done | |].
  - subst w1. cbn. apply foldl_apply_skip. intros op' Hin.
    apply elem_of_queue in Hin as (t & i & _ & ->). apply keyOf_not_kCreds.
  - destruct (keys_get_lookup sessionId type [id] w1) as (out & w2 & Hget & _ & Hout).
    { left. subst w1. cbn. by rewrite Hup. }
    { intros Heq%list_elem_of_singleton. congruence. }
    exists out, w2. split; [done|]. rewrite Hout, bool_decide_eq_true_2 by (by left).
    rewrite Hentry. destruct ov as [v|]; [|done]. cbn.
    destruct (Hcodec v eq_refl) as [Hne Hparse]. by destruct (sig_stringify v).
Qed.

End KeyStoreLemmas.

(** ** More concrete scenarios *)

Section ExtraScenarios.
#[local] Existing Instance demo_env.
#[local] Existing Instance demo_platform.
#[local] Existing Instance demo_entropy.
#[local] Existing Instance demo_auth.
#[local] Existing Instance demo_codec.

Lemma issued_token_authenticates_witness :
  redis_budget empty_world = None /\
  exists w',
    createSessionTokenPair None empty_world = (inr ("uuid-0", demo_token), w') /\
    (requireAuthToken (Some ("Bearer " +:+ demo_token)) w').1 = AuthNext "uuid-0" demo_token.
Proof.
  split; [reflexivity|].
  assert (Hset : forall v ttl, db empty_world !! sessSetKey "uuid-0"
                               <> Some (mkEntry (VStr v) ttl)) by (intros v ttl; by vm_compute).
  assert (Hid : randomUUID (entropy empty_world) <> "") by (by vm_compute).
  assert (Hlen : (50 <= AUTH_TOKEN_LEN)%nat) by (vm_compute; lia).
  destruct (issued_token_authenticates None empty_world eq_refl Hid Hset Hlen)
    as (token & w' & Hpair & _ & Hauth).
  assert (Htok : token = demo_token).
  { assert (Hc : (createSessionTokenPair None empty_world).1 = inr ("uuid-0", demo_token))
      by (vm_compute; reflexivity).
    rewrite Hpair in Hc. by injection Hc. }
  subst token. by exists w'.
Defined.

Lemma requireAuthToken_sound_witness :
  let w := run [StoreChanges demo_token_store] empty_world in
  (requireAuthToken (Some ("Bearer " +:+ demo_token)) w).1 = AuthNext "s" demo_token /\
  (7 + String.length demo_token <= AUTH_TOKEN_LEN)%nat /\
  exists ttl, db w !! tokenKey (utf8_of_latin1 demo_token) = Some (mkEntry (VStr "s") ttl).
Proof.
  cbv zeta. set (w := run _ empty_world).
  assert (Hrun : requireAuthToken (Some ("Bearer " +:+ demo_token)) w
                 = (AuthNext "s" demo_token,
                    (requireAuthToken (Some ("Bearer " +:+ demo_token)) w).2))
    by (vm_compute; reflexivity).
  destruct (requireAuthToken_sound _ _ _ _ _ Hrun) as (_ & _ & Hlen & Hknown & _).
  split_and!; [by rewrite Hrun | exact Hlen | exact Hknown].
Defined.

Lemma acquire_then_release_witness :
  redis_budget empty_world = None /\ db empty_world !! lockKey "s" = None /\
  exists l w1, acquireSessionLock "s" empty_world = (inr (Some l), w1) /\
    db (release l w1) = db empty_world.
Proof.
  split_and!; [reflexivity | reflexivity |].
  destruct (acquire_then_release "s" empty_world eq_refl eq_refl) as (l & w1 & Hacq & Hdb & _).
  by exists l, w1.
Defined.

Lemma deleteRedisAuth_footprint_witness :
  let w := run [StoreChanges demo_token_store] empty_world in
  db w !! kCreds "t" = Some (mkEntry (VStr "{t}") None) /\
  glob (baileysPattern "s") (kCreds "t") = false /\
  db (deleteRedisAuth "s" w).2 !! kCreds "t" = Some (mkEntry (VStr "{t}") None).
Proof.
  cbv zeta. set (w := run _ empty_world).
  assert (Hk : db w !! kCreds "t" = Some (mkEntry (VStr "{t}") None))
    by (vm_compute; reflexivity).
  assert (Hset : kCreds "t" <> sessSetKey "s") by (by vm_compute).
  assert (Htok : forall m ttl t, db w !! sessSetKey "s" = Some (mkEntry (VSet m) ttl) ->
                   t ∈ m -> kCreds "t" <> tokenKey t) by (intros m ttl t _ _; by vm_compute).
  assert (Hglob : glob (baileysPattern "s") (kCreds "t") = false) by (vm_compute; reflexivity).
  split_and!; [exact Hk | exact Hglob |].
  exact (deleteRedisAuth_footprint "s" w _ _ Hk Hset Htok Hglob).
Defined.

Lemma deleteRedisAuth_spares_other_sessions_witness :
  let w := run [StoreChanges demo_token_store] empty_world in
  str_forall glob_literal "s" = true /\
  db w !! kCreds "t" = Some (mkEntry (VStr "{t}") None) /\
  db (deleteRedisAuth "s" w).2 !! kCreds "t" = db w !! kCreds "t".
Proof.
  cbv zeta. set (w := run _ empty_world).
  assert (Hne : "s" <> "t") by discriminate.
  split_and!; [reflexivity | vm_compute; reflexivity |].
  exact (proj1 (deleteRedisAuth_spares_other_sessions "s" "t" w eq_refl eq_refl eq_refl Hne)).
Defined.

Lemma reconnect_timer_unique_witness :
  let w := run [CallCreateSession "s" false; ConnectionUpdate 2 timed_out] empty_world in
  timers w !! 4%nat = Some (BackoffTimer "s" 3 2000) /\
  is_Some (lookup_entry "s" w).
Proof.
  cbv zeta.
  assert (Ht : timers (run [CallCreateSession "s" false; ConnectionUpdate 2 timed_out]
                         empty_world) !! 4%nat = Some (BackoffTimer "s" 3 2000))
    by (vm_compute; reflexivity).
  split; [exact Ht|].
  exact (proj2 (reconnect_timer_unique _ "s" 4 4 3 3 2000 2000 Ht Ht)).
Defined.

Lemma reconnect_delay_bounded_witness :
  let w := run [CallCreateSession "s" false; ConnectionUpdate 2 timed_out] empty_world in
  0 < RECONNECT_MIN <= RECONNECT_MAX /\
  timers w !! 4%nat = Some (BackoffTimer "s" 3 2000) /\
  RECONNECT_MIN <= 2000 <= RECONNECT_MAX.
Proof.
  cbv zeta.
  assert (Ht : timers (run [CallCreateSession "s" false; ConnectionUpdate 2 timed_out]
                         empty_world) !! 4%nat = Some (BackoffTimer "s" 3 2000))
    by (vm_compute; reflexivity).
  assert (Hsane : 0 < RECONNECT_MIN <= RECONNECT_MAX) by (vm_compute; split; congruence).
  split_and!; [apply Hsane | apply Hsane | exact Ht | |];
    apply (reconnect_delay_bounded _ "s" 4 3 2000 Hsane Ht).
Defined.

Lemma qr_cache_witness :
  let w := run [CallCreateSession "s" false] empty_world in
  exists e, lookup_entry "s" w = Some (3%nat, e) /\ status e = connecting /\
    getLastQR "s" (step (ConnectionUpdate 2 qr_shown) w) = Some "2@qr" /\
    getLastQR "s" (step (ConnectionUpdate 2 opened) w) = None.
Proof.
  cbv zeta. set (w := run _ empty_world).
  destruct (lookup_entry "s" w) as [[r e]|] eqn:Hfound; [|by vm_compute in Hfound].
  assert (Hr : r = 3%nat) by (vm_compute in Hfound; by injection Hfound).
  assert (Hst : status e = connecting) by (vm_compute in Hfound; by injection Hfound as _ <-).
  subst r. exists e. split_and!; [done | done | |].
  - destruct (qr_cache [CallCreateSession "s" false] "s" 3 e Hfound) as [_ Hev].
    assert (Hsock : socks w !! 2%nat = Some (mkSock "s" 3 true true false))
      by (vm_compute; reflexivity).
    destruct (Hev 2%nat _ qr_shown Hsock eq_refl eq_refl eq_refl) as [_ Hqr].
    apply Hqr; [done | done | done | by rewrite Hst].
  - destruct (qr_cache [CallCreateSession "s" false] "s" 3 e Hfound) as [_ Hev].
    assert (Hsock : socks w !! 2%nat = Some (mkSock "s" 3 true true false))
      by (vm_compute; reflexivity).
    destruct (Hev 2%nat _ opened Hsock eq_refl eq_refl eq_refl) as [Hopen _].
    by apply Hopen.
Defined.

Lemma session_created_then_served_witness :
  redis_budget empty_world = None /\
  sessions empty_world !! "uuid-0" = None /\
  exists w', route_post_session empty_world
             = (Replies 200 (BodyCreated "uuid-0" demo_token), w') /\
    (route_get_session (Some ("Bearer " +:+ demo_token)) w').1
      = Replies 200 (BodySession "uuid-0" connecting None).
Proof.
  split_and!; [reflexivity | reflexivity |].
  assert (Hid : randomUUID (entropy empty_world) <> "") by (by vm_compute).
  assert (Hlen : (50 <= AUTH_TOKEN_LEN)%nat) by (vm_compute; lia).
  destruct (session_created_then_served empty_world eq_refl Hid eq_refl eq_refl eq_refl
              eq_refl Hlen) as (token & w' & Hpost & _ & Hget).
  assert (Htok : token = demo_token).
  { assert (Hc : (route_post_session empty_world).1
                 = Replies 200 (BodyCreated "uuid-0" demo_token)) by (vm_compute; reflexivity).
    rewrite Hpost in Hc. by injection Hc. }
  subst token. by exists w'.
Defined.

Lemma logout_revokes_witness :
  let w := run [StoreChanges demo_token_store] empty_world in
  db w !! tokenKey demo_token = Some (mkEntry (VStr "s") None) /\
  exists w', route_logout (Some ("Bearer " +:+ demo_token)) w = (Replies 200 BodyLogout, w') /\
    db w' !! tokenKey demo_token = None /\
    (route_get_session (Some ("Bearer " +:+ demo_token)) w').1
      = Replies 401 (BodyError "Token tidak dikenali").
Proof.
  cbv zeta.
  assert (Htok : db (run [StoreChanges demo_token_store] empty_world) !! tokenKey demo_token
                 = Some (mkEntry (VStr "s") None)) by (vm_compute; reflexivity).
  assert (Hset : db (run [StoreChanges demo_token_store] empty_world) !! sessSetKey "s"
                 = Some (mkEntry (VSet {[ demo_token ]}) None)) by (vm_compute; reflexivity).
  assert (Hin : demo_token ∈ ({[ demo_token ]} : gset string)) by (by apply elem_of_singleton).
  assert (Hne : "s" <> "") by discriminate.
  assert (Hmin : (10 <= String.length demo_token)%nat) by (vm_compute; lia).
  assert (Hlen : (7 + String.length demo_token <= AUTH_TOKEN_LEN)%nat) by (vm_compute; lia).
  assert (Hmax : (String.length demo_token <= 512)%nat) by (vm_compute; lia).
  split; [exact Htok|].
  destruct (logout_revokes [StoreChanges demo_token_store] demo_token "s" {[ demo_token ]}
              None None eq_refl eq_refl Hmin Hlen Hmax Htok Hne Hset Hin)
    as (w' & Hout & _ & Hgone & Hdenied).
  exists w'. split_and!; [exact Hout | by apply Hgone | exact Hdenied].
Defined.

Lemma saved_creds_are_loaded_witness :
  let w := run [CallCreateSession "s" false] empty_world in
  redis_budget w = None /\ JSON_parse "{paired}" = Some "{paired}" /\
  (useRedisAuth "s" true (on_creds_update "s" "{paired}" w)).1 = inr "{paired}".
Proof.
  cbv zeta. set (w := run _ empty_world).
  assert (Hne : "{paired}" <> "") by discriminate.
  split_and!; [reflexivity | reflexivity |].
  exact (proj1 (saved_creds_are_loaded "s" "{paired}" "{paired}" true w eq_refl Hne eq_refl)).
Defined.

Lemma keys_get_reads_witness :
  let w := set_db (fun _ => {[ keyOf "s" "pre-key" "1" := mkEntry (VStr "{a}") None;
                               keyOf "s" "pre-key" "2" := mkEntry (VStr "corrupt") None ]})
                  empty_world in
  ("__proto__" ∉ ["1"; "2"; "3"]) /\
  exists out w', keys_get "s" "pre-key" ["1"; "2"; "3"] w = (inr out, w') /\
    out !! "1" = Some "{a}" /\ out !! "2" = None /\ out !! "3" = None.
Proof.
  cbv zeta. set (w := set_db _ empty_world).
  assert (Hproto : "__proto__" ∉ ["1"; "2"; "3"]).
  { intros Hin. repeat (apply elem_of_cons in Hin as [Hin|Hin]; [discriminate|]).
    by apply elem_of_nil in Hin. }
  split; [exact Hproto|].
  destruct (keys_get_reads "s" "pre-key" ["1"; "2"; "3"] w Hproto) as (_ & _ & Hread).
  destruct Hread as (out & w' & Hget & _ & Hout); [by vm_compute|].
  exists out, w'. split_and!; [exact Hget | | |]; rewrite Hout; vm_compute; reflexivity.
Defined.

Lemma keys_set_then_get_witness :
  let data := [("pre-key", Some [("1", Some "{a}"); ("2", None)])] in
  redis_budget empty_world = None /\
  exists w1, keys_set "s" data empty_world = (inr tt, w1) /\
    db w1 !! keyOf "s" "pre-key" "1" = Some (mkEntry (VStr "{a}") None) /\
    exists out w2, keys_get "s" "pre-key" ["1"] w1 = (inr out, w2) /\ out !! "1" = Some "{a}".
Proof.
  cbv zeta. split; [reflexivity|].
  assert (Htypes : NoDup (map fst [("pre-key", Some [("1", Some "{a}"); ("2", None)])]))
    by (apply NoDup_singleton).
  assert (Hcolon : forall t, t ∈ map fst [("pre-key", Some [("1", Some "{a}"); ("2", @None SigVal)])]
                     -> str_forall not_colon t = true)
    by (intros t ->%list_elem_of_singleton; reflexivity).
  assert (Hdata : ("pre-key", Some [("1", Some "{a}"); ("2", None)])
                    ∈ [("pre-key", Some [("1", Some "{a}"); ("2", @None SigVal)])])
    by (by left).
  assert (Hids : NoDup (map fst [("1", Some "{a}"); ("2", @None SigVal)])).
  { apply NoDup_cons. split; [|apply NoDup_singleton].
    intros Hin%list_elem_of_singleton. discriminate. }
  assert (Hid : ("1", Some "{a}") ∈ [("1", Some "{a}"); ("2", @None SigVal)]) by (by left).
  assert (Hproto : "1" <> "__proto__") by discriminate.
  assert (Hcodec : forall v : SigVal, Some "{a}" = Some v ->
                     sig_stringify v <> "" /\ sig_parse (sig_stringify v) = Some v)
    by (intros v [= <-]; split; [discriminate | reflexivity]).
  destruct (@keys_set_then_get demo_codec "s" _ "pre-key" "1" _ (Some "{a}") empty_world eq_refl
              Htypes Hcolon Hdata Hids Hid Hproto Hcodec)
    as (w1 & Hset & Hentry & _ & out & w2 & Hget & Hout).
  exists w1. split_and!; [exact Hset | exact Hentry |]. by exists out, w2.
Defined.

Lemma get_session_locked_elsewhere_witness :
  let w := run [StoreChanges demo_locked_store] empty_world in
  ordinary_run [StoreChanges demo_locked_store] empty_world = true /\
  ordinary_id "s" = true /\
  db w !! tokenKey demo_token = Some (mkEntry (VStr "s") None) /\
  is_Some (db w !! lockKey "s") /\
  exists w', route_get_session (Some ("Bearer " +:+ demo_token)) w
             = (Replies 404 (BodyError "Session tidak ditemukan"), w') /\ db w' = db w.
Proof.
  cbv zeta.
  assert (Htok : db (run [StoreChanges demo_locked_store] empty_world) !! tokenKey demo_token
                 = Some (mkEntry (VStr "s") None)) by (vm_compute; reflexivity).
  assert (Hheld : is_Some (db (run [StoreChanges demo_locked_store] empty_world) !! lockKey "s"))
    by (vm_compute; eauto).
  assert (Hne : "s" <> "") by discriminate.
  assert (Hmin : (10 <= String.length demo_token)%nat) by (vm_compute; lia).
  assert (Hlen : (7 + String.length demo_token <= AUTH_TOKEN_LEN)%nat) by (vm_compute; lia).
  assert (Hmax : (String.length demo_token <= 512)%nat) by (vm_compute; lia).
  split_and!; [reflexivity | reflexivity | exact Htok | exact Hheld |].
  destruct (get_session_locked_elsewhere [StoreChanges demo_locked_store] demo_token "s" None
              eq_refl eq_refl eq_refl eq_refl Hmin Hlen Hmax Htok Hne eq_refl Hheld)
    as (w' & Hreply & Hdb & _).
  by exists w'.
Defined.

End ExtraScenarios.

(** ** Terminal close events *)

Section TerminalClose.
Context `{Env} `{Platform}.

(** [teardown] writes to the store through [release] only. *)
Lemma teardown_db_lock sid s e w k :
  heap w !! s = Some e ->
  (forall l, lock e = Some l -> exists x, lk_key l = lockKey x) ->
  not_a_lock k -> db (teardown sid s w) !! k = db w !! k.
Proof.
  intros He Hkey Hk. unfold teardown. rewrite He. cbn [default]. cbn.
  set (w4 := match sock e with Some _ => _ | None => _ end).
  assert (Hdb : db w4 = db w) by (subst w4; by repeat case_match).
  clearbody w4. destruct (lock e) as [l|] eqn:Hl; [|by rewrite Hdb].
  destruct (Hkey l eq_refl) as [x Hx].
  destruct (release_cases l w4) as (_ & _ & [->|[-> _]] & _); [by rewrite Hdb|].
  rewrite lookup_delete_ne, Hdb; [done|]. rewrite Hx. apply not_eq_sym, Hk.
Qed.

(** The handler, for a close with a terminal code that reaches a socket of
    a registered session: it marks the socket's object, logs, and calls
    [logoutSession], which finds the record and tears it down. *)
Lemma terminal_close_unfold (w : World) (k : nat) (x : Sock) (u : Update)
    (r : nat) (e : SessionEntry) :
  let sessionId := sk_sessionId x in
  socks w !! k = Some x -> sk_on_connection x = true ->
  lookup_entry sessionId w = Some (r, e) ->
  u_connection u = Some close -> is_terminal_code (u_code u) = true ->
  exists w3 e3,
    sessions w3 = sessions w /\ socks w3 = socks w /\ timers w3 = timers w /\
    db w3 = db w /\ redis_budget w3 = redis_budget w /\
    heap w3 !! r = Some e3 /\ sock e3 = sock e /\ lock e3 = lock e /\
    step (ConnectionUpdate k u) w
      = match deleteRedisAuth sessionId (teardown sessionId r w3) with
        | (inr _, w4) => w4
        | (inl _, w4) => process_exit w4
        end.
Proof.
  intros sessionId Hk Hon Hex Hclose Hterm.
  apply lookup_entry_Some in Hex as [Hs He].
  cbn [step]. rewrite Hk, Hon. fold sessionId.
  unfold on_connection_update. rewrite Hclose, Hterm.
  match goal with
  | |- context [logoutSession _ ?y] => set (w3 := y)
  end.
  assert (Hfr : sessions w3 = sessions w /\ socks w3 = socks w /\ timers w3 = timers w /\
                db w3 = db w /\ redis_budget w3 = redis_budget w /\
                exists e3, heap w3 !! r = Some e3 /\ sock e3 = sock e /\ lock e3 = lock e).
  { subst w3. cbn [add_log sessions socks timers db redis_budget heap upd set_heap].
    case_match; cbn [add_log sessions socks timers db redis_budget heap upd set_heap];
      split_and!; try done.
    - rewrite !lookup_alter. repeat case_decide; subst; rewrite ?He; simpl; eauto.
    - rewrite !lookup_alter. repeat case_decide; subst; rewrite ?He; simpl; eauto. }
  destruct Hfr as (Hs3 & Hk3 & Ht3 & Hd3 & Hb3 & e3 & He3 & Hsock3 & Hlock3).
  exists w3, e3. split_and!; try done.
  unfold logoutSession, getSession. munfold. rewrite Hs3, Hs. cbn [fst snd]. done.
Qed.

(** C3.  A terminal close does not delete the credentials of every
    session.  In a state reached by a run over ordinary identifiers, let a
    close event whose cause is "logged out" (401) or "connection replaced"
    (440) be delivered to a socket whose listener is attached and whose
    session has a record in the registry, while the store answers and the
    token index of the session is no plain string.  If the credential key
    of the session is not matched by the pattern [baileys:<id>:*] that
    [deleteRedisAuth] hands to SCAN (the identifier is not escaped, so this
    happens for an identifier with a glob metacharacter such as [a[b]),
    then the record is removed and the token index is deleted, but the
    credential blob is still in the store, as it was. *)
Theorem terminal_close_keeps_glob_credentials (evs : list Event) (k : nat) (x : Sock)
    (u : Update) (r : nat) (e : SessionEntry) (creds : Entry) :
  let w := run evs empty_world in
  let sessionId := sk_sessionId x in
  let w' := step (ConnectionUpdate k u) w in
  ordinary_run evs empty_world = true ->
  socks w !! k = Some x -> sk_on_connection x = true ->
  lookup_entry sessionId w = Some (r, e) ->
  u_connection u = Some close -> is_terminal_code (u_code u) = true ->
  redis_budget w = None ->
  (forall v ttl, db w !! sessSetKey sessionId <> Some (mkEntry (VStr v) ttl)) ->
  db w !! kCreds sessionId = Some creds ->
  glob (baileysPattern sessionId) (kCreds sessionId) = false ->
  sessions w' !! sessionId = None /\
  db w' !! sessSetKey sessionId = None /\
  db w' !! kCreds sessionId = Some creds.
Proof.
  intros w sessionId w' _ Hk Hon Hex Hclose Hterm Hup Hset Hcreds Hglob.
  assert (HT : Tidy w) by apply Tidy_run, Tidy_empty.
  destruct (terminal_close_unfold w k x u r e Hk Hon Hex Hclose Hterm)
    as (w3 & e3 & Hs3 & Hk3 & Ht3 & Hd3 & Hb3 & He3 & Hsock3 & Hlock3 & Hstep).
  apply lookup_entry_Some in Hex as [Hs He].
  subst w'. fold sessionId in Hstep. rewrite Hstep. clear Hstep.
  pose proof (teardown_effect sessionId r e3 w3 He3) as (Hts & _ & _ & _ & Htd & Htb & _).
  assert (Hkey : forall l, lock e3 = Some l -> exists y, lk_key l = lockKey y).
  { intros l Hl. rewrite Hlock3 in Hl. by apply (tidy_heap _ HT _ _ He). }
  set (w4 := teardown sessionId r w3) in *.
  assert (Hup4 : redis_budget w4 = None) by (apply Htb; congruence).
  assert (Hset4 : forall v ttl, db w4 !! sessSetKey sessionId <> Some (mkEntry (VStr v) ttl)).
  { intros v ttl Hx. apply Htd in Hx. rewrite Hd3 in Hx. by apply (Hset v ttl). }
  destruct (deleteRedisAuth_db sessionId w4 Hup4 Hset4) as [Hok Hdb].
  pose proof (deleteRedisAuth_core sessionId w4) as (Hds & _).
  pose proof (deleteRedisAuth_keeps sessionId w4 (kCreds sessionId)) as Hkeep.
  destruct (deleteRedisAuth sessionId w4) as [res w5]. cbn [fst snd] in *. subst res.
  split_and!.
  - rewrite Hds. subst w4. rewrite Hts. apply lookup_delete_eq.
  - rewrite Hdb, lookup_del_keys. case_bool_decide; [done|]. by rewrite lookup_delete_eq.
  - rewrite Hkeep; [| apply kCreds_not_sessSetKey | intros; apply kCreds_not_tokenKey | done].
    subst w4. rewrite (teardown_db_lock sessionId r e3 w3) by (done || apply kCreds_not_a_lock).
    by rewrite Hd3.
Qed.

(** X23.  What a terminal close event does for every session.  In a state
    reached by a run over ordinary identifiers, when a close event whose
    cause is "logged out" (401) or "connection replaced" (440) is delivered
    to a socket whose listener is attached and whose session has a record
    in the registry: the record is removed; the renewal of the lock stops
    and, when the store answers, the lock key no longer holds our token; no
    timer is armed and no reconnect timer of the session is pending
    afterwards, so no reconnect follows.  When moreover the store answers
    and the token index of the session is no plain string: the listeners of
    the record's socket are removed and the socket is logged out; the token
    index and the mapping of every token it lists are deleted; every key
    that the pattern [baileys:<id>:*] matches is deleted, which for an
    identifier without glob metacharacter includes the credential blob and
    every keyed signal entry. *)
Theorem terminal_close_terminates (evs : list Event) (k : nat) (x : Sock) (u : Update)
    (r : nat) (e : SessionEntry) :
  let w := run evs empty_world in
  let sessionId := sk_sessionId x in
  let w' := step (ConnectionUpdate k u) w in
  ordinary_run evs empty_world = true ->
  socks w !! k = Some x -> sk_on_connection x = true ->
  lookup_entry sessionId w = Some (r, e) ->
  u_connection u = Some close -> is_terminal_code (u_code u) = true ->
  (* the in-memory record is removed *)
  sessions w' !! sessionId = None /\
  (* the lock is released: its renewal stops, and the key no longer holds
     our token when the store answers *)
  (forall l, lock e = Some l ->
     timers w' !! lk_renewTimer l = None /\
     (redis_budget w = None ->
      forall ttl, db w' !! lk_key l <> Some (mkEntry (VStr (lk_token l)) ttl))) /\
  (* no reconnect: no timer is armed, and none stays pending for the session *)
  (forall t X, timers w' !! t = Some X -> timers w !! t = Some X) /\
  (forall t s d, timers w' !! t <> Some (BackoffTimer sessionId s d)) /\
  (* when the store answers and the token index is no plain string *)
  (redis_budget w = None ->
   (forall v ttl, db w !! sessSetKey sessionId <> Some (mkEntry (VStr v) ttl)) ->
   (* the listeners of the record's socket are removed and it is logged out *)
   (forall k' y, sock e = Some k' -> socks w !! k' = Some y ->
      exists y', socks w' !! k' = Some y' /\ torn_down y') /\
   (* the token index, the tokens it lists and the keys the pattern matches
      are deleted *)
   db w' !! sessSetKey sessionId = None /\
   (forall m ttl t, db w !! sessSetKey sessionId = Some (mkEntry (VSet m) ttl) -> t ∈ m ->
      db w' !! tokenKey t = None) /\
   (forall key, glob (baileysPattern sessionId) key = true -> db w' !! key = None) /\
   (* which, for a literal identifier, are the credentials and every keyed entry *)
   (str_forall glob_literal sessionId = true ->
    db w' !! kCreds sessionId = None /\
    forall type id, db w' !! keyOf sessionId type id = None)).
Proof.
  intros w sessionId w' _ Hk Hon Hex Hclose Hterm.
  assert (HI : Inv w) by (apply Inv_run, Inv_empty).
  assert (HI' : Inv w') by (by apply Inv_step).
  assert (HT : Tidy w) by apply Tidy_run, Tidy_empty.
  destruct (terminal_close_unfold w k x u r e Hk Hon Hex Hclose Hterm)
    as (w3 & e3 & Hs3 & Hk3 & Ht3 & Hd3 & Hb3 & He3 & Hsock3 & Hlock3 & Hstep).
  apply lookup_entry_Some in Hex as [Hs He].
  fold sessionId in Hstep. fold w' in Hstep.
  pose proof (teardown_effect sessionId r e3 w3 He3) as (Hts & Htk & Htt & Htl & Htd & Htb & Htdb).
  set (w4 := teardown sessionId r w3) in *.
  pose proof (deleteRedisAuth_core sessionId w4) as (Hds & _ & Hdt & _).
  pose proof (deleteRedisAuth_socks sessionId w4) as Hdk.
  assert (Hshrink : forall key v, db w' !! key = Some v -> db w4 !! key = Some v).
  { intros key v. rewrite Hstep.
    pose proof (deleteRedisAuth_shrinks sessionId w4 key v) as Hx.
    by destruct (deleteRedisAuth sessionId w4) as [[err|ok] w5]. }
  assert (Hgone : sessions w' !! sessionId = None).
  { rewrite Hstep. destruct (deleteRedisAuth sessionId w4) as [[err|ok] w5]; cbn [fst snd] in *.
    - apply lookup_empty.
    - rewrite Hds, Hts. apply lookup_delete_eq. }
  assert (Htimers : forall t X, timers w' !! t = Some X -> timers w4 !! t = Some X).
  { intros t X. rewrite Hstep.
    destruct (deleteRedisAuth sessionId w4) as [[err|ok] w5]; cbn [fst snd] in *.
    - cbn. by rewrite lookup_empty.
    - by rewrite Hdt. }
  split_and!.
  - exact Hgone.
  - intros l Hl. split.
    + destruct (timers w' !! lk_renewTimer l) as [X|] eqn:Hx; [|done].
      apply Htimers in Hx. rewrite Htl in Hx by congruence. done.
    + intros Hup ttl Hx. apply Hshrink in Hx. revert Hx. apply Htdb; congruence.
  - intros t X Hx. apply Htimers, Htt in Hx. by rewrite Ht3 in Hx.
  - intros t s d Hx. destruct (inv_timer _ HI' _ _ _ _ Hx) as [(r' & e' & Hr' & _) _].
    congruence.
  - intros Hup Hset.
    assert (Hup4 : redis_budget w4 = None) by (apply Htb; congruence).
    assert (Hset4 : forall v ttl, db w4 !! sessSetKey sessionId <> Some (mkEntry (VStr v) ttl)).
    { intros v ttl Hx. apply Htd in Hx. rewrite Hd3 in Hx. by apply (Hset v ttl). }
    destruct (deleteRedisAuth_db sessionId w4 Hup4 Hset4) as [Hok Hdb].
    assert (Hw' : w' = (deleteRedisAuth sessionId w4).2).
    { rewrite Hstep. destruct (deleteRedisAuth sessionId w4) as [res w5].
      cbn [fst snd] in *. by subst res. }
    assert (Hset3 : db w4 !! sessSetKey sessionId = db w !! sessSetKey sessionId).
    { subst w4. rewrite (teardown_db_lock sessionId r e3 w3).
      - by rewrite Hd3.
      - done.
      - intros l Hl. rewrite Hlock3 in Hl. by apply (tidy_heap _ HT _ _ He).
      - apply sessSetKey_not_a_lock. }
    assert (Hmatched : forall key, glob (baileysPattern sessionId) key = true ->
                                   db w' !! key = None).
    { intros key Hg. rewrite Hw', Hdb, lookup_del_keys. case_bool_decide as Hin; [done|].
      rewrite elem_of_keys_matching in Hin.
      destruct (decide (sessSetKey sessionId = key)) as [->|Hne]; [apply lookup_delete_eq|].
      rewrite lookup_delete_ne by done. rewrite lookup_del_keys. case_bool_decide; [done|].
      destruct (db w4 !! key) eqn:Hx; [|done]. destruct Hin. eauto. }
    split_and!.
    + intros k' y Hk' Hy. rewrite Hw', Hdk. apply (Htk k' y); congruence.
    + rewrite Hw', Hdb, lookup_del_keys. case_bool_decide; [done|]. apply lookup_delete_eq.
    + intros m ttl t Hm Ht. rewrite Hw', Hdb, lookup_del_keys. case_bool_decide; [done|].
      destruct (decide (sessSetKey sessionId = tokenKey t)) as [->|Hne];
        [by rewrite lookup_delete_eq|].
      rewrite lookup_delete_ne by done. rewrite Hset3, Hm, lookup_del_keys.
      rewrite bool_decide_eq_true_2; [done|].
      apply list_elem_of_fmap. exists t. split; [done | by apply elem_of_elements].
    + exact Hmatched.
    + intros Hlit. split.
      * apply Hmatched. unfold kCreds. by apply glob_baileysPattern.
      * intros type id. apply Hmatched. unfold keyOf. by apply glob_baileysPattern.
Qed.

End TerminalClose.

Section TerminalCloseScenarios.
#[local] Existing Instance demo_env.
#[local] Existing Instance demo_platform.

Lemma terminal_close_keeps_glob_credentials_witness :
  let evs := [StoreChanges (db demo_glob_store); CallRestoreAll] in
  let w := run evs empty_world in
  let w' := step (ConnectionUpdate 2 logged_out) w in
  ordinary_run evs empty_world = true /\
  redis_budget w = None /\
  sessions w !! demo_glob_id = Some 3%nat /\
  db w !! kCreds demo_glob_id = Some (mkEntry (VStr "{paired}") None) /\
  sessions w' !! demo_glob_id = None /\
  db w' !! kCreds demo_glob_id = Some (mkEntry (VStr "{paired}") None).
Proof.
  cbv zeta. set (evs := [StoreChanges (db demo_glob_store); CallRestoreAll]).
  assert (Hx : socks (run evs empty_world) !! 2%nat
               = Some (mkSock demo_glob_id 3 true true false)) by (vm_compute; reflexivity).
  assert (Hr : lookup_entry demo_glob_id (run evs empty_world)
               = Some (3%nat, mkEntryObj (Some 2%nat) connecting None None false None None
                                 (Some (mkLock "lock:wa:a[b" "uuid-0" 0))))
    by (vm_compute; reflexivity).
  assert (Hs : sessions (run evs empty_world) !! demo_glob_id = Some 3%nat)
    by (vm_compute; reflexivity).
  assert (Hset : forall v ttl, db (run evs empty_world) !! sessSetKey demo_glob_id
                               <> Some (mkEntry (VStr v) ttl))
    by (intros v ttl; vm_compute; discriminate).
  assert (Hcreds : db (run evs empty_world) !! kCreds demo_glob_id
                   = Some (mkEntry (VStr "{paired}") None)) by (vm_compute; reflexivity).
  destruct (terminal_close_keeps_glob_credentials evs 2 _ logged_out _ _ _
              eq_refl Hx eq_refl Hr eq_refl eq_refl eq_refl Hset Hcreds eq_refl)
    as (Hgone & _ & Hkept).
  split_and!; [reflexivity | reflexivity | exact Hs | exact Hcreds | exact Hgone | exact Hkept].
Defined.

Lemma terminal_close_terminates_witness :
  let evs := [CallCreateSession "s" false; CredsUpdate 2 "{paired}"] in
  let w := run evs empty_world in
  let w' := step (ConnectionUpdate 2 logged_out) w in
  ordinary_run evs empty_world = true /\
  sessions w !! "s" = Some 3%nat /\
  db w !! kCreds "s" = Some (mkEntry (VStr "{paired}") None) /\
  sessions w' !! "s" = None /\
  (forall t s d, timers w' !! t <> Some (BackoffTimer "s" s d)) /\
  db w' !! kCreds "s" = None.
Proof.
  cbv zeta. set (evs := [CallCreateSession "s" false; CredsUpdate 2 "{paired}"]).
  assert (Hx : socks (run evs empty_world) !! 2%nat = Some (mkSock "s" 3 true true false))
    by (vm_compute; reflexivity).
  assert (Hr : lookup_entry "s" (run evs empty_world)
               = Some (3%nat, mkEntryObj (Some 2%nat) connecting None None false None None
                                 (Some (mkLock "lock:wa:s" "uuid-0" 0))))
    by (vm_compute; reflexivity).
  assert (Hset : forall v ttl, db (run evs empty_world) !! sessSetKey "s"
                               <> Some (mkEntry (VStr v) ttl))
    by (intros v ttl; vm_compute; discriminate).
  destruct (terminal_close_terminates evs 2 _ logged_out _ _
              eq_refl Hx eq_refl Hr eq_refl eq_refl) as (Hgone & _ & _ & Hno & Hstore).
  destruct (Hstore eq_refl Hset) as (_ & _ & _ & _ & Hlit).
  split_and!; [reflexivity | vm_compute; reflexivity | vm_compute; reflexivity
              | exact Hgone | exact Hno | exact (proj1 (Hlit eq_refl))].
Defined.

End TerminalCloseScenarios.
